(** * ZK Memory: the session contract, the deck commitment and the client
      flip pipeline

    A shallow embedding of
    - the Soroban contract [ZkMemoryContract] of [contracts/zk-memory/src/lib.rs]
      as the implementation plan gives it ([start_game], [flip_card],
      [verify_card_reveal_proof], [get_game]; a 4x4 board, 8 pairs),
    - the client's deck utilities of [deckUtils.ts] ([shuffleDeck],
      [generateCommitment], [createCommittedDeck], [hexToBuffer],
      [generateMockProof], [generateMockPublicInputs]) and the proof
      generation of [noirProofGen.ts] ([computePedersenCommitment],
      [generateNoirProof]),
    - the handlers of the game component [ZkMemoryGame.tsx]
      ([parsePoints], [handleCreateGame], [handleFlipCard]; also
      [createRandomSessionId] and the button of [renderCard]),
    followed by the properties of the specification stated over them. *)

From Stdlib Require Import NArith ZArith List String Ascii Lia Bool.
From Stdlib Require Import DecimalString DecimalN.
From stdpp Require Import base gmap strings list.

Open Scope N_scope.

(** ** Host values *)

(** [Address] values are the textual account or contract ids. *)
Definition Address : Type := string.

(** [Bytes], [BytesN<32>], [BytesN<128>], [Buffer], [Uint8Array]: a sequence
    of octets.  The fixed lengths of [BytesN] are not part of the type. *)
Definition Bytes : Type := list N.

Definition U32_MAX : N := 4294967295.

Module Contract.

(** ** Data structures of the contract *)

Inductive CardState : Type :=
| FaceDown
| Matched.

Definition CardState_eqb (a b : CardState) : bool :=
  match a, b with
  | FaceDown, FaceDown => true
  | Matched, Matched => true
  | _, _ => false
  end.

Record GameState : Type := mkGameState {
  session_id : N;
  player1 : Address;
  player2 : Address;
  deck_commitment : Bytes;
  cards : list CardState;
  score1 : N;
  score2 : N;
  current_turn : Address;
  flip_one : option N;
  flip_one_value : option N;
  pairs_found : N;
  is_active : bool
}.

Inductive DataKey : Type :=
| Admin
| GameHubAddress
| Game (sid : N).

Inductive Error : Type :=
| GameNotFound
| GameNotActive
| NotYourTurn
| CardAlreadyMatched
| InvalidProof
| InvalidPosition.

Definition error_code (e : Error) : N :=
  match e with
  | GameNotFound => 1
  | GameNotActive => 2
  | NotYourTurn => 3
  | CardAlreadyMatched => 4
  | InvalidProof => 5
  | InvalidPosition => 6
  end.

(** The two entry points of the Game Hub client interface, as the calls the
    contract makes to it. *)
Inductive HubCall : Type :=
| HubStartGame (game_id : Address) (sid : N) (p1 p2 : Address)
               (player1_points player2_points : Z)
| HubEndGame (sid : N) (player1_won : bool).

(** ** The host: storage, the hub, and aborted invocations *)

(** Instance storage holds the admin and hub addresses, temporary storage the
    sessions under [Game sid].  Calls to the hub are recorded in order.  The
    time-to-live bookkeeping of temporary entries does not touch their
    contents and is left out. *)
Record Host : Type := mkHost {
  contract_address : Address;
  instance_admin : option Address;
  instance_hub : option Address;
  temporary : gmap N GameState;
  hub_calls : list HubCall
}.

(** The context of one invocation: who invokes, and which addresses have
    authorised it. *)
Record Ctx : Type := mkCtx {
  invoker : Address;
  authorized : list Address
}.

(** An invocation ends by returning, by [panic_with_error!] with a contract
    error, or by a plain panic ([unwrap] of nothing, an index out of bounds, an
    arithmetic overflow, a missing authorisation). *)
Inductive Abort : Type :=
| ContractError (e : Error)
| HostPanic.

Inductive outcome (A : Type) : Type :=
| Ok (a : A)
| Err (t : Abort).

Arguments Ok {A} a.
Arguments Err {A} t.

(** A contract computation threads the host.  The host component of the
    result is the host as it stands when the computation returns or aborts,
    before the ledger discards the writes of an aborted invocation. *)
Definition M (A : Type) : Type := Host -> Host * outcome A.

Definition ret {A} (a : A) : M A := fun h => (h, Ok a).

Definition bind {A B} (m : M A) (k : A -> M B) : M B :=
  fun h =>
    match m h with
    | (h1, Ok a) => k a h1
    | (h1, Err t) => (h1, Err t)
    end.

Notation "'let*' x ':=' m 'in' k" := (bind m (fun x => k))
  (at level 10, x pattern, m at level 100, k at level 200).

Notation "m ';;;' k" := (bind m (fun _ => k))
  (at level 100, k at level 200, right associativity).

Definition panic_with_error {A} (e : Error) : M A :=
  fun h => (h, Err (ContractError e)).

Definition panic {A} : M A := fun h => (h, Err HostPanic).

(** [o.unwrap()] *)
Definition unwrap {A} (o : option A) : M A :=
  match o with
  | Some a => ret a
  | None => panic
  end.

(** [if c { panic_with_error!(&env, e) }] *)
Definition reject_if (c : bool) (e : Error) : M unit :=
  if c then panic_with_error e else ret tt.

Definition temporary_get (sid : N) : M (option GameState) :=
  fun h => (h, Ok (temporary h !! sid)).

Definition temporary_set (sid : N) (g : GameState) : M unit :=
  fun h =>
    (mkHost (contract_address h) (instance_admin h) (instance_hub h)
            (<[sid := g]> (temporary h)) (hub_calls h), Ok tt).

Definition instance_get_hub : M (option Address) :=
  fun h => (h, Ok (instance_hub h)).

Definition current_contract_address : M Address :=
  fun h => (h, Ok (contract_address h)).

Definition hub_invoke (c : HubCall) : M unit :=
  fun h =>
    (mkHost (contract_address h) (instance_admin h) (instance_hub h)
            (temporary h) (hub_calls h ++ [c]), Ok tt).

(** [a.require_auth()]: the invocation carries the authorisation of [a] or
    aborts.  An authorisation is not used up by a check. *)
Definition require_auth (ctx : Ctx) (a : Address) : M unit :=
  if existsb (String.eqb a) (authorized ctx) then ret tt else panic.

(** [cards.get(i)] *)
Definition vec_get {A} (v : list A) (i : N) : option A := v !! N.to_nat i.

(** [cards.set(i, x)]: aborts when [i] is out of bounds. *)
Definition vec_set {A} (v : list A) (i : N) (x : A) : M (list A) :=
  if i <? N.of_nat (length v) then ret (<[N.to_nat i := x]> v) else panic.

(** [x += 1] on a [u32], compiled with overflow checks: the increment aborts
    on overflow.  No counter of a reachable session exceeds [TOTAL_PAIRS]. *)
Definition u32_incr (x : N) : M N :=
  if x + 1 <=? U32_MAX then ret (x + 1) else panic.

(** ** The contract *)

Definition __constructor (admin game_hub : Address) : M unit :=
  fun h =>
    (mkHost (contract_address h) (Some admin) (Some game_hub)
            (temporary h) (hub_calls h), Ok tt).

Definition BOARD_SIZE : N := 16.
Definition TOTAL_PAIRS : N := 8.

Definition start_game (ctx : Ctx) (sid : N) (p1 p2 : Address)
    (player1_points player2_points : Z) (commitment : Bytes) : M N :=
  require_auth ctx p1 ;;;
  require_auth ctx p2 ;;;
  let cards := repeat FaceDown (N.to_nat BOARD_SIZE) in
  let game :=
    {| session_id := sid;
       player1 := p1;
       player2 := p2;
       deck_commitment := commitment;
       cards := cards;
       score1 := 0;
       score2 := 0;
       current_turn := p1;
       flip_one := None;
       flip_one_value := None;
       pairs_found := 0;
       is_active := true |} in
  let* hub := instance_get_hub in
  let* game_hub := unwrap hub in
  let* self := current_contract_address in
  hub_invoke (HubStartGame self sid p1 p2 player1_points player2_points) ;;;
  temporary_set sid game ;;;
  ret sid.

(** A proof check: proof bytes, public inputs, the session's commitment. *)
Definition Verifier : Type := Bytes -> list Bytes -> Bytes -> bool.

(** [verify_card_reveal_proof] as it is written: its body holds only the
    comment that sketches the pairing check, so it returns for every input. *)
Definition placeholder : Verifier := fun _ _ _ => true.

Section FlipCard.

(** The check [verify_card_reveal_proof] stands for.  A rejected proof aborts
    the invocation with [InvalidProof], as the sketched call does. *)
Variable verifier : Verifier.

Definition verify_card_reveal_proof (proof : Bytes)
    (public_inputs : list Bytes) (commitment : Bytes) : M unit :=
  reject_if (negb (verifier proof public_inputs commitment)) InvalidProof.

Definition set_first_flip (g : GameState) (position revealed_value : N)
  : GameState :=
  {| session_id := session_id g; player1 := player1 g; player2 := player2 g;
     deck_commitment := deck_commitment g; cards := cards g;
     score1 := score1 g; score2 := score2 g;
     current_turn := current_turn g;
     flip_one := Some position; flip_one_value := Some revealed_value;
     pairs_found := pairs_found g; is_active := is_active g |}.

Definition clear_flips (g : GameState) : GameState :=
  {| session_id := session_id g; player1 := player1 g; player2 := player2 g;
     deck_commitment := deck_commitment g; cards := cards g;
     score1 := score1 g; score2 := score2 g;
     current_turn := current_turn g;
     flip_one := None; flip_one_value := None;
     pairs_found := pairs_found g; is_active := is_active g |}.

Definition set_match (g : GameState) (cs : list CardState) (pf s1 s2 : N)
  : GameState :=
  {| session_id := session_id g; player1 := player1 g; player2 := player2 g;
     deck_commitment := deck_commitment g; cards := cs;
     score1 := s1; score2 := s2;
     current_turn := current_turn g;
     flip_one := flip_one g; flip_one_value := flip_one_value g;
     pairs_found := pf; is_active := is_active g |}.

Definition set_current_turn (g : GameState) (a : Address) : GameState :=
  {| session_id := session_id g; player1 := player1 g; player2 := player2 g;
     deck_commitment := deck_commitment g; cards := cards g;
     score1 := score1 g; score2 := score2 g;
     current_turn := a;
     flip_one := flip_one g; flip_one_value := flip_one_value g;
     pairs_found := pairs_found g; is_active := is_active g |}.

Definition set_inactive (g : GameState) : GameState :=
  {| session_id := session_id g; player1 := player1 g; player2 := player2 g;
     deck_commitment := deck_commitment g; cards := cards g;
     score1 := score1 g; score2 := score2 g;
     current_turn := current_turn g;
     flip_one := flip_one g; flip_one_value := flip_one_value g;
     pairs_found := pairs_found g; is_active := false |}.

(** The game logic of [flip_card] on the local copy [game]. *)
Definition apply_flip (game : GameState) (position revealed_value : N)
  : M GameState :=
  match flip_one game with
  | None =>
      (* first card of the turn *)
      ret (set_first_flip game position revealed_value)
  | Some pos_a =>
      let* val_a := unwrap (flip_one_value game) in
      let* game :=
        if (val_a =? revealed_value) && negb (pos_a =? position) then
          let* cs := vec_set (cards game) pos_a Matched in
          let* cs := vec_set cs position Matched in
          let* pf := u32_incr (pairs_found game) in
          if String.eqb (current_turn game) (player1 game) then
            let* s1 := u32_incr (score1 game) in
            ret (set_match game cs pf s1 (score2 game))
          else
            let* s2 := u32_incr (score2 game) in
            ret (set_match game cs pf (score1 game) s2)
        else
          ret (set_current_turn game
                 (if String.eqb (current_turn game) (player1 game)
                  then player2 game else player1 game)) in
      ret (clear_flips game)
  end.

(** The completion check of [flip_card]. *)
Definition finish_if_complete (sid : N) (game : GameState) : M GameState :=
  if pairs_found game =? TOTAL_PAIRS then
    let game := set_inactive game in
    let* hub := instance_get_hub in
    let* game_hub := unwrap hub in
    let player1_won := score2 game <? score1 game in
    hub_invoke (HubEndGame sid player1_won) ;;;
    ret game
  else ret game.

Definition flip_card (ctx : Ctx) (sid position revealed_value : N)
    (proof : Bytes) (public_inputs : list Bytes) : M unit :=
  let* stored := temporary_get sid in
  let* game := unwrap stored in
  reject_if (negb (is_active game)) GameNotActive ;;;
  let caller := invoker ctx in
  reject_if (negb (String.eqb caller (current_turn game))) NotYourTurn ;;;
  reject_if (BOARD_SIZE <=? position) InvalidPosition ;;;
  let* card := unwrap (vec_get (cards game) position) in
  reject_if (CardState_eqb card Matched) CardAlreadyMatched ;;;
  verify_card_reveal_proof proof public_inputs (deck_commitment game) ;;;
  let* game := apply_flip game position revealed_value in
  let* game := finish_if_complete sid game in
  temporary_set sid game.

End FlipCard.

Definition get_game (sid : N) : M GameState :=
  let* stored := temporary_get sid in
  unwrap stored.

(** What the ledger keeps of an invocation: the writes of one that returns,
    nothing of one that aborts. *)
Definition commit {A} (m : M A) (h : Host) : Host * outcome A :=
  match m h with
  | (h', Ok a) => (h', Ok a)
  | (_, Err t) => (h, Err t)
  end.

End Contract.

(** ** SHA-256, the digest behind [crypto.subtle.digest('SHA-256', _)] *)

Module Sha256.

Definition mask32 (x : N) : N := x mod 4294967296.
Definition add32 (x y : N) : N := mask32 (x + y).
Definition rotr (n x : N) : N :=
  mask32 (N.lor (N.shiftr x n) (N.shiftl x (32 - n))).
Definition shr (n x : N) : N := N.shiftr x n.
Definition not32 (x : N) : N := N.lxor x 4294967295.
Definition Ch (x y z : N) : N := N.lxor (N.land x y) (N.land (not32 x) z).
Definition Maj (x y z : N) : N :=
  N.lxor (N.lxor (N.land x y) (N.land x z)) (N.land y z).
Definition Sigma0 (x : N) : N :=
  N.lxor (N.lxor (rotr 2 x) (rotr 13 x)) (rotr 22 x).
Definition Sigma1 (x : N) : N :=
  N.lxor (N.lxor (rotr 6 x) (rotr 11 x)) (rotr 25 x).
Definition sigma0 (x : N) : N :=
  N.lxor (N.lxor (rotr 7 x) (rotr 18 x)) (shr 3 x).
Definition sigma1 (x : N) : N :=
  N.lxor (N.lxor (rotr 17 x) (rotr 19 x)) (shr 10 x).

Definition K : list N :=
  [1116352408; 1899447441; 3049323471; 3921009573; 961987163; 1508970993;
   2453635748; 2870763221; 3624381080; 310598401; 607225278; 1426881987;
   1925078388; 2162078206; 2614888103; 3248222580; 3835390401; 4022224774;
   264347078; 604807628; 770255983; 1249150122; 1555081692; 1996064986;
   2554220882; 2821834349; 2952996808; 3210313671; 3336571891; 3584528711;
   113926993; 338241895; 666307205; 773529912; 1294757372; 1396182291;
   1695183700; 1986661051; 2177026350; 2456956037; 2730485921; 2820302411;
   3259730800; 3345764771; 3516065817; 3600352804; 4094571909; 275423344;
   430227734; 506948616; 659060556; 883997877; 958139571; 1322822218;
   1537002063; 1747873779; 1955562222; 2024104815; 2227730452; 2361852424;
   2428436474; 2756734187; 3204031479; 3329325298].

Definition H0 : list N :=
  [1779033703; 3144134277; 1013904242; 2773480762; 1359893119; 2600822924;
   528734635; 1541459225].

(** The [n] low bytes of [x], most significant first. *)
Fixpoint be_bytes (n : nat) (x : N) : list N :=
  match n with
  | O => []
  | S n' => (x / 256 ^ N.of_nat n') mod 256 :: be_bytes n' x
  end.

Definition be_value (bs : list N) : N :=
  fold_left (fun acc b => acc * 256 + b) bs 0.

Definition pad (msg : list N) : list N :=
  let len := length msg in
  let zeros := ((119 - len mod 64) mod 64)%nat in
  msg ++ [128] ++ repeat 0 zeros ++ be_bytes 8 (8 * N.of_nat len).

Fixpoint chunks {A} (fuel size : nat) (l : list A) : list (list A) :=
  match fuel with
  | O => []
  | S fuel' =>
      match l with
      | [] => []
      | _ => firstn size l :: chunks fuel' size (skipn size l)
      end
  end.

Definition words_of_block (block : list N) : list N :=
  map be_value (chunks 16 4 block).

Fixpoint schedule (n : nat) (w : list N) : list N :=
  match n with
  | O => w
  | S n' =>
      let t := length w in
      let back (i : nat) := nth (t - i)%nat w 0 in
      schedule n'
        (w ++ [add32 (add32 (sigma1 (back 2%nat)) (back 7%nat))
                     (add32 (sigma0 (back 15%nat)) (back 16%nat))])
  end.

Definition step (s : list N) (kw : N * N) : list N :=
  match s with
  | [a; b; c; d; e; f; g; h] =>
      let t1 :=
        add32 (add32 (add32 h (Sigma1 e)) (add32 (Ch e f g) (fst kw)))
              (snd kw) in
      let t2 := add32 (Sigma0 a) (Maj a b c) in
      [add32 t1 t2; a; b; c; add32 d t1; e; f; g]
  | _ => s
  end.

Definition compress (h : list N) (block : list N) : list N :=
  let w := schedule 48 (words_of_block block) in
  let s := fold_left step (combine K w) h in
  map (fun p => add32 (fst p) (snd p)) (combine h s).

Definition sha256 (msg : list N) : Bytes :=
  let p := pad msg in
  let blocks := chunks (length p) 64 p in
  flat_map (be_bytes 4) (fold_left compress blocks H0).

End Sha256.

(** ** Strings and buffers of the client runtime *)

Module JS.

Open Scope string_scope.

Definition dquote : ascii := ascii_of_nat 34.
Definition backslash : ascii := ascii_of_nat 92.

(** [new TextEncoder().encode(s)]: a string is held as its UTF-8 octets. *)
Definition encode (s : string) : Bytes :=
  map N_of_ascii (list_ascii_of_string s).

Definition hex_digit (d : N) : ascii :=
  match d with
  | 0%N => "0" | 1%N => "1" | 2%N => "2" | 3%N => "3" | 4%N => "4"
  | 5%N => "5" | 6%N => "6" | 7%N => "7" | 8%N => "8" | 9%N => "9"
  | 10%N => "a" | 11%N => "b" | 12%N => "c" | 13%N => "d" | 14%N => "e"
  | _ => "f"
  end%char.

Fixpoint toString16_digits (fuel : nat) (n : N) (acc : string) : string :=
  match fuel with
  | O => acc
  | S fuel' =>
      let acc' := String (hex_digit (n mod 16)) acc in
      if (n / 16 =? 0)%N then acc' else toString16_digits fuel' (n / 16) acc'
  end.

(** [n.toString(16)] for a natural number. *)
Definition toString16 (n : N) : string :=
  toString16_digits (S (N.to_nat (N.log2 n))) n "".

(** [n.toString()] for a safe integer: a natural number below 2^53, which
    JavaScript holds exactly and prints digit by digit.  (Larger numbers are
    rounded to a double, and printed with an exponent from 10^21 on.) *)
Definition toString10 (n : N) : string :=
  NilEmpty.string_of_uint (N.to_uint n).

Fixpoint replicate_char (n : nat) (c : ascii) : string :=
  match n with
  | O => ""
  | S n' => String c (replicate_char n' c)
  end.

(** [s.padStart(target, c)] with a one-character filler. *)
Definition padStart (target : nat) (c : ascii) (s : string) : string :=
  replicate_char (target - String.length s) c ++ s.

Definition startsWith (p s : string) : bool := String.prefix p s.

(** [s.slice(n)] for [0 <= n]. *)
Definition slice_from (n : nat) (s : string) : string :=
  String.substring n (String.length s - n) s.

(** [s.slice(a, b)] for [0 <= a <= b]. *)
Definition slice (a b : nat) (s : string) : string :=
  String.substring a (Nat.min b (String.length s) - a) s.

(** [s.includes(needle)] *)
Fixpoint includes (needle s : string) : bool :=
  String.prefix needle s ||
  match s with
  | EmptyString => false
  | String _ rest => includes needle rest
  end.

Definition hex_value (c : ascii) : option N :=
  let n := N_of_ascii c in
  if (48 <=? n)%N && (n <=? 57)%N then Some (n - 48)%N
  else if (97 <=? n)%N && (n <=? 102)%N then Some (n - 87)%N
  else if (65 <=? n)%N && (n <=? 70)%N then Some (n - 55)%N
  else None.

(** [Buffer.from(s, 'hex')]: pairs of hex digits, up to the first pair that
    is not one. *)
Fixpoint buffer_from_hex (s : string) : Bytes :=
  match s with
  | String a (String b rest) =>
      match hex_value a, hex_value b with
      | Some x, Some y => (16 * x + y)%N :: buffer_from_hex rest
      | _, _ => []
      end
  | _ => []
  end.

(** [parseInt(s, 16)] on digits, as stored into a [Uint8Array]: the value of
    the longest prefix of hex digits, [NaN] stored as 0. *)
Fixpoint parseInt16_from (acc : N) (s : string) : N :=
  match s with
  | String c rest =>
      match hex_value c with
      | Some d => parseInt16_from (16 * acc + d)%N rest
      | None => acc
      end
  | EmptyString => acc
  end.

Definition parseInt16_u8 (s : string) : N := (parseInt16_from 0 s mod 256)%N.

(** [bytes.map(b => b.toString(16).padStart(2, '0')).join('')] *)
Definition hex_of_bytes (bs : Bytes) : string :=
  String.concat "" (map (fun b => padStart 2 "0" (toString16 b)) bs).

(** *** [JSON.stringify] *)

Definition json_escape_char (c : ascii) : string :=
  let n := N_of_ascii c in
  if (n =? 34)%N then String backslash (String dquote "")
  else if (n =? 92)%N then String backslash (String backslash "")
  else if (n =? 8)%N then String backslash "b"
  else if (n =? 12)%N then String backslash "f"
  else if (n =? 10)%N then String backslash "n"
  else if (n =? 13)%N then String backslash "r"
  else if (n =? 9)%N then String backslash "t"
  else if (n <? 32)%N then
    String backslash ("u00" ++ padStart 2 "0" (toString16 n))
  else String c "".

Fixpoint json_escape (s : string) : string :=
  match s with
  | EmptyString => ""
  | String c rest => json_escape_char c ++ json_escape rest
  end.

Definition json_string (s : string) : string :=
  String dquote (json_escape s ++ String dquote "").

Definition json_numbers (l : list N) : string :=
  "[" ++ String.concat "," (map toString10 l) ++ "]".

Definition json_member (key value : string) : string :=
  json_string key ++ ":" ++ value.

Definition json_object (members : list string) : string :=
  "{" ++ String.concat "," members ++ "}".

End JS.

(** ** The client: deck utilities ([deckUtils.ts]) *)

Module Client.

Import JS.
Open Scope string_scope.

(** [shuffleDeck]: the Fisher-Yates pass over the two pairs, with the draws
    [Math.floor(Math.random() * (i + 1))] for [i = 3, 2, 1] given. *)
Definition swap (l : list N) (i j : nat) : list N :=
  match l !! i, l !! j with
  | Some x, Some y => <[j := x]> (<[i := y]> l)
  | _, _ => l
  end.

Fixpoint shuffle_from (i : nat) (draws : list nat) (deck : list N) : list N :=
  match i, draws with
  | S i', j :: draws' => shuffle_from i' draws' (swap deck i j)
  | _, _ => deck
  end.

Definition shuffleDeck (draws : list nat) : list N :=
  let deck := [0; 1; 0; 1]%N in
  shuffle_from (length deck - 1) draws deck.

Definition generateCommitment (deck : list N) (salt : string) : string :=
  let data :=
    json_object [json_member "deck" (json_numbers deck);
                 json_member "salt" (json_string salt)] in
  let dataBuffer := encode data in
  let hashBuffer := Sha256.sha256 dataBuffer in
  hex_of_bytes hashBuffer.

Record CommittedDeck : Type := mkCommittedDeck {
  cd_deck : list N;
  cd_salt : string;
  cd_commitment : string
}.

(** [createCommittedDeck], with the shuffle draws and the random UUID given. *)
Definition createCommittedDeck (draws : list nat) (uuid : string)
  : CommittedDeck :=
  let deck := shuffleDeck draws in
  let salt := uuid in
  mkCommittedDeck deck salt (generateCommitment deck salt).

Definition hexToBuffer (hex : string) : Bytes :=
  let cleanHex := if startsWith "0x" hex then slice_from 2 hex else hex in
  buffer_from_hex cleanHex.

Definition generateMockProof : Bytes := repeat 0%N 256.

(** 32 zero octets with the low 32 bits of [v] written big-endian at
    offset 28: what [DataView.setUint32(28, v, false)] leaves. *)
Definition u32_be_at_28 (v : N) : Bytes :=
  (repeat 0%N 28 ++ Sha256.be_bytes 4 v)%list.

(** [buf.writeUInt32BE(v, 28)] on [Buffer.alloc(32, 0)]: the buffer, or, for
    a value above 2^32 - 1, the [RangeError] thrown for that value ([inr]). *)
Definition writeUInt32BE_at_28 (v : N) : Bytes + N :=
  if (v <? 2 ^ 32)%N then inl (u32_be_at_28 v) else inr v.

Definition generateMockPublicInputs (position : N) (deckCommitment : string)
    (revealedValue : N) : list Bytes + N :=
  match writeUInt32BE_at_28 position with
  | inr v => inr v
  | inl positionBuffer =>
      let commitmentBuffer := hexToBuffer deckCommitment in
      match writeUInt32BE_at_28 revealedValue with
      | inr v => inr v
      | inl valueBuffer =>
          inl [positionBuffer; commitmentBuffer; valueBuffer]
      end
  end.

(** ** The client: proof generation ([noirProofGen.ts]) *)

(** The scalar field of BN254. *)
Definition BN254_FR : N :=
  21888242871839275222246405745257275088548364400416034343698204186575808495617.

(** A field element, as the backend hands public inputs back. *)
Record Fr : Type := mkFr {
  fr_val : N;
  fr_canonical : (fr_val <? BN254_FR)%N = true
}.

(** The backend prints a field element as [0x] and 64 hex digits. *)
Definition fr_to_hex (x : Fr) : string :=
  "0x" ++ hex_of_bytes (Sha256.be_bytes 32 (fr_val x)).

(** The inputs object passed to [noir.execute]. *)
Record CircuitInputs : Type := mkInputs {
  in_deck : list string;
  in_salt : string;
  in_position : N;
  in_revealed_value : string;
  in_commitment : string
}.

Record NoirProof : Type := mkNoirProof {
  np_proof : Bytes;
  np_publicInputs : list Bytes;
  np_commitment : string
}.

Section Noir.

(** The compiled circuit and its backend: [noir.execute] yields a witness or
    throws, [backend.generateProof] yields proof bytes and the public inputs or
    throws.  [None] stands for a throw. *)
Variable Witness : Type.
Variable execute : CircuitInputs -> option Witness.
Variable generateProof : Witness -> option (Bytes * list Fr).

Definition computePedersenCommitment (deck : list N) (saltField : string)
  : option string :=
  match deck !! 0%nat with
  | None => None
  | Some first =>
      let inputs :=
        {| in_deck := map toString10 deck;
           in_salt := saltField;
           in_position := 0;
           in_revealed_value := toString10 first;
           in_commitment := "0" |} in
      match execute inputs with
      | None => None
      | Some witness =>
          match generateProof witness with
          | None => None
          | Some (_, publicInputs) =>
              match publicInputs !! 2%nat with
              | Some commitmentField =>
                  let commitmentField := fr_to_hex commitmentField in
                  let commitmentHex :=
                    if startsWith "0x" commitmentField
                    then slice_from 2 commitmentField
                    else commitmentField in
                  let paddedHex := padStart 64 "0" commitmentHex in
                  Some paddedHex
              | None => None
              end
          end
      end
  end.

(** The salt as the circuit receives it: [0x] and the first 31 octets of the
    SHA-256 of the salt string. *)
Definition saltField_of (salt : string) : string :=
  let saltBytes := encode salt in
  let saltArray := Sha256.sha256 saltBytes in
  "0x" ++ hex_of_bytes (firstn 31 saltArray).

Definition generateNoirProof (deck : list N) (salt : string)
    (position revealedValue : N) : option NoirProof :=
  let saltField := saltField_of salt in
  match computePedersenCommitment deck saltField with
  | None => None
  | Some commitmentHex =>
      let commitmentField := "0x" ++ commitmentHex in
      let inputs :=
        {| in_deck := map toString10 deck;
           in_salt := saltField;
           in_position := position;
           in_revealed_value := toString10 revealedValue;
           in_commitment := commitmentField |} in
      match execute inputs with
      | None => None
      | Some witness =>
          match generateProof witness with
          | None => None
          | Some (proof, _) =>
              let positionBytes := u32_be_at_28 position in
              let valueBytes := u32_be_at_28 revealedValue in
              let commitmentBytes :=
                map (fun i => parseInt16_u8 (slice (i * 2) (i * 2 + 2) commitmentHex))
                    (seq 0 32) in
              Some {| np_proof := proof;
                      np_publicInputs :=
                        [positionBytes; commitmentBytes; valueBytes];
                      np_commitment := commitmentHex |}
          end
      end
  end.

End Noir.

End Client.

(** ** The game component ([ZkMemoryGame.tsx]): [handleCreateGame] and
       [handleFlipCard] *)

Module Component.

Import JS Client.
Open Scope string_scope.

(** The session as the bindings return it. *)
Abbreviation GameState := Contract.GameState.

(** A thrown value: an [Error] with its message, [null], or [undefined]. *)
Inductive Thrown : Type :=
| ErrorObj (message : string)
| NullValue
| UndefinedValue.

(** What the handlers call: the contract service, the wallet, the deck
    generator.  A call answers or rejects with a thrown value; the [n]-th
    [flipCard] and the [n]-th [getGame] answer as the functions say.  The last
    field is the message of the [RangeError] the runtime's [Buffer] throws for
    a value above 2^32 - 1. *)
Record World : Type := mkWorld {
  w_createCommittedDeck : CommittedDeck;
  w_getContractSigner : option Thrown;
  w_prepareStartGame :
    N -> Address -> Address -> Z -> Z -> Bytes -> string + Thrown;
  w_flipCard : nat -> option Thrown;
  w_getGame : nat -> option GameState + Thrown;
  w_rangeErrorMessage : N -> string
}.

(** What a handler does, in order: calls to the service, waits, and state
    setters of the component. *)
Inductive Event : Type :=
| CallPrepareStartGame (sessionId : N) (player1 player2 : Address)
    (p1Points p2Points : Z) (commitmentBuffer : Bytes)
| CallFlipCard (sessionId : N) (player : Address) (position : N)
    (revealedValue : option N) (proof : Bytes) (publicInputs : list Bytes)
| CallGetGame (sessionId : N)
| Wait (ms : N)
| SetDeck (deck : list N)
| SetSalt (salt : string)
| SetCommitment (commitment : string)
| SetExportedAuthEntryXDR (xdr : string)
| SetExportedDeckData (deckData : string)
| SetGameState (game : GameState)
| SetGamePhaseComplete
| SetSuccess (msg : option string)
| SetError (msg : option string)
| SetLoading (b : bool)
| SetActionLock (b : bool).

Record Run : Type := mkRun {
  flip_calls : nat;
  get_calls : nat;
  events : list Event
}.

Definition start : Run := mkRun 0 0 [].

(** The state of the component the handlers read. *)
Record Props : Type := mkProps {
  actionLock : bool;
  loading : bool;
  sessionId : N;
  userAddress : Address;
  gameState : option GameState;
  deck : list N;
  commitment : string;
  player1Address : Address;
  player2Address : Address;
  player1Points : string;
  player2Points : string
}.

Inductive result (A : Type) : Type :=
| Done (a : A)
| Throw (e : Thrown).

Arguments Done {A} a.
Arguments Throw {A} e.

Definition C (A : Type) : Type := Run -> Run * result A.

Definition ret {A} (a : A) : C A := fun r => (r, Done a).

Definition bind {A B} (m : C A) (k : A -> C B) : C B :=
  fun r =>
    match m r with
    | (r1, Done a) => k a r1
    | (r1, Throw e) => (r1, Throw e)
    end.

Notation "'do' x '<-' m ';' k" := (bind m (fun x => k))
  (at level 10, x pattern, m at level 100, k at level 200).

Notation "m '>>' k" := (bind m (fun _ => k))
  (at level 100, k at level 200, right associativity).

Definition throw {A} (e : Thrown) : C A := fun r => (r, Throw e).

(** [try { m } catch (err) { handler(err) }] *)
Definition try_catch {A} (m : C A) (handler : Thrown -> C A) : C A :=
  fun r =>
    match m r with
    | (r1, Done a) => (r1, Done a)
    | (r1, Throw e) => handler e r1
    end.

(** [try { m } finally { cleanup }] *)
Definition finally {A} (m : C A) (cleanup : C unit) : C A :=
  fun r =>
    match m r with
    | (r1, res) =>
        match cleanup r1 with
        | (r2, Done _) => (r2, res)
        | (r2, Throw e) => (r2, Throw e)
        end
    end.

Definition emit (e : Event) : C unit :=
  fun r => (mkRun (flip_calls r) (get_calls r) (events r ++ [e]), Done tt).

Definition when (c : bool) (m : C unit) : C unit := if c then m else ret tt.

Section Handlers.

Variable world : World.
Variable props : Props.

Definition getContractSigner : C unit :=
  match w_getContractSigner world with
  | None => ret tt
  | Some e => throw e
  end.

Definition getGame (sid : N) : C (option GameState) :=
  fun r =>
    let r' := mkRun (flip_calls r) (S (get_calls r))
                    (events r ++ [CallGetGame sid]) in
    match w_getGame world (get_calls r) with
    | inl g => (r', Done g)
    | inr e => (r', Throw e)
    end.

Definition flipCard (sid : N) (player : Address) (position : N)
    (revealedValue : option N) (proof : Bytes) (publicInputs : list Bytes)
  : C unit :=
  fun r =>
    let r' := mkRun (S (flip_calls r)) (get_calls r)
                (events r ++
                 [CallFlipCard sid player position revealedValue proof
                    publicInputs]) in
    match w_flipCard world (flip_calls r) with
    | None => (r', Done tt)
    | Some e => (r', Throw e)
    end.

Definition prepareStartGame (sid : N) (p1 p2 : Address) (p1Points p2Points : Z)
    (commitmentBuffer : Bytes) : C string :=
  emit (CallPrepareStartGame sid p1 p2 p1Points p2Points commitmentBuffer) >>
  match w_prepareStartGame world sid p1 p2 p1Points p2Points commitmentBuffer
  with
  | inl xdr => ret xdr
  | inr e => throw e
  end.

(** *** [parsePoints] *)

Definition POINTS_DECIMALS : nat := 7.

Definition is_digit (c : ascii) : bool :=
  let n := N_of_ascii c in (48 <=? n)%N && (n <=? 57)%N.

Fixpoint keep_digits_and_dots (s : string) : string :=
  match s with
  | EmptyString => ""
  | String c rest =>
      if is_digit c || Ascii.eqb c "." then String c (keep_digits_and_dots rest)
      else keep_digits_and_dots rest
  end.

(** The text before the first dot, and the text after it. *)
Fixpoint until_dot (s : string) : string * option string :=
  match s with
  | EmptyString => ("", None)
  | String c rest =>
      if Ascii.eqb c "." then ("", Some rest)
      else let '(a, b) := until_dot rest in (String c a, b)
  end.

Definition padEnd (target : nat) (c : ascii) (s : string) : string :=
  s ++ replicate_char (target - String.length s) c.

Fixpoint digits_value (acc : Z) (s : string) : Z :=
  match s with
  | EmptyString => acc
  | String c rest => digits_value (10 * acc + Z.of_N (N_of_ascii c - 48)) rest
  end.

Definition parsePoints (value : string) : option Z :=
  let cleaned := keep_digits_and_dots value in
  if String.eqb cleaned "" || String.eqb cleaned "." then None
  else
    let '(whole, after) := until_dot cleaned in
    let fraction :=
      match after with
      | None => ""
      | Some rest => fst (until_dot rest)
      end in
    let paddedFraction :=
      slice 0 POINTS_DECIMALS (padEnd POINTS_DECIMALS "0" fraction) in
    Some (digits_value 0 (whole ++ paddedFraction)).

(** [!p] for a parsed amount: [null] and [0n] are falsy. *)
Definition falsy_points (p : option Z) : bool :=
  match p with
  | None => true
  | Some z => (z =? 0)%Z
  end.

(** [err.message || fallback]; reading [message] of [null] or of
    [undefined] throws a [TypeError]. *)
Definition message_or (e : Thrown) (fallback : string) : C string :=
  match e with
  | ErrorObj m => ret (if String.eqb m "" then fallback else m)
  | NullValue =>
      throw (ErrorObj "Cannot read properties of null (reading 'message')")
  | UndefinedValue =>
      throw (ErrorObj
        "Cannot read properties of undefined (reading 'message')")
  end.

(** [JSON.stringify({ deck, salt, commitment })] *)
Definition stringify_deck_data (deck : list N) (salt commitment : string)
  : string :=
  json_object [json_member "deck" (json_numbers deck);
               json_member "salt" (json_string salt);
               json_member "commitment" (json_string commitment)].

(** *** [handleCreateGame] *)

Definition handleCreateGame : C unit :=
  if actionLock props || loading props then ret tt
  else
    emit (SetActionLock true) >>
    emit (SetLoading true) >>
    emit (SetError None) >>
    emit (SetSuccess None) >>
    finally
      (try_catch
         (let cd := w_createCommittedDeck world in
          let newDeck := cd_deck cd in
          let newSalt := cd_salt cd in
          let newCommitment := cd_commitment cd in
          emit (SetDeck newDeck) >>
          emit (SetSalt newSalt) >>
          emit (SetCommitment newCommitment) >>
          let p1Points := parsePoints (player1Points props) in
          let p2Points := parsePoints (player2Points props) in
          match p1Points, p2Points with
          | Some p1, Some p2 =>
              if falsy_points p1Points || falsy_points p2Points
              then throw (ErrorObj "Invalid points amount")
              else if String.eqb (player2Address props) ""
              then throw (ErrorObj "Player 2 address is required")
              else
                getContractSigner >>
                let commitmentBuffer := hexToBuffer newCommitment in
                do authEntryXDR <-
                  prepareStartGame (sessionId props) (player1Address props)
                    (player2Address props) p1 p2 commitmentBuffer;
                emit (SetExportedAuthEntryXDR authEntryXDR) >>
                let deckData :=
                  stringify_deck_data newDeck newSalt newCommitment in
                emit (SetExportedDeckData deckData) >>
                emit (SetSuccess (Some
                  "Game prepared! Player 1 (you) will go first. Share both the auth entry AND deck data with Player 2."))
          | _, _ => throw (ErrorObj "Invalid points amount")
          end)
         (fun err =>
            do msg <- message_or err "Failed to create game";
            emit (SetError (Some msg))))
      (emit (SetLoading false) >> emit (SetActionLock false)).

(** *** [handleFlipCard] *)

Definition winner_text (game : GameState) : string :=
  if (Contract.score2 game <? Contract.score1 game)%N then "Player 1"
  else if (Contract.score1 game <? Contract.score2 game)%N then "Player 2"
  else "Tie".

(** The refresh loop after a submission: [for (let i = 0; i < 3; i++)].  The
    comparison with [null] is read as a test for an empty option. *)
Fixpoint refresh (n : nat) (i : N) (game : option GameState)
  : C (option GameState) :=
  match n with
  | O => ret game
  | S n' =>
      do game <- getGame (sessionId props);
      match game with
      | Some g =>
          let was_pending :=
            match gameState props with
            | Some old => bool_decide (Contract.flip_one old <> None)
            | None => false
            end in
          if was_pending && bool_decide (Contract.flip_one g = None)
          then ret game
          else
            when (i <? 2)%N (emit (Wait 1000)) >>
            refresh n' (i + 1)%N game
      | None => refresh n' (i + 1)%N game
      end
  end.

(** One pass of the [try] block inside the retry loop. *)
Definition submit_once (position : N) (revealedValue : option N)
    (proof : Bytes) (publicInputs : list Bytes) : C unit :=
  flipCard (sessionId props) (userAddress props) position revealedValue
    proof publicInputs >>
  emit (SetSuccess (Some "Card flipped! Waiting for blockchain confirmation...")) >>
  emit (Wait 1500) >>
  do game <- refresh 3 0%N None;
  match game with
  | Some g =>
      emit (SetGameState g) >>
      if (Contract.pairs_found g =? 2)%N then
        emit SetGamePhaseComplete >>
        emit (SetSuccess (Some ("Game complete! Winner: " ++ winner_text g)))
      else
        emit (SetSuccess (Some ("Card flipped! " ++
          (if String.eqb (Contract.current_turn g) (userAddress props)
           then "Still your turn!" else "Opponent's turn now."))))
  | None => ret tt
  end.

Definition is_transient (errorMsg : string) : bool :=
  includes "TRY_AGAIN_LATER" errorMsg || includes "txBadSeq" errorMsg.

Definition is_not_your_turn (errorMsg : string) : bool :=
  includes "Error(Contract, #3)" errorMsg.

(** [while (retries > 0) { try { ... return } catch (err) { ... } }] and the
    [throw lastError] after it. *)
Fixpoint retry_loop (retries : nat) (lastError : Thrown) (position : N)
    (revealedValue : option N) (proof : Bytes) (publicInputs : list Bytes)
  : C unit :=
  match retries with
  | O => throw lastError
  | S retries' =>
      try_catch
        (submit_once position revealedValue proof publicInputs)
        (fun err =>
           do errorMsg <- message_or err "Error";
           if is_transient errorMsg && (1 <? N.of_nat retries)%N then
             (* retries--; *)
             emit (Wait (1000 * (4 - N.of_nat retries'))) >>
             retry_loop retries' err position revealedValue proof publicInputs
           else if is_not_your_turn errorMsg then
             do game <- getGame (sessionId props);
             match game with
             | Some g => emit (SetGameState g)
             | None => ret tt
             end >>
             throw (ErrorObj
               "Game state was stale. Please try again - it should be your turn now.")
           else throw err)
  end.

(** [deck[position]] is [undefined] where the deck has no such card;
    [writeUInt32BE] converts its argument with [+value] and writes 0 for it. *)
Definition handleFlipCard (position : N) : C unit :=
  if actionLock props || loading props then ret tt
  else
    match gameState props with
    | None => ret tt
    | Some gs =>
        if negb (String.eqb (Contract.current_turn gs) (userAddress props))
        then
          emit (SetError (Some ("Not your turn! Current turn: " ++
                                slice 0 8 (Contract.current_turn gs) ++ "...")))
        else
          match Contract.cards gs !! N.to_nat position with
          | None =>
              throw (ErrorObj
                "Cannot read properties of undefined (reading 'tag')")
          | Some card =>
              if Contract.CardState_eqb card Contract.Matched
              then emit (SetError (Some "Card already matched!"))
              else
                emit (SetActionLock true) >>
                emit (SetLoading true) >>
                emit (SetError None) >>
                finally
                  (try_catch
                     (let revealedValue := deck props !! N.to_nat position in
                      let proof := generateMockProof in
                      match
                        generateMockPublicInputs position (commitment props)
                          (default 0%N revealedValue)
                      with
                      | inr v =>
                          throw (ErrorObj (w_rangeErrorMessage world v))
                      | inl publicInputs =>
                          getContractSigner >>
                          retry_loop 3 NullValue position revealedValue proof
                            publicInputs
                      end)
                     (fun err =>
                        do errorMsg <- message_or err "Failed to flip card";
                        emit (SetError (Some
                          (if includes "TRY_AGAIN_LATER" errorMsg
                           then "Network is busy. Please try again in a moment."
                           else errorMsg)))))
                  (emit (SetLoading false) >> emit (SetActionLock false))
          end
    end.

End Handlers.

End Component.

(** ** The game component: [createRandomSessionId] and [renderCard] *)

Module ComponentView.

Import Component.

(** The loop [while (value === 0)]: the first draw the [Uint32Array] holds as
    a value other than 0; [None] when every draw given is 0. *)
Fixpoint first_nonzero_draw (draws : list N) : option N :=
  match draws with
  | [] => None
  | d :: rest =>
      let value := (d mod 2 ^ 32)%N in
      if (value =? 0)%N then first_nonzero_draw rest else Some value
  end.

(** [createRandomSessionId], given whether [crypto.getRandomValues] is there,
    the values it draws, and [Math.floor(Math.random() * 0xffffffff)]. *)
Definition createRandomSessionId (hasCrypto : bool) (draws : list N)
    (scaled : N) : option N :=
  if hasCrypto then first_nonzero_draw draws
  else
    let value := (scaled mod 2 ^ 32)%N in
    Some (if (value =? 0)%N then 1%N else value).

(** [renderCard]: [gameState?.flip_one === position] and the [disabled]
    attribute of the card's button. *)
Definition isFlipped (props : Props) (position : N) : bool :=
  match gameState props with
  | Some gs => bool_decide (Contract.flip_one gs = Some position)
  | None => false
  end.

Definition isDisabled (props : Props) (position : N)
    (card : Contract.CardState) : bool :=
  let isMatched := Contract.CardState_eqb card Contract.Matched in
  loading props || isMatched ||
  negb (match gameState props with
        | Some gs => String.eqb (Contract.current_turn gs) (userAddress props)
        | None => false
        end) ||
  isFlipped props position.

End ComponentView.

(** * Properties of the contract *)

Module ContractFacts.
Import Contract.

(** ** Stepping through a contract computation *)

Lemma bind_Ok {A B} (m : M A) (k : A -> M B) h h' b :
  bind m k h = (h', Ok b) ->
  exists h1 a, m h = (h1, Ok a) /\ k a h1 = (h', Ok b).
Proof.
  unfold bind. destruct (m h) as [h1 [a|t]]; intros E.
  - exists h1, a. split; [reflexivity | exact E].
  - discriminate.
Qed.

Lemma bind_Err {A B} (m : M A) (k : A -> M B) h h' t :
  bind m k h = (h', Err t) ->
  m h = (h', Err t) \/
  exists h1 a, m h = (h1, Ok a) /\ k a h1 = (h', Err t).
Proof.
  unfold bind. destruct (m h) as [h1 [a|t1]]; intros E.
  - right. exists h1, a. split; [reflexivity | exact E].
  - left. injection E as -> ->. reflexivity.
Qed.

(** A computation is pure when it never writes to the host. *)
Definition pure {A} (m : M A) : Prop := forall h h' r, m h = (h', r) -> h' = h.

Lemma pure_ret {A} (a : A) : pure (ret a).
Proof. intros h h' r E. unfold ret in E. congruence. Qed.

Lemma pure_panic {A} : pure (@panic A).
Proof. intros h h' r E. unfold panic in E. congruence. Qed.

Lemma pure_panic_with_error {A} e : pure (@panic_with_error A e).
Proof. intros h h' r E. unfold panic_with_error in E. congruence. Qed.

Lemma pure_bind {A B} (m : M A) (k : A -> M B) :
  pure m -> (forall a, pure (k a)) -> pure (bind m k).
Proof.
  intros Hm Hk h h' r E. unfold bind in E.
  destruct (m h) as [h1 [a|t]] eqn:Em.
  - apply Hm in Em. subst h1. eapply Hk. exact E.
  - apply Hm in Em. congruence.
Qed.

Lemma pure_unwrap {A} (o : option A) : pure (unwrap o).
Proof. destruct o; [apply pure_ret | apply pure_panic]. Qed.

Lemma pure_reject_if c e : pure (reject_if c e).
Proof. destruct c; [apply pure_panic_with_error | apply pure_ret]. Qed.

Lemma pure_vec_set {A} (v : list A) i x : pure (vec_set v i x).
Proof. unfold vec_set. destruct (i <? _); [apply pure_ret | apply pure_panic]. Qed.

Lemma pure_u32_incr x : pure (u32_incr x).
Proof. unfold u32_incr. destruct (_ <=? _); [apply pure_ret | apply pure_panic]. Qed.

Lemma pure_temporary_get sid : pure (temporary_get sid).
Proof. intros h h' r E. unfold temporary_get in E. congruence. Qed.

Lemma pure_instance_get_hub : pure instance_get_hub.
Proof. intros h h' r E. unfold instance_get_hub in E. congruence. Qed.

Lemma pure_verify V pr pis c : pure (verify_card_reveal_proof V pr pis c).
Proof. apply pure_reject_if. Qed.

Create HintDb pure_db.

#[local] Hint Resolve pure_ret pure_panic pure_panic_with_error pure_unwrap
  pure_reject_if pure_vec_set pure_u32_incr pure_temporary_get
  pure_instance_get_hub pure_verify : pure_db.

Ltac pure_tac :=
  repeat first
    [ apply pure_bind; [| intros ?]
    | solve [auto with pure_db]
    | match goal with
      | |- pure (if ?c then _ else _) => destruct c
      | |- pure (match ?o with Some _ => _ | None => _ end) => destruct o
      end ].

Lemma pure_apply_flip g pos val : pure (apply_flip g pos val).
Proof. unfold apply_flip. pure_tac. Qed.

(** The checks of [flip_card], up to and including the proof check. *)
Definition flip_checks (V : Verifier) (ctx : Ctx) (sid position : N)
    (proof : Bytes) (public_inputs : list Bytes) : M GameState :=
  let* stored := temporary_get sid in
  let* game := unwrap stored in
  reject_if (negb (is_active game)) GameNotActive ;;;
  reject_if (negb (String.eqb (invoker ctx) (current_turn game))) NotYourTurn ;;;
  reject_if (BOARD_SIZE <=? position) InvalidPosition ;;;
  let* card := unwrap (vec_get (cards game) position) in
  reject_if (CardState_eqb card Matched) CardAlreadyMatched ;;;
  verify_card_reveal_proof V proof public_inputs (deck_commitment game) ;;;
  ret game.

Lemma pure_flip_checks V ctx sid pos pr pis :
  pure (flip_checks V ctx sid pos pr pis).
Proof. unfold flip_checks. pure_tac. Qed.

(** [flip_card] is its checks, then the game logic, the completion check
    and the write. *)
Lemma flip_card_stages V ctx sid pos val pr pis h :
  flip_card V ctx sid pos val pr pis h =
  bind (flip_checks V ctx sid pos pr pis)
       (fun game =>
          let* game := apply_flip game pos val in
          let* game := finish_if_complete sid game in
          temporary_set sid game) h.
Proof.
  unfold flip_card, flip_checks, bind, ret.
  repeat match goal with
         | |- context [match ?m ?x with (_, _) => _ end] =>
             destruct (m x) as [? [?|?]]
         end; reflexivity.
Qed.

Lemma flip_checks_Ok V ctx sid pos pr pis h h' g :
  flip_checks V ctx sid pos pr pis h = (h', Ok g) ->
  h' = h /\
  temporary h !! sid = Some g /\
  is_active g = true /\
  invoker ctx = current_turn g /\
  pos < BOARD_SIZE /\
  vec_get (cards g) pos = Some FaceDown /\
  V pr pis (deck_commitment g) = true.
Proof.
  intros E. split; [eapply pure_flip_checks; exact E |].
  unfold flip_checks, bind, temporary_get, unwrap, reject_if,
    verify_card_reveal_proof, ret, panic, panic_with_error in E.
  destruct (temporary h !! sid) as [g0|] eqn:Eg; [| discriminate].
  destruct (is_active g0) eqn:Ea; simpl in E; [| discriminate].
  destruct (String.eqb (invoker ctx) (current_turn g0)) eqn:Et;
    simpl in E; [| discriminate].
  destruct (BOARD_SIZE <=? pos) eqn:Ep; simpl in E; [discriminate |].
  destruct (vec_get (cards g0) pos) as [c|] eqn:Ec; [| discriminate].
  destruct c; simpl in E; [| discriminate].
  destruct (V pr pis (deck_commitment g0)) eqn:Ev; simpl in E;
    [| discriminate].
  injection E as _ <-.
  apply String.eqb_eq in Et. apply N.leb_gt in Ep.
  repeat split; assumption.
Qed.

Lemma finish_if_complete_Ok sid g h h' g' :
  finish_if_complete sid g h = (h', Ok g') ->
  (pairs_found g = TOTAL_PAIRS /\ g' = set_inactive g /\
   h' = mkHost (contract_address h) (instance_admin h) (instance_hub h)
          (temporary h)
          (hub_calls h ++ [HubEndGame sid (score2 g <? score1 g)])) \/
  (pairs_found g <> TOTAL_PAIRS /\ g' = g /\ h' = h).
Proof.
  unfold finish_if_complete, bind, instance_get_hub, unwrap, hub_invoke,
    ret, panic.
  destruct (pairs_found g =? TOTAL_PAIRS) eqn:Ep.
  - apply N.eqb_eq in Ep. destruct (instance_hub h) eqn:Eh; [| discriminate].
    intros E. injection E as <- <-. left. rewrite Eh. repeat split; auto.
  - apply N.eqb_neq in Ep. intros E. injection E as <- <-. right.
    repeat split; auto.
Qed.

Lemma finish_if_complete_Err sid g h h' t :
  finish_if_complete sid g h = (h', Err t) -> h' = h.
Proof.
  unfold finish_if_complete, bind, instance_get_hub, unwrap, hub_invoke,
    ret, panic.
  destruct (pairs_found g =? TOTAL_PAIRS).
  - destruct (instance_hub h); [discriminate |]. congruence.
  - discriminate.
Qed.

(** An accepted flip, stage by stage. *)
Lemma flip_card_Ok V ctx sid pos val pr pis h h' :
  flip_card V ctx sid pos val pr pis h = (h', Ok tt) ->
  exists g g1 g2 h1,
    flip_checks V ctx sid pos pr pis h = (h, Ok g) /\
    apply_flip g pos val h = (h, Ok g1) /\
    finish_if_complete sid g1 h = (h1, Ok g2) /\
    h' = mkHost (contract_address h1) (instance_admin h1) (instance_hub h1)
           (<[sid := g2]> (temporary h1)) (hub_calls h1).
Proof.
  rewrite flip_card_stages. intros E.
  apply bind_Ok in E as (h0 & g & Ec & E).
  pose proof (pure_flip_checks _ _ _ _ _ _ _ _ _ Ec). subst h0.
  apply bind_Ok in E as (h0 & g1 & Ea & E).
  pose proof (pure_apply_flip _ _ _ _ _ _ Ea). subst h0.
  apply bind_Ok in E as (h1 & g2 & Ef & E).
  unfold temporary_set in E. injection E as <-.
  exists g, g1, g2, h1. auto.
Qed.

(** An aborted flip has written nothing: neither the session nor the hub has
    been touched at the point where it aborts. *)
Lemma flip_card_Err V ctx sid pos val pr pis h h' t :
  flip_card V ctx sid pos val pr pis h = (h', Err t) -> h' = h.
Proof.
  rewrite flip_card_stages. intros E.
  apply bind_Err in E as [E | (h0 & g & Ec & E)].
  { eapply pure_flip_checks; exact E. }
  pose proof (pure_flip_checks _ _ _ _ _ _ _ _ _ Ec). subst h0.
  apply bind_Err in E as [E | (h0 & g1 & Ea & E)].
  { eapply pure_apply_flip; exact E. }
  pose proof (pure_apply_flip _ _ _ _ _ _ Ea). subst h0.
  apply bind_Err in E as [E | (h1 & g2 & Ef & E)].
  { eapply finish_if_complete_Err; exact E. }
  unfold temporary_set in E. discriminate.
Qed.

(** ** The game logic, case by case *)

Lemma apply_flip_first g pos val h :
  flip_one g = None ->
  apply_flip g pos val h = (h, Ok (set_first_flip g pos val)).
Proof. intros E. unfold apply_flip. rewrite E. reflexivity. Qed.

(** The state a matching second flip produces. *)
Definition matched_state (g : GameState) (pos_a pos : N) : GameState :=
  clear_flips
    (set_match g (<[N.to_nat pos := Matched]> (<[N.to_nat pos_a := Matched]> (cards g)))
       (pairs_found g + 1)
       (if String.eqb (current_turn g) (player1 g) then score1 g + 1 else score1 g)
       (if String.eqb (current_turn g) (player1 g) then score2 g else score2 g + 1)).

(** The state a second flip that does not match produces. *)
Definition passed_state (g : GameState) : GameState :=
  clear_flips
    (set_current_turn g
       (if String.eqb (current_turn g) (player1 g) then player2 g else player1 g)).

Lemma apply_flip_second g pos val h h' g1 pos_a :
  flip_one g = Some pos_a ->
  apply_flip g pos val h = (h', Ok g1) ->
  exists val_a,
    flip_one_value g = Some val_a /\
    ((val_a = val /\ pos_a <> pos /\
      pos_a < N.of_nat (length (cards g)) /\
      pos < N.of_nat (length (cards g)) /\
      pairs_found g + 1 <= U32_MAX /\
      g1 = matched_state g pos_a pos) \/
     (~ (val_a = val /\ pos_a <> pos) /\ g1 = passed_state g)).
Proof.
  intros Ef E. unfold apply_flip in E. rewrite Ef in E.
  destruct (flip_one_value g) as [val_a|]; [| discriminate].
  exists val_a. split; [reflexivity |].
  unfold bind, unwrap, ret in E. simpl in E.
  destruct (val_a =? val) eqn:Ev; simpl in E.
  2:{ right. apply N.eqb_neq in Ev. injection E as _ <-.
      split; [tauto | reflexivity]. }
  apply N.eqb_eq in Ev.
  destruct (pos_a =? pos) eqn:Ep; simpl in E.
  { right. apply N.eqb_eq in Ep. injection E as _ <-.
    split; [tauto | reflexivity]. }
  apply N.eqb_neq in Ep. left.
  unfold vec_set, u32_incr, bind, ret, panic in E.
  destruct (pos_a <? N.of_nat (length (cards g))) eqn:El1; [| discriminate].
  rewrite length_insert in E.
  destruct (pos <? N.of_nat (length (cards g))) eqn:El2; [| discriminate].
  destruct (pairs_found g + 1 <=? U32_MAX) eqn:Eo; [| discriminate].
  apply N.ltb_lt in El1, El2. apply N.leb_le in Eo.
  unfold matched_state.
  destruct (String.eqb (current_turn g) (player1 g)).
  - destruct (score1 g + 1 <=? U32_MAX); [| discriminate].
    injection E as _ <-. repeat split; assumption.
  - destruct (score2 g + 1 <=? U32_MAX); [| discriminate].
    injection E as _ <-. repeat split; assumption.
Qed.

(** ** Session creation *)

(** The session [start_game] stores. *)
Definition created_game (sid : N) (p1 p2 : Address) (c : Bytes) : GameState :=
  {| session_id := sid; player1 := p1; player2 := p2; deck_commitment := c;
     cards := repeat FaceDown (N.to_nat BOARD_SIZE);
     score1 := 0; score2 := 0; current_turn := p1;
     flip_one := None; flip_one_value := None;
     pairs_found := 0; is_active := true |}.

Lemma start_game_Ok ctx sid p1 p2 pts1 pts2 c h h' r :
  start_game ctx sid p1 p2 pts1 pts2 c h = (h', Ok r) ->
  r = sid /\
  existsb (String.eqb p1) (authorized ctx) = true /\
  existsb (String.eqb p2) (authorized ctx) = true /\
  h' = mkHost (contract_address h) (instance_admin h) (instance_hub h)
         (<[sid := created_game sid p1 p2 c]> (temporary h))
         (hub_calls h ++
            [HubStartGame (contract_address h) sid p1 p2 pts1 pts2]).
Proof.
  unfold start_game, require_auth, bind, ret, panic, instance_get_hub, unwrap,
    current_contract_address, hub_invoke, temporary_set.
  destruct (existsb (String.eqb p1) (authorized ctx)); [| discriminate].
  destruct (existsb (String.eqb p2) (authorized ctx)); [| discriminate].
  destruct (instance_hub h) eqn:Eh; [| discriminate].
  simpl. intros E. injection E as <- <-. rewrite Eh. repeat split.
Qed.

(** ** Reachable hosts *)

(** The host right after deployment: the constructor has run, no session
    exists, the hub has not been called. *)
Definition deployed (self admin game_hub : Address) : Host :=
  fst (__constructor admin game_hub (mkHost self None None ∅ [])).

(** Hosts reachable from deployment by invocations of [start_game] and
    [flip_card] that return.  Aborted invocations leave no trace. *)
Inductive reachable (V : Verifier) : Host -> Prop :=
| reach_deployed self admin game_hub :
    reachable V (deployed self admin game_hub)
| reach_start h ctx sid p1 p2 pts1 pts2 c h' r :
    reachable V h ->
    start_game ctx sid p1 p2 pts1 pts2 c h = (h', Ok r) ->
    reachable V h'
| reach_flip h ctx sid pos val pr pis h' :
    reachable V h ->
    flip_card V ctx sid pos val pr pis h = (h', Ok tt) ->
    reachable V h'.

(** What holds of every stored session. *)
Record game_inv (g : GameState) : Prop := mkInv {
  inv_scores : score1 g + score2 g = pairs_found g;
  inv_slot : flip_one g = None <-> flip_one_value g = None;
  inv_board : length (cards g) = N.to_nat BOARD_SIZE;
  inv_active : is_active g = true -> pairs_found g < TOTAL_PAIRS;
  inv_done : is_active g = false -> pairs_found g = TOTAL_PAIRS;
  inv_turn : current_turn g = player1 g \/ current_turn g = player2 g;
  inv_pending_down :
    forall p, flip_one g = Some p -> vec_get (cards g) p = Some FaceDown
}.

Lemma created_game_inv sid p1 p2 c : game_inv (created_game sid p1 p2 c).
Proof.
  constructor; simpl; try tauto; try discriminate.
  intros _. unfold TOTAL_PAIRS. lia.
Qed.

Lemma finish_if_complete_inv sid g h h' g' :
  finish_if_complete sid g h = (h', Ok g') ->
  score1 g + score2 g = pairs_found g ->
  (flip_one g = None <-> flip_one_value g = None) ->
  length (cards g) = N.to_nat BOARD_SIZE ->
  pairs_found g <= TOTAL_PAIRS ->
  is_active g = true ->
  (current_turn g = player1 g \/ current_turn g = player2 g) ->
  (forall p, flip_one g = Some p -> vec_get (cards g) p = Some FaceDown) ->
  game_inv g'.
Proof.
  intros E Hs Hf Hb Hp Ha Ht Hd.
  apply finish_if_complete_Ok in E as [(Ep & -> & _) | (Ep & -> & _)].
  - constructor; simpl; try assumption; [discriminate | auto].
  - constructor; try assumption.
    + intros _. lia.
    + congruence.
Qed.

Lemma flip_preserves_inv V ctx sid pos val pr pis h g g1 h1 g2 :
  game_inv g ->
  flip_checks V ctx sid pos pr pis h = (h, Ok g) ->
  apply_flip g pos val h = (h, Ok g1) ->
  finish_if_complete sid g1 h = (h1, Ok g2) ->
  game_inv g2.
Proof.
  intros [Hs Hf Hb Ha Hd Ht Hp] Ec Eap Ef.
  apply flip_checks_Ok in Ec as (_ & _ & Eact & _ & _ & Edown & _).
  specialize (Ha Eact).
  destruct (flip_one g) as [pos_a|] eqn:Efl.
  - destruct (apply_flip_second _ _ _ _ _ _ _ Efl Eap)
      as (val_a & Eva & [(_ & _ & _ & _ & _ & ->) | (_ & ->)]).
    + eapply finish_if_complete_inv; [exact Ef | simpl ..].
      * destruct (String.eqb (current_turn g) (player1 g)); lia.
      * tauto.
      * rewrite !length_insert. exact Hb.
      * lia.
      * exact Eact.
      * exact Ht.
      * discriminate.
    + eapply finish_if_complete_inv; [exact Ef | simpl ..].
      * exact Hs.
      * tauto.
      * exact Hb.
      * lia.
      * exact Eact.
      * destruct (String.eqb (current_turn g) (player1 g)); auto.
      * discriminate.
  - rewrite (apply_flip_first _ _ _ _ Efl) in Eap. injection Eap as <-.
    eapply finish_if_complete_inv; [exact Ef | simpl ..].
    + exact Hs.
    + split; discriminate.
    + exact Hb.
    + lia.
    + exact Eact.
    + exact Ht.
    + intros p [= <-]. exact Edown.
Qed.

Lemma finish_if_complete_temporary sid g h h' g' :
  finish_if_complete sid g h = (h', Ok g') -> temporary h' = temporary h.
Proof.
  intros E.
  apply finish_if_complete_Ok in E as [(_ & _ & ->) | (_ & _ & ->)];
    reflexivity.
Qed.

Lemma reachable_inv V h :
  reachable V h ->
  forall sid g, temporary h !! sid = Some g -> game_inv g.
Proof.
  induction 1 as [self admin hub
                 | h ctx sid0 p1 p2 pts1 pts2 c h' r Hr IH E
                 | h ctx sid0 pos val pr pis h' Hr IH E];
    intros sid g Hg.
  - simpl in Hg. rewrite lookup_empty in Hg. discriminate.
  - apply start_game_Ok in E as (_ & _ & _ & ->). simpl in Hg.
    destruct (decide (sid0 = sid)) as [<- | Hne].
    + rewrite lookup_insert_eq in Hg. injection Hg as <-.
      apply created_game_inv.
    + rewrite lookup_insert_ne in Hg by exact Hne. eapply IH; exact Hg.
  - apply flip_card_Ok in E as (g0 & g1 & g2 & h1 & Ec & Ea & Ef & ->).
    simpl in Hg.
    rewrite (finish_if_complete_temporary _ _ _ _ _ Ef) in Hg.
    destruct (decide (sid0 = sid)) as [<- | Hne].
    + rewrite lookup_insert_eq in Hg. injection Hg as <-.
      eapply flip_preserves_inv; [| exact Ec | exact Ea | exact Ef].
      apply flip_checks_Ok in Ec as (_ & Eg & _). eapply IH; exact Eg.
    + rewrite lookup_insert_ne in Hg by exact Hne. eapply IH; exact Hg.
Qed.

(** The only contract errors of the game logic and of the completion check are
    plain panics. *)
Lemma apply_flip_Err g pos val h h' t :
  apply_flip g pos val h = (h', Err t) -> t = HostPanic.
Proof.
  unfold apply_flip, bind, unwrap, vec_set, u32_incr, ret, panic.
  repeat match goal with
         | |- context [match ?o with Some _ => _ | None => _ end] => destruct o
         | |- context [if ?c then _ else _] => destruct c
         end; simpl; congruence.
Qed.

Lemma finish_if_complete_Err_panic sid g h h' t :
  finish_if_complete sid g h = (h', Err t) -> t = HostPanic.
Proof.
  unfold finish_if_complete, bind, instance_get_hub, unwrap, hub_invoke,
    ret, panic.
  destruct (pairs_found g =? TOTAL_PAIRS); [| discriminate].
  destruct (instance_hub h); [discriminate | congruence].
Qed.

Lemma flip_checks_InvalidProof V ctx sid pos pr pis h h' :
  flip_checks V ctx sid pos pr pis h = (h', Err (ContractError InvalidProof)) ->
  exists g, temporary h !! sid = Some g /\ V pr pis (deck_commitment g) = false.
Proof.
  unfold flip_checks, bind, temporary_get, unwrap, reject_if,
    verify_card_reveal_proof, ret, panic, panic_with_error.
  destruct (temporary h !! sid) as [g|]; [| discriminate].
  destruct (is_active g); simpl; [| discriminate].
  destruct (String.eqb (invoker ctx) (current_turn g)); simpl; [| discriminate].
  destruct (BOARD_SIZE <=? pos); simpl; [discriminate |].
  destruct (vec_get (cards g) pos) as [[|]|]; simpl; try discriminate.
  destruct (V pr pis (deck_commitment g)) eqn:Ev; simpl; [discriminate |].
  intros _. exists g. auto.
Qed.

Lemma flip_card_InvalidProof V ctx sid pos val pr pis h h' :
  flip_card V ctx sid pos val pr pis h = (h', Err (ContractError InvalidProof)) ->
  exists g, temporary h !! sid = Some g /\ V pr pis (deck_commitment g) = false.
Proof.
  rewrite flip_card_stages. intros E.
  apply bind_Err in E as [E | (h0 & g & Ec & E)].
  { eapply flip_checks_InvalidProof; exact E. }
  apply bind_Err in E as [E | (h1 & g1 & Ea & E)].
  { apply apply_flip_Err in E. discriminate. }
  apply bind_Err in E as [E | (h2 & g2 & Ef & E)].
  { apply finish_if_complete_Err_panic in E. discriminate. }
  unfold temporary_set in E. discriminate.
Qed.

(** ** Sample sessions *)

Definition alice : Address := "GALICE".
Definition bob : Address := "GBOB".

Definition host0 : Host := deployed "CZKMEMORY" "GADMIN" "CGAMEHUB".

Definition commitment0 : Bytes := repeat 7 32.

Definition start_tx (sid : N) (p1 p2 : Address) (c : Bytes) (h : Host) : Host :=
  fst (commit (start_game (mkCtx p1 [p1; p2]) sid p1 p2 10%Z 10%Z c) h).

Definition flip_tx (V : Verifier) (who : Address) (sid pos val : N)
    (pis : list Bytes) (h : Host) : Host :=
  fst (commit (flip_card V (mkCtx who [who]) sid pos val (repeat 0 128) pis) h).

(** A sequence of flips [(who, position, value)] on session [sid]. *)
Definition play (V : Verifier) (sid : N) (moves : list (Address * N * N))
    (h : Host) : Host :=
  fold_left (fun h '(who, pos, val) => flip_tx V who sid pos val [] h) moves h.

Lemma start_tx_reachable V sid p1 p2 c h :
  reachable V h -> reachable V (start_tx sid p1 p2 c h).
Proof.
  intros Hr. unfold start_tx, commit.
  destruct (start_game _ sid p1 p2 10%Z 10%Z c h) as [h' [r|t]] eqn:E; simpl.
  - eapply reach_start; [exact Hr | exact E].
  - exact Hr.
Qed.

Lemma flip_tx_reachable V who sid pos val pis h :
  reachable V h -> reachable V (flip_tx V who sid pos val pis h).
Proof.
  intros Hr. unfold flip_tx, commit.
  destruct (flip_card V _ sid pos val _ pis h) as [h' [[]|t]] eqn:E; simpl.
  - eapply reach_flip; [exact Hr | exact E].
  - exact Hr.
Qed.

Lemma play_reachable V sid moves h :
  reachable V h -> reachable V (play V sid moves h).
Proof.
  revert h. induction moves as [|[[who pos] val] moves IH]; intros h Hr.
  - exact Hr.
  - simpl. apply IH. apply flip_tx_reachable. exact Hr.
Qed.

(** Session 1 between alice and bob, then alice turns positions 1 and 3, both
    showing the value 1. *)
Definition hostA0 : Host := start_tx 1 alice bob commitment0 host0.
Definition hostA1 : Host := play placeholder 1 [(alice, 1, 1)] hostA0.
Definition hostA2 : Host := play placeholder 1 [(alice, 1, 1); (alice, 3, 1)] hostA0.

Lemma hostA0_reachable : reachable placeholder hostA0.
Proof. apply start_tx_reachable. apply reach_deployed. Qed.

Lemma hostA1_reachable : reachable placeholder hostA1.
Proof. apply play_reachable. apply hostA0_reachable. Qed.

Lemma hostA2_reachable : reachable placeholder hostA2.
Proof. apply play_reachable. apply hostA0_reachable. Qed.

Example hostA2_session :
  get_game 1 hostA2 =
  (hostA2,
   Ok {| session_id := 1; player1 := alice; player2 := bob;
         deck_commitment := commitment0;
         cards := [FaceDown; Matched; FaceDown; Matched] ++ repeat FaceDown 12;
         score1 := 1; score2 := 0; current_turn := alice;
         flip_one := None; flip_one_value := None;
         pairs_found := 1; is_active := true |}).
Proof. vm_compute. reflexivity. Qed.

(** ** The proof check (C1) *)

Definition other_commitment : Bytes := repeat 9 32.

(** Public inputs [position, deck_commitment, revealed_value] for position 1
    and value 1, built against another session's commitment. *)
Definition foreign_inputs : list Bytes :=
  [repeat 0 31 ++ [1]; other_commitment; repeat 0 31 ++ [1]].

(** C1, counterexample.  A flip whose public inputs carry a commitment other
    than the one stored in the session is accepted. *)
Lemma foreign_commitment_accepted :
  exists g h',
    temporary hostA0 !! 1 = Some g /\
    foreign_inputs !! 1%nat = Some other_commitment /\
    other_commitment <> deck_commitment g /\
    flip_card placeholder (mkCtx alice [alice]) 1 1 1 (repeat 0 128)
      foreign_inputs hostA0 = (h', Ok tt).
Proof.
  eexists. eexists. split; [vm_compute; reflexivity |].
  split; [reflexivity |]. split; [vm_compute; discriminate |].
  vm_compute. reflexivity.
Qed.

(** C1, as the code has it.  The proof check in the source is the placeholder:
    it accepts every (proof, public inputs, commitment) triple, so
    [verify_card_reveal_proof] returns for every input, the result of a flip
    does not depend on the proof or on the public inputs, and no flip is ever
    rejected with [InvalidProof]. *)
Theorem placeholder_accepts_every_proof :
  (forall pr pis c, placeholder pr pis c = true) /\
  (forall pr pis c h,
     verify_card_reveal_proof placeholder pr pis c h = (h, Ok tt)) /\
  (forall ctx sid pos val pr pis pr' pis' h,
     flip_card placeholder ctx sid pos val pr pis h =
     flip_card placeholder ctx sid pos val pr' pis' h) /\
  (forall ctx sid pos val pr pis h h',
     flip_card placeholder ctx sid pos val pr pis h <>
     (h', Err (ContractError InvalidProof))).
Proof.
  repeat split.
  intros ctx sid pos val pr pis h h' E.
  apply flip_card_InvalidProof in E as (g & _ & E). discriminate.
Qed.

(** ** Scores and pairs (C2) *)

(** C2, counterexample.  After alice's match in session 1 the scores add up to
    1 while twice the number of pairs found is 2. *)
Lemma score_sum_is_not_twice_pairs :
  exists g,
    reachable placeholder hostA2 /\
    temporary hostA2 !! 1 = Some g /\
    score1 g + score2 g <> 2 * pairs_found g.
Proof.
  eexists. split; [apply hostA2_reachable |].
  split; [vm_compute; reflexivity |]. vm_compute. discriminate.
Qed.

(** C2, as the code has it.  In every host reachable from deployment by
    accepted [start_game] and [flip_card] invocations, every stored session
    satisfies [score1 + score2 = pairs_found]: a match adds one pair and one
    point. *)
Theorem score_sum_is_pairs_found V h sid g :
  reachable V h ->
  temporary h !! sid = Some g ->
  score1 g + score2 g = pairs_found g.
Proof. intros Hr Hg. apply (reachable_inv V h Hr sid g Hg). Qed.

Lemma score_sum_is_pairs_found_witness :
  exists g,
    temporary hostA2 !! 1 = Some g /\
    pairs_found g = 1 /\
    score1 g + score2 g = pairs_found g.
Proof.
  eexists. split; [vm_compute; reflexivity |]. split; [reflexivity |].
  apply (score_sum_is_pairs_found placeholder hostA2 1).
  - apply hostA2_reachable.
  - vm_compute. reflexivity.
Defined.

(** ** The second flip of a turn (C3) *)

Lemma stored_after_flip V ctx sid pos val pr pis h h' :
  flip_card V ctx sid pos val pr pis h = (h', Ok tt) ->
  exists g g1 g2,
    temporary h !! sid = Some g /\
    is_active g = true /\
    invoker ctx = current_turn g /\
    apply_flip g pos val h = (h, Ok g1) /\
    ((pairs_found g1 = TOTAL_PAIRS /\ g2 = set_inactive g1 /\
      hub_calls h' =
        hub_calls h ++ [HubEndGame sid (score2 g1 <? score1 g1)]) \/
     (pairs_found g1 <> TOTAL_PAIRS /\ g2 = g1 /\
      hub_calls h' = hub_calls h)) /\
    temporary h' = <[sid := g2]> (temporary h).
Proof.
  intros E.
  apply flip_card_Ok in E as (g & g1 & g2 & h1 & Ec & Ea & Ef & ->).
  apply flip_checks_Ok in Ec as (_ & Eg & Eact & Einv & _).
  exists g, g1, g2. repeat (split; [assumption |]).
  apply finish_if_complete_Ok in Ef as [(Ep & -> & ->) | (Ep & -> & ->)];
    simpl; split; auto.
Qed.

(** C3.  An accepted flip made while a first flip [(posA, valA)] is pending:
    when [valA] is the submitted value and [posA] is not the submitted
    position, both positions become [Matched] (no other card changes),
    [pairs_found] and the score of the player to move grow by one and the turn
    stays; otherwise cards, scores and [pairs_found] stay and the turn goes to
    the other player.  Both ways the pending flip is cleared. *)
Theorem second_flip_resolves_turn V ctx sid pos val pr pis h h' g posA valA :
  temporary h !! sid = Some g ->
  flip_one g = Some posA ->
  flip_one_value g = Some valA ->
  flip_card V ctx sid pos val pr pis h = (h', Ok tt) ->
  exists g',
    temporary h' !! sid = Some g' /\
    flip_one g' = None /\ flip_one_value g' = None /\
    (valA = val /\ posA <> pos ->
       vec_get (cards g') posA = Some Matched /\
       vec_get (cards g') pos = Some Matched /\
       (forall i, i <> posA -> i <> pos ->
                  vec_get (cards g') i = vec_get (cards g) i) /\
       pairs_found g' = pairs_found g + 1 /\
       (current_turn g = player1 g ->
          score1 g' = score1 g + 1 /\ score2 g' = score2 g) /\
       (current_turn g <> player1 g ->
          score2 g' = score2 g + 1 /\ score1 g' = score1 g) /\
       current_turn g' = current_turn g) /\
    (~ (valA = val /\ posA <> pos) ->
       cards g' = cards g /\
       score1 g' = score1 g /\ score2 g' = score2 g /\
       pairs_found g' = pairs_found g /\
       (current_turn g = player1 g -> current_turn g' = player2 g) /\
       (current_turn g <> player1 g -> current_turn g' = player1 g)).
Proof.
  intros Hg Hp Hv E.
  apply stored_after_flip in E as (g0 & g1 & g2 & Hg0 & _ & _ & Ea & Hfin & Ht).
  rewrite Hg in Hg0. injection Hg0 as <-.
  destruct (apply_flip_second _ _ _ _ _ _ _ Hp Ea) as (va & Hva & Hcase).
  rewrite Hv in Hva. injection Hva as <-.
  exists g2. split; [rewrite Ht; apply lookup_insert_eq |].
  assert (Hsame : flip_one g2 = flip_one g1 /\
                  flip_one_value g2 = flip_one_value g1 /\
                  cards g2 = cards g1 /\ score1 g2 = score1 g1 /\
                  score2 g2 = score2 g1 /\ pairs_found g2 = pairs_found g1 /\
                  current_turn g2 = current_turn g1).
  { destruct Hfin as [(_ & -> & _) | (_ & -> & _)]; repeat split. }
  destruct Hsame as (-> & -> & -> & -> & -> & -> & ->).
  destruct Hcase as [(Ev & Ep & La & Lp & _ & ->) | (Hn & ->)]; simpl.
  - split; [reflexivity |]. split; [reflexivity |]. split; [| tauto].
    intros _. unfold vec_get.
    assert (N.to_nat posA <> N.to_nat pos) by lia.
    split.
    { rewrite list_lookup_insert_ne by auto.
      apply list_lookup_insert_eq. lia. }
    split.
    { apply list_lookup_insert_eq. rewrite length_insert. lia. }
    split.
    { intros i Hia Hip. rewrite !list_lookup_insert_ne by lia. reflexivity. }
    split; [reflexivity |].
    split; [| split].
    + intros Et. apply String.eqb_eq in Et. rewrite Et. auto.
    + intros Et. apply String.eqb_neq in Et. rewrite Et. auto.
    + reflexivity.
  - split; [reflexivity |]. split; [reflexivity |]. split; [tauto |].
    intros _. repeat (split; [reflexivity |]). split.
    + intros Et. apply String.eqb_eq in Et. rewrite Et. reflexivity.
    + intros Et. apply String.eqb_neq in Et. rewrite Et. reflexivity.
Qed.

Lemma second_flip_resolves_turn_witness :
  exists g g',
    temporary hostA1 !! 1 = Some g /\
    flip_one g = Some 1 /\ flip_one_value g = Some 1 /\
    temporary hostA2 !! 1 = Some g' /\
    flip_one g' = None /\ flip_one_value g' = None /\
    vec_get (cards g') 1 = Some Matched /\
    vec_get (cards g') 3 = Some Matched /\
    pairs_found g' = pairs_found g + 1 /\
    score1 g' = score1 g + 1 /\
    current_turn g' = current_turn g.
Proof.
  destruct
    (second_flip_resolves_turn placeholder (mkCtx alice [alice]) 1 3 1
       (repeat 0 128) [] hostA1 hostA2
       (set_first_flip (created_game 1 alice bob commitment0) 1 1) 1 1)
    as (g' & Hg' & Hf1 & Hf2 & Hmatch & _).
  - vm_compute. reflexivity.
  - reflexivity.
  - reflexivity.
  - vm_compute. reflexivity.
  - destruct Hmatch as (H1 & H3 & _ & Hpf & Hs1 & _ & Ht).
    { split; [reflexivity | discriminate]. }
    eexists. exists g'.
    split; [vm_compute; reflexivity |].
    split; [reflexivity |]. split; [reflexivity |].
    split; [exact Hg' |]. split; [exact Hf1 |]. split; [exact Hf2 |].
    split; [exact H1 |]. split; [exact H3 |]. split; [exact Hpf |].
    split; [apply Hs1; reflexivity | exact Ht].
Defined.

(** ** Rejections (C4) *)

(** C4.  With the session stored: a flip on a terminal session is rejected
    with [GameNotActive]; else one by a caller other than [current_turn] with
    [NotYourTurn]; else one at a position of 16 or more with
    [InvalidPosition]; else one at a [Matched] card with [CardAlreadyMatched];
    else one whose proof the verifier rejects with [InvalidProof].  The host
    returned with each of these errors, and with any abort at all, is the host
    the flip started from: no write precedes the last check. *)
Theorem flip_rejections_leave_state V ctx sid pos val pr pis h g :
  temporary h !! sid = Some g ->
  (is_active g = false ->
   flip_card V ctx sid pos val pr pis h =
     (h, Err (ContractError GameNotActive))) /\
  (is_active g = true -> invoker ctx <> current_turn g ->
   flip_card V ctx sid pos val pr pis h =
     (h, Err (ContractError NotYourTurn))) /\
  (is_active g = true -> invoker ctx = current_turn g ->
   BOARD_SIZE <= pos ->
   flip_card V ctx sid pos val pr pis h =
     (h, Err (ContractError InvalidPosition))) /\
  (is_active g = true -> invoker ctx = current_turn g ->
   pos < BOARD_SIZE -> vec_get (cards g) pos = Some Matched ->
   flip_card V ctx sid pos val pr pis h =
     (h, Err (ContractError CardAlreadyMatched))) /\
  (is_active g = true -> invoker ctx = current_turn g ->
   pos < BOARD_SIZE -> vec_get (cards g) pos = Some FaceDown ->
   V pr pis (deck_commitment g) = false ->
   flip_card V ctx sid pos val pr pis h =
     (h, Err (ContractError InvalidProof))) /\
  (forall h' t,
     flip_card V ctx sid pos val pr pis h = (h', Err t) ->
     h' = h /\ commit (flip_card V ctx sid pos val pr pis) h = (h, Err t)).
Proof.
  intros Hg.
  assert (Hstart : forall k : GameState -> M unit,
             bind (temporary_get sid) (fun stored => bind (unwrap stored) k) h
             = k g h).
  { intros k. unfold bind, temporary_get, unwrap, ret. rewrite Hg.
    reflexivity. }
  assert (Hlast : forall h' t,
     flip_card V ctx sid pos val pr pis h = (h', Err t) ->
     h' = h /\ commit (flip_card V ctx sid pos val pr pis) h = (h, Err t)).
  { intros h' t E.
    pose proof (flip_card_Err _ _ _ _ _ _ _ _ _ _ E) as ->.
    split; [reflexivity |]. unfold commit. rewrite E. reflexivity. }
  refine (conj _ (conj _ (conj _ (conj _ (conj _ Hlast)))));
    unfold flip_card; rewrite Hstart;
    unfold bind, reject_if, verify_card_reveal_proof, unwrap, ret,
      panic_with_error.
  - intros ->. reflexivity.
  - intros -> Ht. apply String.eqb_neq in Ht. rewrite Ht. reflexivity.
  - intros -> Ht Hp. apply String.eqb_eq in Ht. apply N.leb_le in Hp.
    rewrite Ht, Hp. reflexivity.
  - intros -> Ht Hp Hc. apply String.eqb_eq in Ht. apply N.leb_gt in Hp.
    rewrite Ht, Hp, Hc. reflexivity.
  - intros -> Ht Hp Hc Hv. apply String.eqb_eq in Ht. apply N.leb_gt in Hp.
    rewrite Ht, Hp, Hc, Hv. reflexivity.
Qed.

(** A verifier that compares the commitment among the public inputs with the
    session's, for exercising the [InvalidProof] path. *)
Definition cross_checking : Verifier :=
  fun _ pis c =>
    match pis !! 1%nat with
    | Some c' => bool_decide (c' = c)
    | None => false
    end.

Lemma flip_rejections_leave_state_witness :
  temporary hostA2 !! 1 =
    Some (matched_state (set_first_flip (created_game 1 alice bob commitment0) 1 1) 1 3) /\
  flip_card placeholder (mkCtx alice [alice]) 1 3 1 [] [] hostA2 =
    (hostA2, Err (ContractError CardAlreadyMatched)) /\
  flip_card placeholder (mkCtx bob [bob]) 1 0 0 [] [] hostA2 =
    (hostA2, Err (ContractError NotYourTurn)) /\
  flip_card placeholder (mkCtx alice [alice]) 1 16 0 [] [] hostA2 =
    (hostA2, Err (ContractError InvalidPosition)) /\
  flip_card cross_checking (mkCtx alice [alice]) 1 0 0 [] foreign_inputs hostA2 =
    (hostA2, Err (ContractError InvalidProof)).
Proof.
  assert (Hg : temporary hostA2 !! 1 =
    Some (matched_state (set_first_flip (created_game 1 alice bob commitment0) 1 1) 1 3)).
  { vm_compute. reflexivity. }
  split; [exact Hg |].
  split.
  { apply (flip_rejections_leave_state placeholder (mkCtx alice [alice]) 1 3 1
             [] [] hostA2 _ Hg); [reflexivity .. ]. }
  split.
  { apply (flip_rejections_leave_state placeholder (mkCtx bob [bob]) 1 0 0
             [] [] hostA2 _ Hg); [reflexivity | discriminate]. }
  split.
  { apply (flip_rejections_leave_state placeholder (mkCtx alice [alice]) 1 16 0
             [] [] hostA2 _ Hg); [reflexivity | reflexivity | discriminate]. }
  apply (flip_rejections_leave_state cross_checking (mkCtx alice [alice]) 1 0 0
           [] foreign_inputs hostA2 _ Hg); reflexivity.
Defined.

(** A flip on a session that is not stored aborts too, by the [unwrap]. *)
Example flip_unknown_session :
  flip_card placeholder (mkCtx alice [alice]) 2 0 0 [] [] hostA2 =
  (hostA2, Err HostPanic).
Proof. vm_compute. reflexivity. Qed.

(** With a first flip pending, a rejected second flip leaves the pending flip
    in place. *)
Example rejected_second_flip_keeps_pending :
  let h := play placeholder 1 [(alice, 0, 0)] hostA2 in
  flip_card placeholder (mkCtx alice [alice]) 1 1 1 [] [] h =
    (h, Err (ContractError CardAlreadyMatched)) /\
  (exists g, temporary h !! 1 = Some g /\
             flip_one g = Some 0 /\ flip_one_value g = Some 0).
Proof.
  split; [vm_compute; reflexivity |].
  eexists. split; [vm_compute; reflexivity |]. split; reflexivity.
Qed.

(** ** Completion (C5) *)

Lemma other_sessions_after_flip V ctx sid pos val pr pis h h' :
  flip_card V ctx sid pos val pr pis h = (h', Ok tt) ->
  forall s, s <> sid -> temporary h' !! s = temporary h !! s.
Proof.
  intros E s Hs.
  apply stored_after_flip in E as (g & g1 & g2 & _ & _ & _ & _ & _ & ->).
  apply lookup_insert_ne. congruence.
Qed.

(** The pairs found after an accepted flip on an active session with fewer
    than [TOTAL_PAIRS] pairs: the stored session is the one the game logic
    produced, marked inactive when it holds [TOTAL_PAIRS] pairs. *)
Lemma apply_flip_pairs g pos val h g1 :
  apply_flip g pos val h = (h, Ok g1) ->
  is_active g1 = is_active g /\
  (pairs_found g1 = pairs_found g \/ pairs_found g1 = pairs_found g + 1).
Proof.
  intros E. destruct (flip_one g) as [pos_a|] eqn:Ef.
  - destruct (apply_flip_second _ _ _ _ _ _ _ Ef E)
      as (va & _ & [(_ & _ & _ & _ & _ & ->) | (_ & ->)]); simpl; auto.
  - rewrite (apply_flip_first _ _ _ _ Ef) in E. injection E as <-.
    simpl. auto.
Qed.

(** The winner the client names for a finished session is a tie exactly on
    equal scores. *)
Lemma winner_text_tie g :
  Component.winner_text g = "Tie"%string <-> score1 g = score2 g.
Proof.
  unfold Component.winner_text.
  destruct (N.ltb_spec (score2 g) (score1 g));
    destruct (N.ltb_spec (score1 g) (score2 g));
    split; intros E; try discriminate; try reflexivity; lia.
Qed.

(** C5.  In a reachable host a stored session is inactive exactly when its
    [pairs_found] is [TOTAL_PAIRS], which is half of [BOARD_SIZE]; a session is
    created active with no pair found; an accepted flip acts on an active
    session, leaves the other sessions alone, and when it brings
    [pairs_found] to [TOTAL_PAIRS] it marks the session inactive and calls the
    hub's [end_game] once with [player1_won = score1 > score2] ([false] on
    equal scores, which the client names a tie); otherwise the session stays
    active and the hub is not called. *)
Theorem completion_at_total_pairs V h :
  reachable V h ->
  TOTAL_PAIRS = BOARD_SIZE / 2 /\
  (forall sid g,
     temporary h !! sid = Some g ->
     (is_active g = false <-> pairs_found g = TOTAL_PAIRS)) /\
  (forall ctx sid p1 p2 pts1 pts2 c h' r,
     start_game ctx sid p1 p2 pts1 pts2 c h = (h', Ok r) ->
     exists g, temporary h' !! sid = Some g /\
               is_active g = true /\ pairs_found g = 0) /\
  (forall ctx sid pos val pr pis h',
     flip_card V ctx sid pos val pr pis h = (h', Ok tt) ->
     exists g g',
       temporary h !! sid = Some g /\ temporary h' !! sid = Some g' /\
       is_active g = true /\
       (forall s, s <> sid -> temporary h' !! s = temporary h !! s) /\
       (pairs_found g' = TOTAL_PAIRS ->
          is_active g' = false /\
          hub_calls h' =
            hub_calls h ++ [HubEndGame sid (score2 g' <? score1 g')]) /\
       (pairs_found g' <> TOTAL_PAIRS ->
          is_active g' = true /\ hub_calls h' = hub_calls h) /\
       ((score2 g' <? score1 g') = true <-> score2 g' < score1 g') /\
       (score1 g' = score2 g' -> (score2 g' <? score1 g') = false) /\
       (Component.winner_text g' = "Tie"%string <-> score1 g' = score2 g')).
Proof.
  intros Hr. split; [reflexivity |]. split; [| split].
  - intros sid g Hg. pose proof (reachable_inv V h Hr sid g Hg) as Hinv.
    pose proof (inv_active g Hinv) as Hact.
    pose proof (inv_done g Hinv) as Hdone.
    destruct (is_active g); split; intros H; try discriminate; auto.
    specialize (Hact eq_refl). lia.
  - intros ctx sid p1 p2 pts1 pts2 c h' r E.
    apply start_game_Ok in E as (_ & _ & _ & ->). simpl.
    exists (created_game sid p1 p2 c). rewrite lookup_insert_eq. auto.
  - intros ctx sid pos val pr pis h' E.
    pose proof (other_sessions_after_flip _ _ _ _ _ _ _ _ _ E) as Hother.
    apply stored_after_flip in E
      as (g & g1 & g2 & Hg & Hact & _ & Ea & Hfin & Ht).
    apply apply_flip_pairs in Ea as (Ha1 & _).
    exists g, g2. split; [exact Hg |].
    split; [rewrite Ht; apply lookup_insert_eq |].
    split; [exact Hact |]. split; [exact Hother |].
    destruct Hfin as [(Ep & -> & Eh) | (Ep & -> & Eh)]; simpl.
    + split; [auto |]. split; [tauto |].
      split; [apply N.ltb_lt |].
      split; [intros ->; apply N.ltb_irrefl |].
      exact (winner_text_tie (set_inactive g1)).
    + split; [tauto |]. split; [intros _; split; congruence |].
      split; [apply N.ltb_lt |].
      split; [intros ->; apply N.ltb_irrefl | apply winner_text_tie].
Qed.

(** Alice finds the eight pairs of a board that holds value [k] at positions
    [2k] and [2k+1]. *)
Definition pair_moves (who : Address) (k : N) : list (Address * N * N) :=
  [(who, 2 * k, k); (who, 2 * k + 1, k)].

Definition alice_sweep : list (Address * N * N) :=
  flat_map (pair_moves alice) [0; 1; 2; 3; 4; 5; 6; 7].

Definition hostB15 : Host := play placeholder 1 (firstn 15 alice_sweep) hostA0.
Definition hostB16 : Host := play placeholder 1 alice_sweep hostA0.

(** Alice finds four pairs, misses, and bob finds the other four. *)
Definition shared_game : list (Address * N * N) :=
  flat_map (pair_moves alice) [0; 1; 2; 3] ++
  [(alice, 8, 4); (alice, 10, 5)] ++
  flat_map (pair_moves bob) [4; 5; 6; 7].

Definition hostT : Host := play placeholder 1 shared_game hostA0.

Lemma completion_at_total_pairs_witness :
  reachable placeholder hostB15 /\
  flip_card placeholder (mkCtx alice [alice]) 1 15 7 [] [] hostB15 =
    (hostB16, Ok tt) /\
  exists g',
    temporary hostB16 !! 1 = Some g' /\
    pairs_found g' = TOTAL_PAIRS /\
    is_active g' = false /\
    hub_calls hostB16 = hub_calls hostB15 ++ [HubEndGame 1 true].
Proof.
  assert (Hr : reachable placeholder hostB15).
  { apply play_reachable. apply hostA0_reachable. }
  assert (E : flip_card placeholder (mkCtx alice [alice]) 1 15 7 [] [] hostB15 =
              (hostB16, Ok tt)).
  { vm_compute. reflexivity. }
  split; [exact Hr |]. split; [exact E |].
  destruct (completion_at_total_pairs placeholder hostB15 Hr)
    as (_ & _ & _ & Hflip).
  destruct (Hflip _ _ _ _ _ _ _ E) as (g & g' & _ & Hg' & _ & _ & Hend & _).
  exists g'. split; [exact Hg' |].
  assert (Hv : temporary hostB16 !! 1 =
    Some {| session_id := 1; player1 := alice; player2 := bob;
            deck_commitment := commitment0; cards := repeat Matched 16;
            score1 := 8; score2 := 0; current_turn := alice;
            flip_one := None; flip_one_value := None;
            pairs_found := 8; is_active := false |}).
  { vm_compute. reflexivity. }
  rewrite Hv in Hg'. injection Hg' as <-.
  split; [reflexivity |]. apply Hend. reflexivity.
Defined.

(** A flip on the finished session is rejected with [GameNotActive]. *)
Example flip_after_completion :
  flip_card placeholder (mkCtx alice [alice]) 1 0 0 [] [] hostB16 =
  (hostB16, Err (ContractError GameNotActive)).
Proof. vm_compute. reflexivity. Qed.

(** On equal scores the hub is told that player 1 did not win. *)
Example equal_scores_report :
  get_game 1 hostT =
    (hostT,
     Ok {| session_id := 1; player1 := alice; player2 := bob;
           deck_commitment := commitment0; cards := repeat Matched 16;
           score1 := 4; score2 := 4; current_turn := bob;
           flip_one := None; flip_one_value := None;
           pairs_found := 8; is_active := false |}) /\
  last (hub_calls hostT) = Some (HubEndGame 1 false).
Proof. split; vm_compute; reflexivity. Qed.

(** ** The pending flip (C6) *)

(** C6.  The pending flip is the one slot [flip_one] / [flip_one_value].  In a
    reachable host the two halves of the slot are set or empty together; a
    created session has the slot empty; an accepted flip on an empty slot
    fills it with the submitted position and value and changes neither the
    turn nor any card, score or the activity flag; an accepted flip on a
    filled slot empties it; so the slot is empty after an accepted flip
    exactly when that flip was the second of its turn. *)
Theorem pending_flip_discipline V h :
  reachable V h ->
  (forall sid g,
     temporary h !! sid = Some g ->
     (flip_one g = None <-> flip_one_value g = None)) /\
  (forall ctx sid p1 p2 pts1 pts2 c h' r,
     start_game ctx sid p1 p2 pts1 pts2 c h = (h', Ok r) ->
     exists g, temporary h' !! sid = Some g /\
               flip_one g = None /\ flip_one_value g = None) /\
  (forall ctx sid pos val pr pis h',
     flip_card V ctx sid pos val pr pis h = (h', Ok tt) ->
     exists g g',
       temporary h !! sid = Some g /\ temporary h' !! sid = Some g' /\
       (flip_one g = None ->
          flip_one g' = Some pos /\ flip_one_value g' = Some val /\
          current_turn g' = current_turn g /\ cards g' = cards g /\
          score1 g' = score1 g /\ score2 g' = score2 g /\
          pairs_found g' = pairs_found g /\ is_active g' = true) /\
       (flip_one g <> None ->
          flip_one g' = None /\ flip_one_value g' = None) /\
       (flip_one g' = None <-> flip_one g <> None)).
Proof.
  intros Hr. split; [| split].
  - intros sid g Hg. apply (reachable_inv V h Hr sid g Hg).
  - intros ctx sid p1 p2 pts1 pts2 c h' r E.
    apply start_game_Ok in E as (_ & _ & _ & ->). simpl.
    exists (created_game sid p1 p2 c). rewrite lookup_insert_eq. auto.
  - intros ctx sid pos val pr pis h' E.
    apply stored_after_flip in E
      as (g & g1 & g2 & Hg & Hact & _ & Ea & Hfin & Ht).
    pose proof (reachable_inv V h Hr sid g Hg) as Hinv.
    exists g, g2. split; [exact Hg |].
    split; [rewrite Ht; apply lookup_insert_eq |].
    destruct (flip_one g) as [pos_a|] eqn:Ef.
    + assert (Hclr : flip_one g2 = None /\ flip_one_value g2 = None).
      { destruct (apply_flip_second _ _ _ _ _ _ _ Ef Ea)
          as (va & _ & [(_ & _ & _ & _ & _ & ->) | (_ & ->)]);
          destruct Hfin as [(_ & -> & _) | (_ & -> & _)]; simpl; auto. }
      split; [discriminate |]. split; [intros _; exact Hclr |].
      split; [discriminate | intros _; apply Hclr].
    + rewrite (apply_flip_first _ _ _ _ Ef) in Ea. injection Ea as <-.
      assert (Hp : pairs_found g <> TOTAL_PAIRS).
      { pose proof (inv_active g Hinv Hact). lia. }
      destruct Hfin as [(Ep & _) | (_ & -> & _)]; [simpl in Ep; tauto |].
      simpl. split; [intros _; repeat split; assumption |].
      split; [tauto |]. split; [discriminate | tauto].
Qed.

Lemma pending_flip_discipline_witness :
  reachable placeholder hostA0 /\
  flip_card placeholder (mkCtx alice [alice]) 1 1 1 [] [] hostA0 =
    (hostA1, Ok tt) /\
  exists g g',
    temporary hostA0 !! 1 = Some g /\ temporary hostA1 !! 1 = Some g' /\
    flip_one g = None /\
    flip_one g' = Some 1 /\ flip_one_value g' = Some 1 /\
    current_turn g' = current_turn g /\ cards g' = cards g.
Proof.
  assert (E : flip_card placeholder (mkCtx alice [alice]) 1 1 1 [] [] hostA0 =
              (hostA1, Ok tt)).
  { vm_compute. reflexivity. }
  split; [apply hostA0_reachable |]. split; [exact E |].
  destruct (pending_flip_discipline placeholder hostA0 hostA0_reachable)
    as (_ & _ & Hflip).
  destruct (Hflip _ _ _ _ _ _ _ E) as (g & g' & Hg & Hg' & Hfirst & _).
  assert (Hv : temporary hostA0 !! 1 =
               Some (created_game 1 alice bob commitment0)).
  { vm_compute. reflexivity. }
  rewrite Hv in Hg. injection Hg as <-.
  exists (created_game 1 alice bob commitment0), g'.
  split; [exact Hv |]. split; [exact Hg' |]. split; [reflexivity |].
  destruct (Hfirst eq_refl) as (H1 & H2 & H3 & H4 & _).
  auto.
Defined.

(** ** Self-play (C8) *)

(** [start_game] compares the two players nowhere: with the player's
    authorisation it returns for equal players as for distinct ones. *)
Lemma start_game_same_player ctx sid p pts1 pts2 c h hub :
  instance_hub h = Some hub ->
  existsb (String.eqb p) (authorized ctx) = true ->
  exists h',
    start_game ctx sid p p pts1 pts2 c h = (h', Ok sid) /\
    temporary h' !! sid = Some (created_game sid p p c).
Proof.
  intros Hh Ha. unfold start_game, require_auth, bind, ret, panic,
    instance_get_hub, unwrap, current_contract_address, hub_invoke,
    temporary_set.
  rewrite Ha, Hh. simpl. eexists. split; [reflexivity |].
  simpl. apply lookup_insert_eq.
Qed.

(** C8, on the code.  [start_game] with alice as both players returns and
    stores a session whose two players are the same address. *)
Theorem self_play_session_is_created :
  exists h' g,
    start_game (mkCtx alice [alice]) 7 alice alice 10%Z 10%Z commitment0 host0
      = (h', Ok 7) /\
    temporary h' !! 7 = Some g /\
    player1 g = alice /\ player2 g = alice /\ is_active g = true.
Proof.
  destruct (start_game_same_player (mkCtx alice [alice]) 7 alice 10%Z 10%Z
              commitment0 host0 "CGAMEHUB" eq_refl eq_refl) as (h' & E & Hg).
  exists h', (created_game 7 alice alice commitment0). auto.
Qed.

End ContractFacts.

(** * Properties of the deck commitment *)

Module CommitmentFacts.
Import JS Client.
Open Scope string_scope.

Definition deck0 : list N := [0; 1; 0; 1]%N.
Definition salt0 : string := "123e4567-e89b-42d3-a456-426614174001".

Example sha256_abc :
  hex_of_bytes (Sha256.sha256 (encode "abc")) =
  "ba7816bf8f01cfea414140de5dae2223b00361a396177a9cb410ff61f20015ad".
Proof. vm_compute. reflexivity. Qed.

Example sha256_two_blocks :
  hex_of_bytes (Sha256.sha256 (repeat 97%N 120)) =
  "2f3d335432c70b580af0e8e1b3674a7c020d683aa5f73aaaedfdc55af904c21c".
Proof. vm_compute. reflexivity. Qed.

(** The text hashed for [deck0] and [salt0] is the 64 characters of
    [{"deck":[0,1,0,1],"salt":"123e4567-..."}]. *)
Example stringified_deck0 :
  json_object [json_member "deck" (json_numbers deck0);
               json_member "salt" (json_string salt0)] =
  String "{" (String dquote ("deck" ++ String dquote (":[0,1,0,1]," ++
  String dquote ("salt" ++ String dquote (":" ++ String dquote
  (salt0 ++ String dquote "}")))))).
Proof. vm_compute. reflexivity. Qed.

Lemma published_commitment0 :
  generateCommitment deck0 salt0 =
  "8d2bb41e7a39e4034abbf1ddf4a3410cdb188adf09b6349d930d9d19ebda38f2".
Proof. vm_compute. reflexivity. Qed.

(** The two hex digits of an octet. *)
Definition hex2 (b : N) : string :=
  String (hex_digit (b / 16)) (String (hex_digit (b mod 16)) "").

Lemma octet_hex2 b :
  (b < 256)%N -> padStart 2 "0" (toString16 b) = hex2 b.
Proof.
  intros Hb.
  assert (Hall : forallb
            (fun n => String.eqb (padStart 2 "0" (toString16 (N.of_nat n)))
                                 (hex2 (N.of_nat n)))
            (seq 0 256) = true) by (vm_compute; reflexivity).
  rewrite forallb_forall in Hall.
  specialize (Hall (N.to_nat b)). rewrite N2Nat.id in Hall.
  apply String.eqb_eq, Hall, in_seq. lia.
Qed.

Lemma be_bytes_octets n x : Forall (fun b => (b < 256)%N) (Sha256.be_bytes n x).
Proof.
  induction n as [|n IH]; simpl; constructor.
  - apply N.mod_lt. discriminate.
  - exact IH.
Qed.

Lemma hex_of_octets bs :
  Forall (fun b => (b < 256)%N) bs ->
  hex_of_bytes bs = fold_right (fun b acc => hex2 b ++ acc) "" bs.
Proof.
  unfold hex_of_bytes. induction 1 as [|b bs Hb _ IH]; [reflexivity |].
  simpl. rewrite (octet_hex2 b Hb).
  destruct bs as [|b' bs']; [reflexivity |].
  simpl in IH |- *. rewrite <- IH. reflexivity.
Qed.

(** The commitment read back from the circuit starts with a hex digit below
    4: a canonical field element is below 2^254. *)
Lemma circuit_commitment_head (c : Fr) :
  let commitmentField := fr_to_hex c in
  let commitmentHex :=
    if startsWith "0x" commitmentField
    then slice_from 2 commitmentField else commitmentField in
  exists d rest,
    (d < 4)%N /\ padStart 64 "0" commitmentHex = String (hex_digit d) rest.
Proof.
  unfold fr_to_hex. rewrite hex_of_octets by apply be_bytes_octets.
  destruct c as [v Hv]. simpl fr_val. apply N.ltb_lt in Hv.
  set (b0 := ((v / 256 ^ N.of_nat 31) mod 256)%N).
  exists (b0 / 16)%N.
  assert (Hd : (b0 / 16 < 4)%N).
  { assert (Hq : (v / 256 ^ N.of_nat 31 < 49)%N).
    { apply N.Div0.div_lt_upper_bound.
      unfold BN254_FR in Hv. simpl. lia. }
    subst b0. rewrite N.mod_small by lia.
    apply N.Div0.div_lt_upper_bound. lia. }
  eexists. split; [exact Hd |].
  cbn -[N.div N.modulo N.pow hex_digit]. fold b0. reflexivity.
Qed.

Lemma low_hex_digit_is_not_8 d : (d < 4)%N -> hex_digit d <> "8"%char.
Proof.
  intros Hd.
  assert (Hc : d = 0%N \/ d = 1%N \/ d = 2%N \/ d = 3%N) by lia.
  destruct Hc as [-> | [-> | [-> | ->]]]; discriminate.
Qed.

(** A stand-in circuit whose third public input is the field element 5: the
    commitment read back is its 64 hex digits. *)
Definition five : Fr := mkFr 5 eq_refl.

Example commitment_of_stand_in_circuit :
  computePedersenCommitment unit (fun _ => Some tt)
    (fun _ => Some ([], [five; five; five])) deck0 (saltField_of salt0) =
  Some "0000000000000000000000000000000000000000000000000000000000000005".
Proof. vm_compute. reflexivity. Qed.

Example saltField_of_salt0 :
  saltField_of salt0 =
  "0x30c89fa3ab0bca0065b9f4b823bcf006a146efcf29dec304827d023db92a95".
Proof. vm_compute. reflexivity. Qed.

(** The commitment [generateNoirProof] returns is the one
    [computePedersenCommitment] read back from the circuit. *)
Lemma generateNoirProof_commitment
    (Witness : Type) (execute : CircuitInputs -> option Witness)
    (generateProof : Witness -> option (Bytes * list Fr))
    deck salt position revealedValue r :
  generateNoirProof Witness execute generateProof deck salt
    position revealedValue = Some r ->
  computePedersenCommitment Witness execute generateProof deck
    (saltField_of salt) = Some (np_commitment r).
Proof.
  unfold generateNoirProof.
  generalize (saltField_of salt). intros saltField.
  destruct (computePedersenCommitment _ _ _ deck saltField)
    as [commitmentHex|]; [| discriminate].
  match goal with
  | |- context [execute ?i] => destruct (execute i) as [w|]; [| discriminate]
  end.
  destruct (generateProof w) as [[pr pis]|]; [| discriminate].
  intros [= <-]. reflexivity.
Qed.

(** C7, on the code.  For the deck [0,1,0,1] and a UUID salt, the commitment
    the dealer publishes ([generateCommitment], SHA-256 of the JSON text) is
    not the commitment the proof generation takes from the circuit
    ([computePedersenCommitment], a field element), whatever the circuit and
    its backend compute: the published digest starts with the hex digit 8 and
    is no canonical field element.  The same holds of the commitment
    [generateNoirProof] returns. *)
Theorem published_commitment_is_not_circuit_commitment
    (Witness : Type) (execute : CircuitInputs -> option Witness)
    (generateProof : Witness -> option (Bytes * list Fr)) :
  computePedersenCommitment Witness execute generateProof deck0
      (saltField_of salt0)
    <> Some (generateCommitment deck0 salt0) /\
  (forall position revealedValue r,
     generateNoirProof Witness execute generateProof deck0 salt0
       position revealedValue = Some r ->
     np_commitment r <> generateCommitment deck0 salt0).
Proof.
  assert (Hc : forall saltField,
             computePedersenCommitment Witness execute generateProof deck0
               saltField <> Some (generateCommitment deck0 salt0)).
  { intros saltField. unfold computePedersenCommitment.
    change (deck0 !! 0%nat) with (Some 0%N). cbv beta iota.
    match goal with
    | |- context [execute ?i] => destruct (execute i) as [w|]; [| discriminate]
    end.
    destruct (generateProof w) as [[pr pis]|]; [| discriminate].
    destruct (pis !! 2%nat) as [c|]; [| discriminate].
    destruct (circuit_commitment_head c) as (d & rest & Hd & ->).
    rewrite published_commitment0. intros [= Hh _].
    exact (low_hex_digit_is_not_8 d Hd Hh). }
  split; [apply Hc |].
  intros position revealedValue r E Heq.
  apply generateNoirProof_commitment in E.
  apply (Hc (saltField_of salt0)). rewrite E, Heq. reflexivity.
Qed.

End CommitmentFacts.

(** * Properties of the game component *)

Module ComponentFacts.
Import JS Client Component.
Open Scope string_scope.

(** ** What leaves the dealer at session start (C9) *)

(** The events that carry data out of the dealer's component: the arguments
    of [prepareStartGame], bound for the authority, and the two exported texts
    the dealer is told to share with the other player. *)
Definition to_authority (e : Event) : bool :=
  match e with
  | CallPrepareStartGame _ _ _ _ _ _ => true
  | SetExportedAuthEntryXDR _ => true
  | _ => false
  end.

Definition to_other_player (e : Event) : bool :=
  match e with
  | SetExportedAuthEntryXDR _ => true
  | SetExportedDeckData _ => true
  | _ => false
  end.

Definition with_deck (w : World) (cd : CommittedDeck) : World :=
  mkWorld cd (w_getContractSigner w) (w_prepareStartGame w) (w_flipCard w)
    (w_getGame w) (w_rangeErrorMessage w).

Definition create_events (w : World) (p : Props) : list Event :=
  events (fst (handleCreateGame w p start)).

Definition quiet_world (cd : CommittedDeck) : World :=
  {| w_createCommittedDeck := cd;
     w_getContractSigner := None;
     w_prepareStartGame := fun _ _ _ _ _ _ => inl "AAAAAQ==";
     w_flipCard := fun _ => None;
     w_getGame := fun _ => inl None;
     w_rangeErrorMessage := fun _ => "RangeError" |}.

Definition dealer_props : Props :=
  {| actionLock := false; loading := false; sessionId := 1;
     userAddress := "GALICE"; gameState := None; deck := []; commitment := "";
     player1Address := "GALICE"; player2Address := "GBOB";
     player1Points := "0.1"; player2Points := "0.1" |}.

(** Two deals: the shuffle that leaves the deck as it is, and one that swaps
    the last two cards. *)
Definition deal1 : CommittedDeck :=
  createCommittedDeck [3; 2; 1]%nat "123e4567-e89b-42d3-a456-426614174001".
Definition deal2 : CommittedDeck :=
  createCommittedDeck [2; 2; 1]%nat "3b241101-e2bb-4255-8caf-4136c566a962".

(** The first deal with the commitment of the second in place of its own. *)
Definition deal1_recommitted : CommittedDeck :=
  mkCommittedDeck (cd_deck deal1) (cd_salt deal1) (cd_commitment deal2).

Example deal1_deck : cd_deck deal1 = [0; 1; 0; 1]%N.
Proof. reflexivity. Qed.

Example deal2_deck : cd_deck deal2 = [0; 1; 1; 0]%N.
Proof. reflexivity. Qed.

Example parsePoints_tenth : parsePoints "0.1" = Some 1000000%Z.
Proof. reflexivity. Qed.

(** C9, counterexample.  Two runs with different deals: what the second run
    hands to the other player is not what the first run hands over with the
    commitment replaced by the second run's.  The exported deck data differ
    in the deck and in the salt. *)
Lemma exported_data_differ_beyond_commitment :
  List.filter to_other_player (create_events (quiet_world deal2) dealer_props) <>
  List.filter to_other_player
    (create_events (quiet_world deal1_recommitted) dealer_props).
Proof. vm_compute. discriminate. Qed.

Lemma prefix_append x b : String.prefix x (x ++ b) = true.
Proof.
  induction x as [|c x IH]; simpl; [destruct b; reflexivity |].
  destruct (ascii_dec c c); [exact IH | congruence].
Qed.

Lemma includes_unfold x s :
  includes x s =
  String.prefix x s ||
  match s with
  | EmptyString => false
  | String _ rest => includes x rest
  end.
Proof. destruct s; reflexivity. Qed.

Lemma includes_here x b : includes x (x ++ b) = true.
Proof. rewrite includes_unfold, prefix_append. reflexivity. Qed.

Lemma includes_later x c s : includes x s = true -> includes x (String c s) = true.
Proof. intros H. simpl. rewrite H. apply orb_true_r. Qed.

Lemma includes_append x a b : includes x b = true -> includes x (a ++ b) = true.
Proof.
  intros H. induction a as [|c a IH]; [exact H |].
  change (includes x (String c (a ++ b)) = true).
  apply includes_later, IH.
Qed.

Lemma append_assoc_string (a b c : string) : (a ++ b) ++ c = a ++ (b ++ c).
Proof.
  induction a as [|x a IH]; [reflexivity |].
  change (String x ((a ++ b) ++ c) = String x (a ++ (b ++ c))).
  rewrite IH. reflexivity.
Qed.

(** The exported deck data contain the deck and the salt as written. *)
Lemma deck_data_in_clear deck salt commitment :
  includes (json_numbers deck) (stringify_deck_data deck salt commitment) = true /\
  includes (json_string salt) (stringify_deck_data deck salt commitment) = true.
Proof.
  unfold stringify_deck_data, json_object, json_member.
  cbn [String.concat]. rewrite !append_assoc_string.
  split.
  - do 3 apply includes_append. apply includes_here.
  - do 7 apply includes_append. apply includes_here.
Qed.

Example authority_events_of_deal1 :
  List.filter to_authority (create_events (quiet_world deal1) dealer_props) =
  [CallPrepareStartGame 1 "GALICE" "GBOB" 1000000 1000000
     (hexToBuffer (cd_commitment deal1));
   SetExportedAuthEntryXDR "AAAAAQ=="].
Proof. vm_compute. reflexivity. Qed.

(** C9, as the code has it.  Of a deal, only the commitment reaches the
    authority: with the commitment held fixed, the arguments of
    [prepareStartGame] and the exported auth entry are the same for every deck
    and salt.  The deck data exported for the other player are the JSON text of
    deck, salt and commitment, with the deck and the salt in clear. *)
Theorem authority_receives_commitment_only (w : World) (p : Props)
    (deck' : list N) (salt' : string) :
  let cd := w_createCommittedDeck w in
  let w' := with_deck w (mkCommittedDeck deck' salt' (cd_commitment cd)) in
  List.filter to_authority (create_events w p) =
    List.filter to_authority (create_events w' p) /\
  (forall d,
     In (SetExportedDeckData d) (create_events w p) ->
     d = stringify_deck_data (cd_deck cd) (cd_salt cd) (cd_commitment cd) /\
     includes (json_numbers (cd_deck cd)) d = true /\
     includes (json_string (cd_salt cd)) d = true).
Proof.
  intros cd w'. subst w'. unfold create_events, handleCreateGame, with_deck.
  cbn [w_createCommittedDeck cd_deck cd_salt cd_commitment
       w_getContractSigner w_prepareStartGame].
  fold cd.
  destruct (actionLock p || loading p).
  { split; [reflexivity | intros d []]. }
  unfold prepareStartGame, getContractSigner.
  cbn [w_createCommittedDeck cd_deck cd_salt cd_commitment
       w_getContractSigner w_prepareStartGame].
  destruct (parsePoints (player1Points p)) as [p1|];
    destruct (parsePoints (player2Points p)) as [p2|];
    cbn [falsy_points];
    try destruct (p1 =? 0)%Z; try destruct (p2 =? 0)%Z;
    try destruct (String.eqb (player2Address p) "");
    try destruct (w_getContractSigner w) as [[]|];
    try destruct (w_prepareStartGame w (sessionId p) (player1Address p)
                    (player2Address p) p1 p2 (hexToBuffer (cd_commitment cd)))
      as [|[]];
    (split; [reflexivity |]);
    intros d Hin; cbn in Hin;
    repeat match type of Hin with
           | _ \/ _ => destruct Hin as [Hin | Hin]
           | False => destruct Hin
           | _ = _ => try discriminate Hin
           end.
  injection Hin as <-. split; [reflexivity |]. apply deck_data_in_clear.
Qed.

(** ** Submitting a flip (C10) *)

(** [m] calls [flipCard] at most [n] times. *)
Definition call_bound {A} (n : nat) (m : C A) : Prop :=
  forall r r' res, m r = (r', res) -> (flip_calls r' <= flip_calls r + n)%nat.

Lemma bound_weaken {A} n n' (m : C A) :
  (n <= n')%nat -> call_bound n m -> call_bound n' m.
Proof. intros Hn Hm r r' res E. specialize (Hm r r' res E). lia. Qed.

Lemma bound_ret {A} (a : A) : call_bound 0 (ret a).
Proof. intros r r' res [= <- _]. lia. Qed.

Lemma bound_throw {A} e : call_bound 0 (@throw A e).
Proof. intros r r' res [= <- _]. lia. Qed.

Lemma bound_emit e : call_bound 0 (emit e).
Proof. intros r r' res [= <- _]. simpl. lia. Qed.

Lemma bound_getGame w sid : call_bound 0 (getGame w sid).
Proof.
  intros r r' res. unfold getGame.
  destruct (w_getGame w (get_calls r)); intros [= <- _]; simpl; lia.
Qed.

Lemma bound_flipCard w sid pl pos rv pr pis :
  call_bound 1 (flipCard w sid pl pos rv pr pis).
Proof.
  intros r r' res. unfold flipCard.
  destruct (w_flipCard w (flip_calls r)); intros [= <- _]; simpl; lia.
Qed.

Lemma bound_bind {A B} n1 n2 (m : C A) (k : A -> C B) :
  call_bound n1 m -> (forall a, call_bound n2 (k a)) ->
  call_bound (n1 + n2) (bind m k).
Proof.
  intros Hm Hk r r' res. unfold bind.
  destruct (m r) as [r1 [a|e]] eqn:Em; intros E.
  - specialize (Hm _ _ _ Em). specialize (Hk a _ _ _ E). lia.
  - injection E as <- _. specialize (Hm _ _ _ Em). lia.
Qed.

Lemma bound_try_catch {A} n1 n2 (m : C A) (h : Thrown -> C A) :
  call_bound n1 m -> (forall e, call_bound n2 (h e)) ->
  call_bound (n1 + n2) (try_catch m h).
Proof.
  intros Hm Hh r r' res. unfold try_catch.
  destruct (m r) as [r1 [a|e]] eqn:Em; intros E.
  - injection E as <- _. specialize (Hm _ _ _ Em). lia.
  - specialize (Hm _ _ _ Em). specialize (Hh e _ _ _ E). lia.
Qed.

Lemma bound_finally {A} n1 n2 (m : C A) (c : C unit) :
  call_bound n1 m -> call_bound n2 c -> call_bound (n1 + n2) (finally m c).
Proof.
  intros Hm Hc r r' res. unfold finally.
  destruct (m r) as [r1 res1] eqn:Em.
  destruct (c r1) as [r2 [[]|e]] eqn:Ec; intros [= <- _];
    specialize (Hm _ _ _ Em); specialize (Hc _ _ _ Ec); lia.
Qed.

Lemma bound_message_or e fallback : call_bound 0 (message_or e fallback).
Proof. destruct e; [apply bound_ret | apply bound_throw ..]. Qed.

Lemma bound_getContractSigner w : call_bound 0 (getContractSigner w).
Proof.
  unfold getContractSigner.
  destruct (w_getContractSigner w); [apply bound_throw | apply bound_ret].
Qed.

Create HintDb bound_db.

#[local] Hint Resolve bound_ret bound_throw bound_emit bound_getGame
  bound_flipCard bound_message_or bound_getContractSigner : bound_db.

(** Splits a bound along the structure of a computation. *)
Ltac bound_step :=
  first
    [ solve [auto with bound_db]
    | apply (bound_bind 0 0); [| intros ?]
    | match goal with
      | |- call_bound _ (if ?c then _ else _) => destruct c
      | |- call_bound _ (match ?o with Some _ => _ | None => _ end) =>
          destruct o
      | |- call_bound _ (when ?c _) => destruct c; unfold when
      end ].

Lemma bound_refresh w p n i g : call_bound 0 (refresh w p n i g).
Proof.
  revert i g. induction n as [|n IH]; intros i g; simpl.
  - apply bound_ret.
  - apply (bound_bind 0 0); [apply bound_getGame | intros [g'|]].
    + destruct (_ && _); [apply bound_ret |].
      apply (bound_bind 0 0); [| intros _; apply IH].
      unfold when. destruct (i <? 2)%N; auto with bound_db.
    + apply IH.
Qed.

Lemma bound_submit_once w p pos rv pr pis :
  call_bound 1 (submit_once w p pos rv pr pis).
Proof.
  unfold submit_once.
  apply (bound_bind 1 0); [apply bound_flipCard | intros _].
  apply (bound_bind 0 0); [apply bound_emit | intros _].
  apply (bound_bind 0 0); [apply bound_emit | intros _].
  apply (bound_bind 0 0); [apply bound_refresh | intros g].
  repeat bound_step.
Qed.

(** The loop started with [retries] submits at most [retries] times. *)
Lemma bound_retry_loop w p retries last pos rv pr pis :
  call_bound retries (retry_loop w p retries last pos rv pr pis).
Proof.
  revert last. induction retries as [|n IH]; intros last.
  - apply bound_throw.
  - cbn [retry_loop]. apply (bound_try_catch 1 n).
    + apply bound_submit_once.
    + intros e. apply (bound_bind 0 n); [apply bound_message_or |].
      intros msg. destruct (is_transient msg && _).
      * apply (bound_bind 0 n); [apply bound_emit | intros _; apply IH].
      * apply (bound_weaken 0); [lia |]. repeat bound_step.
Qed.

(** The budget: one use of the handler submits the flip at most 3 times,
    whatever the service answers. *)
Lemma flip_budget w p pos :
  call_bound 3 (handleFlipCard w p pos).
Proof.
  unfold handleFlipCard.
  destruct (actionLock p || loading p);
    [apply (bound_weaken 0); [lia | apply bound_ret] |].
  destruct (gameState p) as [gs|];
    [| apply (bound_weaken 0); [lia | apply bound_ret]].
  destruct (negb _); [apply (bound_weaken 0); [lia | apply bound_emit] |].
  destruct (Contract.cards gs !! N.to_nat pos) as [card|];
    [| apply (bound_weaken 0); [lia | apply bound_throw]].
  destruct (Contract.CardState_eqb card Contract.Matched);
    [apply (bound_weaken 0); [lia | apply bound_emit] |].
  apply (bound_bind 0 3); [apply bound_emit | intros _].
  apply (bound_bind 0 3); [apply bound_emit | intros _].
  apply (bound_bind 0 3); [apply bound_emit | intros _].
  apply (bound_finally 3 0).
  - apply (bound_try_catch 3 0).
    + cbv zeta. destruct (generateMockPublicInputs _ _ _) as [pis | v].
      * apply (bound_bind 0 3); [apply bound_getContractSigner | intros _].
        apply bound_retry_loop.
      * apply (bound_weaken 0); [lia | apply bound_throw].
    + intros e. repeat bound_step.
  - repeat bound_step.
Qed.

(** The message the retry loop inspects: [err.message || String(err)]. *)
Definition inspected (msg : string) : string :=
  if String.eqb msg "" then "Error" else msg.

(** An error that is not transient ends the loop after the one submission. *)
Lemma no_retry_unless_transient w p n last pos rv pr pis r msg r' res :
  w_flipCard w (flip_calls r) = Some (ErrorObj msg) ->
  is_transient (inspected msg) = false ->
  retry_loop w p (S n) last pos rv pr pis r = (r', res) ->
  flip_calls r' = S (flip_calls r) /\ exists e, res = Throw e.
Proof.
  intros Hf Ht. cbn [retry_loop].
  unfold try_catch, submit_once, flipCard, message_or.
  unfold bind at 1. rewrite Hf. fold (inspected msg).
  unfold bind at 1, ret at 1. rewrite Ht. cbn [andb].
  destruct (is_not_your_turn (inspected msg)).
  - unfold bind, getGame, emit, throw, ret. cbn [flip_calls get_calls events].
    destruct (w_getGame w (get_calls r)) as [[g|]|m];
      intros [= <- <-]; simpl; eauto.
  - unfold throw. intros [= <- <-]. simpl. eauto.
Qed.

(** A [NotYourTurn] rejection: no second submission; the session is fetched
    again, stored when there is one, and the stale-state error is thrown for
    the handler to show. *)
Lemma not_your_turn_refreshes w p n last pos rv pr pis r msg og :
  w_flipCard w (flip_calls r) = Some (ErrorObj msg) ->
  is_transient (inspected msg) = false ->
  is_not_your_turn (inspected msg) = true ->
  w_getGame w (get_calls r) = inl og ->
  retry_loop w p (S n) last pos rv pr pis r =
  (mkRun (S (flip_calls r)) (S (get_calls r))
     (((events r ++
        [CallFlipCard (sessionId p) (userAddress p) pos rv pr pis]) ++
       [CallGetGame (sessionId p)]) ++
      match og with Some g => [SetGameState g] | None => [] end),
   Throw (ErrorObj
     "Game state was stale. Please try again - it should be your turn now.")).
Proof.
  intros Hf Ht Hn Hg. cbn [retry_loop].
  unfold try_catch, submit_once, flipCard, message_or.
  unfold bind at 1. rewrite Hf. fold (inspected msg).
  unfold bind at 1, ret at 1. rewrite Ht, Hn. cbn [andb].
  unfold bind, getGame, emit, throw, ret. cbn [flip_calls get_calls events].
  rewrite Hg. destruct og; cbn [flip_calls get_calls events];
    rewrite ?app_nil_r; reflexivity.
Qed.

(** *** A busy network *)

Definition board4 : GameState :=
  {| Contract.session_id := 1; Contract.player1 := "GALICE";
     Contract.player2 := "GBOB"; Contract.deck_commitment := [];
     Contract.cards := repeat Contract.FaceDown 4;
     Contract.score1 := 0; Contract.score2 := 0;
     Contract.current_turn := "GALICE";
     Contract.flip_one := None; Contract.flip_one_value := None;
     Contract.pairs_found := 0; Contract.is_active := true |}.

Definition player_props : Props :=
  {| actionLock := false; loading := false; sessionId := 1;
     userAddress := "GALICE"; gameState := Some board4;
     deck := [0; 1; 0; 1]%N;
     commitment :=
       "8d2bb41e7a39e4034abbf1ddf4a3410cdb188adf09b6349d930d9d19ebda38f2";
     player1Address := "GALICE"; player2Address := "GBOB";
     player1Points := "0.1"; player2Points := "0.1" |}.

(** Every submission is answered with [TRY_AGAIN_LATER]. *)
Definition busy_world : World :=
  {| w_createCommittedDeck := deal1;
     w_getContractSigner := None;
     w_prepareStartGame := fun _ _ _ _ _ _ => inl "AAAAAQ==";
     w_flipCard := fun _ => Some (ErrorObj "TRY_AGAIN_LATER");
     w_getGame := fun _ => inl None;
     w_rangeErrorMessage := fun _ => "RangeError" |}.

(** The first submission is answered with the contract error 3. *)
Definition stale_world : World :=
  {| w_createCommittedDeck := deal1;
     w_getContractSigner := None;
     w_prepareStartGame := fun _ _ _ _ _ _ => inl "AAAAAQ==";
     w_flipCard := fun _ => Some (ErrorObj "HostError: Error(Contract, #3)");
     w_getGame := fun _ => inl (Some board4);
     w_rangeErrorMessage := fun _ => "RangeError" |}.

Definition waits (evs : list Event) : list N :=
  omap (fun e => match e with Wait ms => Some ms | _ => None end) evs.

Definition submissions (evs : list Event) : nat :=
  length (List.filter (fun e => match e with
                           | CallFlipCard _ _ _ _ _ _ => true
                           | _ => false
                           end) evs).

Definition flip_events (w : World) (p : Props) (pos : N) : list Event :=
  events (fst (handleFlipCard w p pos start)).

(** The client recognises the contract's [NotYourTurn] by its code. *)
Example not_your_turn_code :
  is_not_your_turn
    ("HostError: Error(Contract, #" ++
     toString10 (Contract.error_code Contract.NotYourTurn) ++ ")") = true /\
  is_transient
    ("HostError: Error(Contract, #" ++
     toString10 (Contract.error_code Contract.NotYourTurn) ++ ")") = false.
Proof. split; vm_compute; reflexivity. Qed.

Example stale_turn_run :
  flip_events stale_world player_props 1 =
  [SetActionLock true; SetLoading true; SetError None;
   CallFlipCard 1 "GALICE" 1 (Some 1%N) generateMockProof
     [u32_be_at_28 1; hexToBuffer (commitment player_props); u32_be_at_28 1];
   CallGetGame 1; SetGameState board4;
   SetError (Some
     "Game state was stale. Please try again - it should be your turn now.");
   SetLoading false; SetActionLock false].
Proof. vm_compute. reflexivity. Qed.

(** With every submission answered [TRY_AGAIN_LATER] the handler submits
    three times, waits 2000 ms and then 3000 ms between the attempts, shows
    that the network is busy and releases the lock. *)
Example busy_network_run :
  let evs := flip_events busy_world player_props 1 in
  submissions evs = 3%nat /\
  waits evs = [2000; 3000]%N /\
  last evs = Some (SetActionLock false) /\
  In (SetError (Some "Network is busy. Please try again in a moment.")) evs.
Proof.
  cbv zeta.
  split; [vm_compute; reflexivity |]. split; [vm_compute; reflexivity |].
  split; [vm_compute; reflexivity |]. vm_compute. tauto.
Qed.

End ComponentFacts.

(** * Further properties of the contract *)

Module ContractMore.
Import Contract ContractFacts.

(** ** What an accepted flip stores *)

(** The completion check, as a function of the session the game logic made. *)
Definition finished (g : GameState) : GameState :=
  if pairs_found g =? TOTAL_PAIRS then set_inactive g else g.

(** The three outcomes of the game logic on [g]. *)
Inductive flip_kind (g : GameState) (pos val : N) : GameState -> Prop :=
| kind_first :
    flip_one g = None ->
    flip_kind g pos val (set_first_flip g pos val)
| kind_match pos_a :
    flip_one g = Some pos_a ->
    flip_one_value g = Some val ->
    pos_a <> pos ->
    pos_a < N.of_nat (length (cards g)) ->
    flip_kind g pos val (matched_state g pos_a pos)
| kind_pass pos_a val_a :
    flip_one g = Some pos_a ->
    flip_one_value g = Some val_a ->
    ~ (val_a = val /\ pos_a <> pos) ->
    flip_kind g pos val (passed_state g).

Lemma flip_outcome V ctx sid pos val pr pis h h' g :
  temporary h !! sid = Some g ->
  flip_card V ctx sid pos val pr pis h = (h', Ok tt) ->
  is_active g = true /\
  invoker ctx = current_turn g /\
  pos < BOARD_SIZE /\
  vec_get (cards g) pos = Some FaceDown /\
  V pr pis (deck_commitment g) = true /\
  exists g1,
    flip_kind g pos val g1 /\
    temporary h' = <[sid := finished g1]> (temporary h) /\
    instance_hub h' = instance_hub h /\
    contract_address h' = contract_address h.
Proof.
  intros Hg E.
  apply flip_card_Ok in E as (g0 & g1 & g2 & h1 & Ec & Ea & Ef & ->).
  apply flip_checks_Ok in Ec as (_ & Hg0 & Hact & Hinv & Hpos & Hdown & Hv).
  rewrite Hg in Hg0. injection Hg0 as <-.
  repeat (split; [assumption |]).
  exists g1. split.
  - destruct (flip_one g) as [pos_a|] eqn:Efl.
    + destruct (apply_flip_second _ _ _ _ _ _ _ Efl Ea)
        as (va & Hva & [(-> & Hne & La & _ & _ & ->) | (Hn & ->)]).
      * apply kind_match; assumption.
      * eapply kind_pass; eassumption.
    + rewrite (apply_flip_first _ _ _ _ Efl) in Ea. injection Ea as <-.
      apply kind_first. exact Efl.
  - unfold finished.
    apply finish_if_complete_Ok in Ef as [(Ep & -> & ->) | (Ep & -> & ->)];
      simpl.
    + apply N.eqb_eq in Ep. rewrite Ep. auto.
    + apply N.eqb_neq in Ep. rewrite Ep. auto.
Qed.

Lemma reachable_hub V h :
  reachable V h -> exists hub, instance_hub h = Some hub.
Proof.
  induction 1 as [self admin hub
                 | h ctx sid0 p1 p2 pts1 pts2 c h' r Hr IH E
                 | h ctx sid0 pos val pr pis h' Hr IH E].
  - exists hub. reflexivity.
  - apply start_game_Ok in E as (_ & _ & _ & ->). exact IH.
  - apply flip_card_Ok in E as (g0 & g1 & g2 & h1 & _ & _ & Ef & ->).
    simpl.
    apply finish_if_complete_Ok in Ef as [(_ & _ & ->) | (_ & _ & ->)];
      exact IH.
Qed.

(** Induction over the sessions of reachable hosts: a property of created
    sessions that accepted flips keep holds of every stored session. *)
Lemma stored_session_ind V (P : N -> GameState -> Prop) :
  (forall sid p1 p2 c, P sid (created_game sid p1 p2 c)) ->
  (forall sid g pos val g1,
     game_inv g -> P sid g ->
     is_active g = true ->
     pos < BOARD_SIZE -> vec_get (cards g) pos = Some FaceDown ->
     flip_kind g pos val g1 ->
     P sid (finished g1)) ->
  forall h, reachable V h ->
  forall sid g, temporary h !! sid = Some g -> P sid g.
Proof.
  intros Hnew Hstep h Hr.
  induction Hr as [self admin hub
                  | h ctx sid0 p1 p2 pts1 pts2 c h' r Hr IH E
                  | h ctx sid0 pos val pr pis h' Hr IH E];
    intros sid g Hg.
  - simpl in Hg. rewrite lookup_empty in Hg. discriminate.
  - apply start_game_Ok in E as (_ & _ & _ & ->). simpl in Hg.
    destruct (decide (sid0 = sid)) as [<- | Hne].
    + rewrite lookup_insert_eq in Hg. injection Hg as <-. apply Hnew.
    + rewrite lookup_insert_ne in Hg by exact Hne. eapply IH; exact Hg.
  - destruct (decide (sid0 = sid)) as [<- | Hne].
    + pose proof E as E'.
      apply flip_card_Ok in E' as (g0 & _ & _ & _ & Ec & _).
      apply flip_checks_Ok in Ec as (_ & Hg0 & _).
      destruct (flip_outcome _ _ _ _ _ _ _ _ _ _ Hg0 E)
        as (Hact & _ & Hpos & Hdown & _ & g1 & Hk & Ht & _).
      rewrite Ht, lookup_insert_eq in Hg. injection Hg as <-.
      eapply Hstep; try eassumption.
      * eapply reachable_inv; eassumption.
      * eapply IH; eassumption.
    + rewrite (other_sessions_after_flip _ _ _ _ _ _ _ _ _ E) in Hg
        by congruence.
      eapply IH; exact Hg.
Qed.

(** ** The board of a stored session *)

Definition matched_count (cs : list CardState) : nat :=
  length (List.filter (fun c => CardState_eqb c Matched) cs).

Lemma matched_count_insert cs i :
  cs !! i = Some FaceDown ->
  matched_count (<[i := Matched]> cs) = S (matched_count cs).
Proof.
  unfold matched_count. revert i.
  induction cs as [|c cs IH]; intros [|i] H; simpl in *; try discriminate.
  - injection H as ->. reflexivity.
  - destruct (CardState_eqb c Matched); simpl; rewrite (IH i H); reflexivity.
Qed.

Lemma finished_fields g :
  session_id (finished g) = session_id g /\
  player1 (finished g) = player1 g /\
  player2 (finished g) = player2 g /\
  deck_commitment (finished g) = deck_commitment g /\
  cards (finished g) = cards g /\
  score1 (finished g) = score1 g /\
  score2 (finished g) = score2 g /\
  current_turn (finished g) = current_turn g /\
  flip_one (finished g) = flip_one g /\
  flip_one_value (finished g) = flip_one_value g /\
  pairs_found (finished g) = pairs_found g.
Proof.
  unfold finished. destruct (pairs_found g =? TOTAL_PAIRS); simpl;
    repeat split.
Qed.

(** X1.  Every session stored in a reachable host is well formed: it carries
    the id it is stored under, its board has 16 cards of which exactly
    [2 * pairs_found] are [Matched], [pairs_found] and both scores are at most
    8, the turn belongs to one of its two players, and a pending first flip
    points at a card of the board that is still [FaceDown]. *)
Theorem stored_sessions_well_formed V h sid g :
  reachable V h ->
  temporary h !! sid = Some g ->
  session_id g = sid /\
  length (cards g) = 16%nat /\
  matched_count (cards g) = (2 * N.to_nat (pairs_found g))%nat /\
  pairs_found g <= TOTAL_PAIRS /\
  score1 g <= TOTAL_PAIRS /\ score2 g <= TOTAL_PAIRS /\
  (current_turn g = player1 g \/ current_turn g = player2 g) /\
  (forall p, flip_one g = Some p ->
             p < BOARD_SIZE /\ vec_get (cards g) p = Some FaceDown).
Proof.
  intros Hr Hg.
  pose proof (reachable_inv V h Hr sid g Hg) as Hinv.
  assert (Hnew : session_id g = sid /\
                 matched_count (cards g) = (2 * N.to_nat (pairs_found g))%nat).
  { apply (stored_session_ind V
             (fun sid g => session_id g = sid /\
                matched_count (cards g) =
                  (2 * N.to_nat (pairs_found g))%nat)) with (h := h);
      [| | exact Hr | exact Hg].
    - intros sid0 p1 p2 c. split; reflexivity.
    - clear. intros sid0 g0 pos val g1 Hinv0 [Hid Hcount] Hact Hpos Hdown Hk.
      destruct (finished_fields g1) as (-> & _ & _ & _ & -> & _ & _ & _ & _ & _ & ->).
      destruct Hk as [Hf | pos_a Hf Hv Hne La | pos_a val_a Hf Hv Hn]; simpl.
      + auto.
      + split; [exact Hid |].
        pose proof (inv_pending_down g0 Hinv0 pos_a Hf) as Hda.
        unfold vec_get in Hda, Hdown.
        rewrite matched_count_insert.
        * rewrite matched_count_insert by exact Hda. rewrite Hcount. lia.
        * rewrite list_lookup_insert_ne by lia. exact Hdown.
      + auto. }
  destruct Hnew as (Hid & Hcount).
  pose proof (inv_scores g Hinv) as Hs.
  pose proof (inv_board g Hinv) as Hb.
  assert (Hp : pairs_found g <= TOTAL_PAIRS).
  { destruct (is_active g) eqn:Ha.
    - pose proof (inv_active g Hinv Ha). lia.
    - rewrite (inv_done g Hinv Ha). lia. }
  split; [exact Hid |]. split; [exact Hb |]. split; [exact Hcount |].
  split; [exact Hp |]. split; [lia |]. split; [lia |].
  split; [exact (inv_turn g Hinv) |].
  intros p Hf. pose proof (inv_pending_down g Hinv p Hf) as Hd.
  split; [| exact Hd].
  unfold vec_get in Hd. apply lookup_lt_Some in Hd. rewrite Hb in Hd.
  unfold BOARD_SIZE in *. lia.
Qed.

Lemma stored_sessions_well_formed_witness :
  exists g,
    temporary hostA2 !! 1 = Some g /\
    session_id g = 1 /\
    matched_count (cards g) = 2%nat /\ pairs_found g = 1.
Proof.
  eexists. split; [vm_compute; reflexivity |].
  destruct (stored_sessions_well_formed placeholder hostA2 1
              (matched_state
                 (set_first_flip (created_game 1 alice bob commitment0) 1 1) 1 3)
              hostA2_reachable)
    as (Hid & _ & Hc & _).
  - vm_compute. reflexivity.
  - split; [exact Hid |]. split; [exact Hc | reflexivity].
Defined.

(** ** When a flip is accepted *)

Lemma flip_checks_pass V ctx sid pos pr pis h g :
  temporary h !! sid = Some g ->
  is_active g = true ->
  invoker ctx = current_turn g ->
  pos < BOARD_SIZE ->
  vec_get (cards g) pos = Some FaceDown ->
  V pr pis (deck_commitment g) = true ->
  flip_checks V ctx sid pos pr pis h = (h, Ok g).
Proof.
  intros Hg Ha Ht Hp Hc Hv.
  unfold flip_checks, bind, temporary_get, unwrap, reject_if,
    verify_card_reveal_proof, ret. rewrite Hg. simpl.
  apply String.eqb_eq in Ht. apply N.leb_gt in Hp.
  rewrite Ha, Ht, Hp, Hc, Hv. reflexivity.
Qed.

(** On a well-formed active session the game logic does not abort. *)
Lemma apply_flip_returns g pos val h :
  game_inv g ->
  is_active g = true ->
  vec_get (cards g) pos = Some FaceDown ->
  exists g1, apply_flip g pos val h = (h, Ok g1).
Proof.
  intros Hinv Ha Hc.
  destruct (flip_one g) as [pos_a|] eqn:Ef.
  2:{ eexists. apply apply_flip_first. exact Ef. }
  pose proof (inv_pending_down g Hinv pos_a Ef) as Hda.
  pose proof (inv_active g Hinv Ha) as Hlt.
  pose proof (inv_scores g Hinv) as Hs.
  destruct (flip_one_value g) as [va|] eqn:Ev.
  2:{ apply (inv_slot g Hinv) in Ev. congruence. }
  unfold vec_get in Hda, Hc.
  apply lookup_lt_Some in Hda. apply lookup_lt_Some in Hc.
  unfold apply_flip. rewrite Ef, Ev. unfold bind, unwrap, ret.
  destruct ((va =? val) && negb (pos_a =? pos)); [| eexists; reflexivity].
  unfold vec_set, u32_incr, bind, ret.
  assert (H1 : (pos_a <? N.of_nat (length (cards g))) = true)
    by (apply N.ltb_lt; lia).
  rewrite H1, length_insert.
  assert (H2 : (pos <? N.of_nat (length (cards g))) = true)
    by (apply N.ltb_lt; lia).
  rewrite H2.
  unfold TOTAL_PAIRS in Hlt.
  assert (H3 : (pairs_found g + 1 <=? U32_MAX) = true)
    by (apply N.leb_le; unfold U32_MAX; lia).
  rewrite H3.
  destruct (String.eqb (current_turn g) (player1 g)).
  - assert (H4 : (score1 g + 1 <=? U32_MAX) = true)
      by (apply N.leb_le; unfold U32_MAX; lia).
    rewrite H4. eexists. reflexivity.
  - assert (H4 : (score2 g + 1 <=? U32_MAX) = true)
      by (apply N.leb_le; unfold U32_MAX; lia).
    rewrite H4. eexists. reflexivity.
Qed.

Lemma finish_if_complete_returns sid g h hub :
  instance_hub h = Some hub ->
  exists h1 g2, finish_if_complete sid g h = (h1, Ok g2).
Proof.
  intros Hh. unfold finish_if_complete, bind, instance_get_hub, unwrap,
    hub_invoke, ret.
  destruct (pairs_found g =? TOTAL_PAIRS); [rewrite Hh |]; eauto.
Qed.

(** X2.  In a reachable host a flip on a stored session is accepted exactly
    when the session is active, the caller is the player to move, the position
    is below 16, the card there is [FaceDown] and the verifier accepts the
    proof: nothing else can make it fail. *)
Theorem flip_accepted_iff V ctx sid pos val pr pis h g :
  reachable V h ->
  temporary h !! sid = Some g ->
  (exists h', flip_card V ctx sid pos val pr pis h = (h', Ok tt)) <->
  (is_active g = true /\
   invoker ctx = current_turn g /\
   pos < BOARD_SIZE /\
   vec_get (cards g) pos = Some FaceDown /\
   V pr pis (deck_commitment g) = true).
Proof.
  intros Hr Hg. split.
  - intros (h' & E).
    destruct (flip_outcome _ _ _ _ _ _ _ _ _ _ Hg E)
      as (H1 & H2 & H3 & H4 & H5 & _).
    auto.
  - intros (Ha & Ht & Hp & Hc & Hv).
    pose proof (reachable_inv V h Hr sid g Hg) as Hinv.
    destruct (reachable_hub V h Hr) as (hub & Hh).
    destruct (apply_flip_returns g pos val h Hinv Ha Hc) as (g1 & Ea).
    destruct (finish_if_complete_returns sid g1 h hub Hh) as (h1 & g2 & Ef).
    eexists. rewrite flip_card_stages. unfold bind at 1.
    rewrite (flip_checks_pass V ctx sid pos pr pis h g Hg Ha Ht Hp Hc Hv).
    unfold bind at 1. rewrite Ea. unfold bind at 1. rewrite Ef.
    reflexivity.
Qed.

Lemma flip_accepted_iff_witness :
  (exists h',
     flip_card placeholder (mkCtx alice [alice]) 1 0 5 [] [] hostA2 =
       (h', Ok tt)) /\
  ~ (exists h',
     flip_card placeholder (mkCtx bob [bob]) 1 0 5 [] [] hostA2 = (h', Ok tt)).
Proof.
  assert (Hg : temporary hostA2 !! 1 =
    Some (matched_state
            (set_first_flip (created_game 1 alice bob commitment0) 1 1) 1 3))
    by (vm_compute; reflexivity).
  split.
  - apply (flip_accepted_iff placeholder (mkCtx alice [alice]) 1 0 5 [] []
             hostA2 _ hostA2_reachable Hg).
    repeat split; reflexivity.
  - intros H.
    apply (flip_accepted_iff placeholder (mkCtx bob [bob]) 1 0 5 [] []
             hostA2 _ hostA2_reachable Hg) in H.
    destruct H as (_ & Ht & _). discriminate Ht.
Defined.

(** The checks either pass or abort with a typed contract error, when the
    session is stored and the board has its 16 cards. *)
Lemma flip_checks_typed V ctx sid pos pr pis h g :
  temporary h !! sid = Some g ->
  length (cards g) = 16%nat ->
  flip_checks V ctx sid pos pr pis h = (h, Ok g) \/
  exists e,
    flip_checks V ctx sid pos pr pis h = (h, Err (ContractError e)) /\
    e <> GameNotFound.
Proof.
  intros Hg Hl.
  unfold flip_checks, bind, temporary_get, unwrap, reject_if,
    verify_card_reveal_proof, ret, panic, panic_with_error. rewrite Hg.
  destruct (is_active g); simpl;
    [| right; eexists; split; [reflexivity | discriminate]].
  destruct (String.eqb (invoker ctx) (current_turn g)); simpl;
    [| right; eexists; split; [reflexivity | discriminate]].
  destruct (BOARD_SIZE <=? pos) eqn:Ep; simpl;
    [right; eexists; split; [reflexivity | discriminate] |].
  apply N.leb_gt in Ep. unfold BOARD_SIZE in Ep.
  destruct (vec_get (cards g) pos) as [c|] eqn:Ec.
  2:{ unfold vec_get in Ec. apply lookup_ge_None in Ec. lia. }
  destruct c; simpl;
    [| right; eexists; split; [reflexivity | discriminate]].
  destruct (V pr pis (deck_commitment g)); simpl;
    [left; reflexivity | right; eexists; split; [reflexivity | discriminate]].
Qed.

(** X3.  In a reachable host a flip on a stored session never ends in a plain
    panic: when it aborts, it aborts with one of the typed errors
    [GameNotActive], [NotYourTurn], [InvalidPosition], [CardAlreadyMatched],
    [InvalidProof].  (On an id that is not stored it panics on the [unwrap].) *)
Theorem flip_aborts_are_typed V ctx sid pos val pr pis h g h' t :
  reachable V h ->
  temporary h !! sid = Some g ->
  flip_card V ctx sid pos val pr pis h = (h', Err t) ->
  exists e,
    t = ContractError e /\
    (e = GameNotActive \/ e = NotYourTurn \/ e = InvalidPosition \/
     e = CardAlreadyMatched \/ e = InvalidProof).
Proof.
  intros Hr Hg E.
  pose proof (reachable_inv V h Hr sid g Hg) as Hinv.
  destruct (flip_checks_typed V ctx sid pos pr pis h g Hg (inv_board g Hinv))
    as [Hc | (e & Hc & Hne)].
  - exfalso. rewrite flip_card_stages in E. unfold bind at 1 in E.
    rewrite Hc in E.
    apply flip_checks_Ok in Hc as (_ & _ & Ha & _ & _ & Hd & _).
    destruct (reachable_hub V h Hr) as (hub & Hh).
    destruct (apply_flip_returns g pos val h Hinv Ha Hd) as (g1 & Ea).
    destruct (finish_if_complete_returns sid g1 h hub Hh) as (h1 & g2 & Ef).
    unfold bind at 1 in E. rewrite Ea in E. unfold bind at 1 in E.
    rewrite Ef in E. discriminate E.
  - rewrite flip_card_stages in E. unfold bind at 1 in E. rewrite Hc in E.
    injection E as _ <-. exists e. split; [reflexivity |].
    destruct e; auto; congruence.
Qed.

Lemma flip_aborts_are_typed_witness :
  exists e,
    ContractError CardAlreadyMatched = ContractError e /\
    (e = GameNotActive \/ e = NotYourTurn \/ e = InvalidPosition \/
     e = CardAlreadyMatched \/ e = InvalidProof).
Proof.
  apply (flip_aborts_are_typed placeholder (mkCtx alice [alice]) 1 3 1 [] []
           hostA2
           (matched_state
              (set_first_flip (created_game 1 alice bob commitment0) 1 1) 1 3)
           hostA2 (ContractError CardAlreadyMatched) hostA2_reachable).
  - vm_compute. reflexivity.
  - vm_compute. reflexivity.
Defined.

(** ** What a flip never changes *)

(** X4.  An accepted flip keeps the identity of the session: its id, its two
    players and its deck commitment are those it had, the board keeps its
    length, a card that was [Matched] stays [Matched], and neither
    [pairs_found] nor a score goes down. *)
Theorem accepted_flip_keeps_identity V ctx sid pos val pr pis h h' g :
  temporary h !! sid = Some g ->
  flip_card V ctx sid pos val pr pis h = (h', Ok tt) ->
  exists g',
    temporary h' !! sid = Some g' /\
    session_id g' = session_id g /\
    player1 g' = player1 g /\ player2 g' = player2 g /\
    deck_commitment g' = deck_commitment g /\
    length (cards g') = length (cards g) /\
    (forall i, vec_get (cards g) i = Some Matched ->
               vec_get (cards g') i = Some Matched) /\
    pairs_found g <= pairs_found g' /\
    score1 g <= score1 g' /\ score2 g <= score2 g'.
Proof.
  intros Hg E.
  destruct (flip_outcome _ _ _ _ _ _ _ _ _ _ Hg E)
    as (_ & _ & _ & Hdown & _ & g1 & Hk & Ht & _).
  exists (finished g1). split; [rewrite Ht; apply lookup_insert_eq |].
  destruct (finished_fields g1)
    as (-> & -> & -> & -> & -> & -> & -> & _ & _ & _ & ->).
  destruct Hk as [Hf | pos_a Hf Hv Hne La | pos_a val_a Hf Hv Hn]; simpl.
  - repeat split; auto; lia.
  - rewrite !length_insert. repeat split; try reflexivity; try lia.
    + intros i Hi. unfold vec_get in *.
      destruct (decide (N.to_nat pos = N.to_nat i)) as [e | n].
      * rewrite <- e, Hdown in Hi. discriminate.
      * rewrite list_lookup_insert_ne by exact n.
        destruct (decide (N.to_nat pos_a = N.to_nat i)) as [e | n'].
        -- rewrite <- e. apply list_lookup_insert_eq.
           rewrite <- e in Hi. apply lookup_lt_Some in Hi. exact Hi.
        -- rewrite list_lookup_insert_ne by exact n'. exact Hi.
    + destruct (String.eqb (current_turn g) (player1 g)); lia.
    + destruct (String.eqb (current_turn g) (player1 g)); lia.
  - repeat split; auto; lia.
Qed.

Lemma accepted_flip_keeps_identity_witness :
  exists g',
    temporary hostA2 !! 1 = Some g' /\
    player1 g' = alice /\ player2 g' = bob /\
    deck_commitment g' = commitment0.
Proof.
  destruct (accepted_flip_keeps_identity placeholder (mkCtx alice [alice])
              1 3 1 [] [] hostA1 hostA2
              (set_first_flip (created_game 1 alice bob commitment0) 1 1))
    as (g' & Hg' & _ & H1 & H2 & H3 & _).
  - vm_compute. reflexivity.
  - vm_compute. reflexivity.
  - exists g'. auto.
Defined.

(** ** Session creation *)

(** X5.  [start_game] returns exactly when both players have authorised the
    call and the hub address is configured; otherwise it aborts with a plain
    panic before anything is written, the hub is not called and no session is
    stored. *)
Theorem start_game_aborts_cleanly ctx sid p1 p2 pts1 pts2 c h :
  let allowed :=
    existsb (String.eqb p1) (authorized ctx) &&
    existsb (String.eqb p2) (authorized ctx) &&
    bool_decide (instance_hub h <> None) in
  (allowed = true ->
   exists h', start_game ctx sid p1 p2 pts1 pts2 c h = (h', Ok sid)) /\
  (allowed = false ->
   start_game ctx sid p1 p2 pts1 pts2 c h = (h, Err HostPanic)) /\
  (forall h' t,
     start_game ctx sid p1 p2 pts1 pts2 c h = (h', Err t) ->
     h' = h /\ t = HostPanic).
Proof.
  cbv zeta.
  unfold start_game, require_auth, bind, ret, panic, instance_get_hub, unwrap,
    current_contract_address, hub_invoke, temporary_set.
  destruct (existsb (String.eqb p1) (authorized ctx)); simpl.
  2:{ split; [discriminate |]. split; [reflexivity |].
      intros h' t [= <- <-]. auto. }
  destruct (existsb (String.eqb p2) (authorized ctx)); simpl.
  2:{ split; [discriminate |]. split; [reflexivity |].
      intros h' t [= <- <-]. auto. }
  destruct (instance_hub h) as [hub|]; simpl.
  - split; [eauto |]. split; [| discriminate].
    intros H.
    first [ discriminate H
          | rewrite bool_decide_eq_false in H; exfalso; apply H; discriminate ].
  - split; [| split; [reflexivity |]].
    + intros H.
      first [ discriminate H
            | rewrite bool_decide_eq_true in H; congruence ].
    + intros h' t [= <- <-]. auto.
Qed.

(** X6.  [start_game] does not look at what is stored under the session id:
    when it returns, the session stored under the id is the fresh one (all
    cards face down, no score, player 1 to move), whatever session was there
    before, every other session is untouched, and the hub's [start_game] has
    been called once, last, with the contract's own address and the points. *)
Theorem start_game_replaces_session ctx sid p1 p2 pts1 pts2 c h h' r :
  start_game ctx sid p1 p2 pts1 pts2 c h = (h', Ok r) ->
  r = sid /\
  temporary h' !! sid = Some (created_game sid p1 p2 c) /\
  (forall s, s <> sid -> temporary h' !! s = temporary h !! s) /\
  hub_calls h' =
    hub_calls h ++ [HubStartGame (contract_address h) sid p1 p2 pts1 pts2] /\
  instance_hub h' = instance_hub h.
Proof.
  intros E. apply start_game_Ok in E as (-> & _ & _ & ->). simpl.
  split; [reflexivity |]. split; [apply lookup_insert_eq |].
  split; [| auto].
  intros s Hs. apply lookup_insert_ne. congruence.
Qed.

(** A game in progress, restarted under its id. *)
Definition hostA2_restarted : Host := start_tx 1 bob alice commitment0 hostA2.

Lemma start_game_replaces_session_witness :
  (exists g, temporary hostA2 !! 1 = Some g /\ score1 g = 1) /\
  temporary hostA2_restarted !! 1 = Some (created_game 1 bob alice commitment0).
Proof.
  split.
  - eexists. split; [vm_compute; reflexivity | reflexivity].
  - apply (start_game_replaces_session (mkCtx bob [bob; alice]) 1 bob alice
             10%Z 10%Z commitment0 hostA2 hostA2_restarted 1).
    vm_compute. reflexivity.
Defined.

(** X7.  [get_game] reads and never writes: it returns the session stored
    under the id and panics when there is none.  Right after a [start_game]
    that returned [r] it returns the fresh session under [r], and right after
    an accepted flip it returns a session with the same players and
    commitment. *)
Theorem get_game_reads_what_was_stored :
  (forall sid h,
     get_game sid h =
     (h, match temporary h !! sid with
         | Some g => Ok g
         | None => Err HostPanic
         end)) /\
  (forall ctx sid p1 p2 pts1 pts2 c h h' r,
     start_game ctx sid p1 p2 pts1 pts2 c h = (h', Ok r) ->
     get_game r h' = (h', Ok (created_game sid p1 p2 c))) /\
  (forall V ctx sid pos val pr pis h h' g,
     get_game sid h = (h, Ok g) ->
     flip_card V ctx sid pos val pr pis h = (h', Ok tt) ->
     exists g',
       get_game sid h' = (h', Ok g') /\
       player1 g' = player1 g /\ player2 g' = player2 g /\
       deck_commitment g' = deck_commitment g).
Proof.
  assert (Hget : forall sid h,
             get_game sid h =
             (h, match temporary h !! sid with
                 | Some g => Ok g
                 | None => Err HostPanic
                 end)).
  { intros sid h. unfold get_game, bind, temporary_get, unwrap, ret, panic.
    destruct (temporary h !! sid); reflexivity. }
  split; [exact Hget |]. split.
  - intros ctx sid p1 p2 pts1 pts2 c h h' r E.
    apply start_game_Ok in E as (-> & _ & _ & ->).
    rewrite Hget. simpl. rewrite lookup_insert_eq. reflexivity.
  - intros V ctx sid pos val pr pis h h' g Eg E.
    rewrite Hget in Eg.
    destruct (temporary h !! sid) as [g0|] eqn:Hg; [| discriminate].
    injection Eg as <-.
    destruct (flip_outcome _ _ _ _ _ _ _ _ _ _ Hg E)
      as (_ & _ & _ & _ & _ & g1 & Hk & Ht & _).
    exists (finished g1). rewrite Hget, Ht, lookup_insert_eq.
    split; [reflexivity |].
    destruct (finished_fields g1) as (_ & -> & -> & -> & _).
    destruct Hk; simpl; auto.
Qed.

(** ** Two flips in a row *)

Lemma flip_card_returns V ctx sid pos val pr pis h g :
  reachable V h ->
  temporary h !! sid = Some g ->
  is_active g = true ->
  invoker ctx = current_turn g ->
  vec_get (cards g) pos = Some FaceDown ->
  V pr pis (deck_commitment g) = true ->
  exists h', flip_card V ctx sid pos val pr pis h = (h', Ok tt).
Proof.
  intros Hr Hg Ha Ht Hc Hv.
  pose proof (reachable_inv V h Hr sid g Hg) as Hinv.
  assert (Hp : pos < BOARD_SIZE).
  { unfold vec_get in Hc. apply lookup_lt_Some in Hc.
    rewrite (inv_board g Hinv) in Hc. unfold BOARD_SIZE in *. lia. }
  destruct (reachable_hub V h Hr) as (hub & Hh).
  destruct (apply_flip_returns g pos val h Hinv Ha Hc) as (g1 & Ea).
  destruct (finish_if_complete_returns sid g1 h hub Hh) as (h1 & g2 & Ef).
  eexists. rewrite flip_card_stages. unfold bind at 1.
  rewrite (flip_checks_pass V ctx sid pos pr pis h g Hg Ha Ht Hp Hc Hv).
  unfold bind at 1. rewrite Ea. unfold bind at 1. rewrite Ef.
  reflexivity.
Qed.

(** X8.  With the proof check of the source, the value a player announces is
    checked against nothing: in a reachable host, on an active session with no
    flip pending, the player to move can turn any two distinct face-down
    positions announcing one and the same value of their choice; both flips are
    accepted, both cards end [Matched], [pairs_found] grows by one and the
    player keeps the turn. *)
Theorem any_two_cards_can_be_matched h sid g ctx p q v pr pis pr' pis' :
  reachable placeholder h ->
  temporary h !! sid = Some g ->
  is_active g = true ->
  flip_one g = None ->
  invoker ctx = current_turn g ->
  p <> q ->
  vec_get (cards g) p = Some FaceDown ->
  vec_get (cards g) q = Some FaceDown ->
  exists h1 h2 g2,
    flip_card placeholder ctx sid p v pr pis h = (h1, Ok tt) /\
    flip_card placeholder ctx sid q v pr' pis' h1 = (h2, Ok tt) /\
    temporary h2 !! sid = Some g2 /\
    vec_get (cards g2) p = Some Matched /\
    vec_get (cards g2) q = Some Matched /\
    pairs_found g2 = pairs_found g + 1 /\
    current_turn g2 = current_turn g.
Proof.
  intros Hr Hg Ha Hf Ht Hpq Hp Hq.
  pose proof (reachable_inv placeholder h Hr sid g Hg) as Hinv.
  destruct (flip_card_returns placeholder ctx sid p v pr pis h g
              Hr Hg Ha Ht Hp eq_refl) as (h1 & E1).
  destruct (flip_outcome _ _ _ _ _ _ _ _ _ _ Hg E1)
    as (_ & _ & _ & _ & _ & g1 & Hk1 & Ht1 & _).
  assert (Hg1 : g1 = set_first_flip g p v).
  { destruct Hk1; [reflexivity | congruence | congruence]. }
  subst g1.
  assert (Hfin : finished (set_first_flip g p v) = set_first_flip g p v).
  { unfold finished. simpl.
    pose proof (inv_active g Hinv Ha) as Hlt.
    destruct (pairs_found g =? TOTAL_PAIRS) eqn:Ep; [| reflexivity].
    apply N.eqb_eq in Ep. lia. }
  rewrite Hfin in Ht1.
  assert (Hr1 : reachable placeholder h1) by (eapply reach_flip; eassumption).
  assert (Hs1 : temporary h1 !! sid = Some (set_first_flip g p v))
    by (rewrite Ht1; apply lookup_insert_eq).
  destruct (flip_card_returns placeholder ctx sid q v pr' pis' h1
              (set_first_flip g p v) Hr1 Hs1 Ha Ht Hq eq_refl) as (h2 & E2).
  destruct (flip_outcome _ _ _ _ _ _ _ _ _ _ Hs1 E2)
    as (_ & _ & _ & _ & _ & g2 & Hk2 & Ht2 & _).
  exists h1, h2, (finished g2).
  split; [exact E1 |]. split; [exact E2 |].
  split; [rewrite Ht2; apply lookup_insert_eq |].
  destruct (finished_fields g2)
    as (_ & _ & _ & _ & -> & _ & _ & -> & _ & _ & ->).
  unfold vec_get in *.
  pose proof (lookup_lt_Some _ _ _ Hp) as Lp.
  pose proof (lookup_lt_Some _ _ _ Hq) as Lq.
  destruct Hk2 as [Hf2 | pos_a Hf2 Hv2 Hne La | pos_a val_a Hf2 Hv2 Hn];
    simpl in *.
  - discriminate.
  - injection Hf2 as <-.
    split.
    { rewrite list_lookup_insert_ne by lia.
      apply list_lookup_insert_eq. exact Lp. }
    split.
    { apply list_lookup_insert_eq. rewrite length_insert. exact Lq. }
    split; reflexivity.
  - injection Hf2 as <-. injection Hv2 as <-. exfalso. apply Hn. auto.
Qed.

Lemma any_two_cards_can_be_matched_witness :
  exists h1 h2 g2,
    flip_card placeholder (mkCtx alice []) 1 2 7 [] [] hostA0 = (h1, Ok tt) /\
    flip_card placeholder (mkCtx alice []) 1 9 7 [] [] h1 = (h2, Ok tt) /\
    temporary h2 !! 1 = Some g2 /\
    vec_get (cards g2) 2 = Some Matched /\
    vec_get (cards g2) 9 = Some Matched /\
    pairs_found g2 = 1 /\
    current_turn g2 = alice.
Proof.
  apply (any_two_cards_can_be_matched hostA0 1
           (created_game 1 alice bob commitment0) (mkCtx alice []) 2 9 7
           [] [] [] [] hostA0_reachable).
  - vm_compute. reflexivity.
  - reflexivity.
  - reflexivity.
  - reflexivity.
  - discriminate.
  - reflexivity.
  - reflexivity.
Defined.

(** X15.  The card of the pending first flip can be flipped again.  Its
    state is still [FaceDown], so in a reachable host the second flip at the
    same position is accepted whenever the verifier accepts, whatever value is
    announced; it never counts as a match: the board, the scores and
    [pairs_found] stay as they are, the pending flip is cleared and the turn
    goes to the other player. *)
Theorem pending_card_again_passes_turn V h sid g ctx p val pr pis :
  reachable V h ->
  temporary h !! sid = Some g ->
  is_active g = true ->
  flip_one g = Some p ->
  invoker ctx = current_turn g ->
  V pr pis (deck_commitment g) = true ->
  exists h' g',
    flip_card V ctx sid p val pr pis h = (h', Ok tt) /\
    temporary h' !! sid = Some g' /\
    cards g' = cards g /\
    score1 g' = score1 g /\ score2 g' = score2 g /\
    pairs_found g' = pairs_found g /\
    flip_one g' = None /\ is_active g' = true /\
    current_turn g' =
      (if String.eqb (current_turn g) (player1 g) then player2 g
       else player1 g).
Proof.
  intros Hr Hg Ha Hf Ht Hv.
  pose proof (reachable_inv V h Hr sid g Hg) as Hinv.
  pose proof (inv_pending_down g Hinv p Hf) as Hdown.
  destruct (flip_card_returns V ctx sid p val pr pis h g Hr Hg Ha Ht Hdown Hv)
    as (h' & E).
  destruct (flip_outcome _ _ _ _ _ _ _ _ _ _ Hg E)
    as (_ & _ & _ & _ & _ & g1 & Hk & Hst & _).
  assert (Hg1 : g1 = passed_state g).
  { destruct Hk as [Hn | pos_a Hf' _ Hne _ | pos_a val_a _ _ _];
      [congruence | | reflexivity].
    rewrite Hf in Hf'. injection Hf' as <-. congruence. }
  subst g1.
  exists h', (finished (passed_state g)).
  split; [exact E |].
  split; [rewrite Hst; apply lookup_insert_eq |].
  pose proof (inv_active g Hinv Ha) as Hlt.
  unfold finished. simpl.
  destruct (pairs_found g =? TOTAL_PAIRS) eqn:Ep.
  { apply N.eqb_eq in Ep. lia. }
  simpl. rewrite Ha. repeat split; reflexivity.
Qed.

Lemma pending_card_again_passes_turn_witness :
  exists h' g',
    flip_card placeholder (mkCtx alice []) 1 1 9 [] [] hostA1 = (h', Ok tt) /\
    temporary h' !! 1 = Some g' /\
    cards g' = cards (set_first_flip (created_game 1 alice bob commitment0) 1 1) /\
    score1 g' = 0 /\ score2 g' = 0 /\
    pairs_found g' = 0 /\
    flip_one g' = None /\ is_active g' = true /\
    current_turn g' = bob.
Proof.
  apply (pending_card_again_passes_turn placeholder hostA1 1
           (set_first_flip (created_game 1 alice bob commitment0) 1 1)
           (mkCtx alice []) 1 9 [] [] hostA1_reachable).
  - vm_compute. reflexivity.
  - reflexivity.
  - reflexivity.
  - reflexivity.
  - reflexivity.
Defined.

End ContractMore.

(** * Further properties of the deck utilities and of the proof generation *)

Module ClientMore.
Import JS Client CommitmentFacts.
Open Scope string_scope.

(** ** Hex text and buffers *)

Lemma hex_value_digit d : (d < 16)%N -> hex_value (hex_digit d) = Some d.
Proof.
  intros Hd.
  assert (Hall : forallb
            (fun n => match hex_value (hex_digit (N.of_nat n)) with
                      | Some v => (v =? N.of_nat n)%N
                      | None => false
                      end) (seq 0 16) = true) by (vm_compute; reflexivity).
  rewrite forallb_forall in Hall.
  specialize (Hall (N.to_nat d)). rewrite N2Nat.id in Hall.
  destruct (hex_value (hex_digit d)) as [v|].
  - f_equal. apply N.eqb_eq, Hall, in_seq. lia.
  - discriminate Hall. apply in_seq. lia.
Qed.

Definition hex_text (bs : Bytes) : string :=
  fold_right (fun b acc => hex2 b ++ acc) "" bs.

Lemma hex_text_cons b bs :
  hex_text (b :: bs) =
  String (hex_digit (b / 16)) (String (hex_digit (b mod 16)) (hex_text bs)).
Proof. reflexivity. Qed.

Lemma buffer_from_hex_text bs :
  Forall (fun b => (b < 256)%N) bs -> buffer_from_hex (hex_text bs) = bs.
Proof.
  induction 1 as [|b bs Hb _ IH]; [reflexivity |].
  rewrite hex_text_cons. cbn [buffer_from_hex].
  rewrite !hex_value_digit.
  - rewrite IH. f_equal. rewrite (N.div_mod b 16) at 3 by discriminate. lia.
  - apply N.mod_lt. discriminate.
  - apply N.Div0.div_lt_upper_bound. lia.
Qed.

Lemma hex_text_no_prefix bs : startsWith "0x" (hex_text bs) = false.
Proof.
  destruct bs as [|b bs]; [reflexivity |].
  rewrite hex_text_cons. unfold startsWith. cbn [String.prefix].
  destruct (ascii_dec "0" (hex_digit (b / 16))); [| reflexivity].
  destruct (ascii_dec "x" (hex_digit (b mod 16))) as [E|]; [| reflexivity].
  exfalso.
  assert (Hv : hex_value (hex_digit (b mod 16)) = Some (b mod 16)%N).
  { apply hex_value_digit, N.mod_lt. discriminate. }
  rewrite <- E in Hv. discriminate Hv.
Qed.

Lemma substring_all s : String.substring 0 (String.length s) s = s.
Proof. induction s as [|c s IH]; simpl; [reflexivity | rewrite IH; reflexivity]. Qed.

Lemma slice_from_0x s : slice_from 2 ("0x" ++ s) = s.
Proof.
  unfold slice_from.
  change ("0x" ++ s) with (String "0" (String "x" s)).
  cbn [String.length String.substring Nat.sub].
  rewrite Nat.sub_0_r. apply substring_all.
Qed.

Lemma hexToBuffer_of_octets bs :
  Forall (fun b => (b < 256)%N) bs -> hexToBuffer (hex_of_bytes bs) = bs.
Proof.
  intros Hb. rewrite (hex_of_octets bs Hb). fold (hex_text bs).
  unfold hexToBuffer. rewrite hex_text_no_prefix.
  apply buffer_from_hex_text, Hb.
Qed.

(** X9.  Printing octets as hex and reading them back with [hexToBuffer]
    gives the octets again, with or without the [0x] prefix. *)
Theorem hexToBuffer_round_trip bs :
  Forall (fun b => (b < 256)%N) bs ->
  hexToBuffer (hex_of_bytes bs) = bs /\
  hexToBuffer ("0x" ++ hex_of_bytes bs) = bs.
Proof.
  intros Hb. split; [apply hexToBuffer_of_octets, Hb |].
  rewrite (hex_of_octets bs Hb). fold (hex_text bs).
  unfold hexToBuffer, startsWith. rewrite ComponentFacts.prefix_append.
  rewrite slice_from_0x. apply buffer_from_hex_text, Hb.
Qed.

Lemma hexToBuffer_round_trip_witness :
  hexToBuffer (hex_of_bytes [0; 255; 16]%N) = [0; 255; 16]%N /\
  hexToBuffer ("0x" ++ hex_of_bytes [0; 255; 16]%N) = [0; 255; 16]%N.
Proof.
  apply (hexToBuffer_round_trip [0; 255; 16]%N).
  repeat constructor.
Defined.

(** ** The size of a digest *)

Lemma step_length s kw : length (Sha256.step s kw) = length s.
Proof.
  unfold Sha256.step.
  do 9 (destruct s as [|? s]; try reflexivity).
Qed.

Lemma fold_step_length l s :
  length (fold_left Sha256.step l s) = length s.
Proof.
  revert s. induction l as [|kw l IH]; intros s; [reflexivity |].
  cbn [fold_left]. rewrite IH. apply step_length.
Qed.

Lemma compress_length h block : length (Sha256.compress h block) = length h.
Proof.
  unfold Sha256.compress. cbv zeta.
  rewrite length_map, length_combine, fold_step_length. lia.
Qed.

Lemma fold_compress_length blocks h :
  length (fold_left Sha256.compress blocks h) = length h.
Proof.
  revert h. induction blocks as [|b blocks IH]; intros h; [reflexivity |].
  cbn [fold_left]. rewrite IH. apply compress_length.
Qed.

Lemma be_bytes_length n x : length (Sha256.be_bytes n x) = n.
Proof. induction n as [|n IH]; simpl; [reflexivity | rewrite IH; reflexivity]. Qed.

Lemma words_length (ws : list N) :
  length (flat_map (Sha256.be_bytes 4) ws) = (4 * length ws)%nat.
Proof.
  induction ws as [|w ws IH]; [reflexivity |].
  cbn [flat_map]. rewrite length_app, be_bytes_length, IH. simpl. lia.
Qed.

Lemma words_octets (ws : list N) :
  Forall (fun b => (b < 256)%N) (flat_map (Sha256.be_bytes 4) ws).
Proof.
  induction ws as [|w ws IH]; [constructor |].
  cbn [flat_map]. apply Forall_app. split; [apply be_bytes_octets | exact IH].
Qed.

Lemma sha256_length msg : length (Sha256.sha256 msg) = 32%nat.
Proof.
  unfold Sha256.sha256. cbv zeta.
  rewrite words_length, fold_compress_length. reflexivity.
Qed.

Lemma sha256_octets msg : Forall (fun b => (b < 256)%N) (Sha256.sha256 msg).
Proof. unfold Sha256.sha256. cbv zeta. apply words_octets. Qed.

Lemma hex_text_length bs : String.length (hex_text bs) = (2 * length bs)%nat.
Proof.
  induction bs as [|b bs IH]; [reflexivity |].
  rewrite hex_text_cons. cbn [String.length length]. rewrite IH. lia.
Qed.

(** The text [generateCommitment] hashes. *)
Definition committed_text (deck : list N) (salt : string) : string :=
  json_object [json_member "deck" (json_numbers deck);
               json_member "salt" (json_string salt)].

Lemma commitment_buffer deck salt :
  hexToBuffer (generateCommitment deck salt) =
  Sha256.sha256 (encode (committed_text deck salt)).
Proof.
  unfold generateCommitment. cbv zeta. fold (committed_text deck salt).
  generalize (encode (committed_text deck salt)). intros msg.
  apply hexToBuffer_of_octets, sha256_octets.
Qed.

(** Card values JavaScript holds exactly and prints digit by digit: the
    safe integers.  For these [committed_text] is the text of
    [JSON.stringify({ deck, salt })]. *)
Definition safe_integers (deck : list N) : Prop :=
  Forall (fun v => (v < 2 ^ 53)%N) deck.

(** X10.  For every deck of safe integers and every salt the published
    commitment is 64 hex characters, and the buffer [hexToBuffer] makes of it
    for the contract call is the 32 octets of the SHA-256 digest of the JSON
    text. *)
Theorem commitment_is_32_octets deck salt :
  safe_integers deck ->
  String.length (generateCommitment deck salt) = 64%nat /\
  hexToBuffer (generateCommitment deck salt) =
    Sha256.sha256 (encode (committed_text deck salt)) /\
  length (hexToBuffer (generateCommitment deck salt)) = 32%nat /\
  Forall (fun b => (b < 256)%N) (hexToBuffer (generateCommitment deck salt)).
Proof.
  intros _.
  unfold generateCommitment. cbv zeta. fold (committed_text deck salt).
  generalize (encode (committed_text deck salt)). intros msg.
  pose proof (sha256_octets msg) as Ho.
  pose proof (sha256_length msg) as Hl.
  rewrite (hexToBuffer_of_octets _ Ho).
  split; [| auto].
  rewrite (hex_of_octets _ Ho). fold (hex_text (Sha256.sha256 msg)).
  rewrite hex_text_length, Hl. reflexivity.
Qed.

Lemma deck0_safe : safe_integers deck0.
Proof. repeat constructor. Qed.

Lemma commitment_is_32_octets_witness :
  String.length (generateCommitment deck0 salt0) = 64%nat /\
  hexToBuffer (generateCommitment deck0 salt0) =
    Sha256.sha256 (encode (committed_text deck0 salt0)) /\
  length (hexToBuffer (generateCommitment deck0 salt0)) = 32%nat /\
  Forall (fun b => (b < 256)%N) (hexToBuffer (generateCommitment deck0 salt0)).
Proof.
  apply (commitment_is_32_octets deck0 salt0).
  repeat constructor.
Defined.

(** ** Public inputs *)

Lemma fold_be_bytes n x acc :
  fold_left (fun a b => a * 256 + b)%N (Sha256.be_bytes n x) acc =
  (acc * 256 ^ N.of_nat n + x mod 256 ^ N.of_nat n)%N.
Proof.
  revert acc. induction n as [|n IH]; intros acc.
  - simpl. rewrite N.mod_1_r. lia.
  - cbn [Sha256.be_bytes fold_left]. rewrite IH.
    rewrite Nat2N.inj_succ, N.pow_succ_r'.
    rewrite (N.mul_comm 256 (256 ^ N.of_nat n)).
    rewrite (N.Div0.mod_mul_r x (256 ^ N.of_nat n) 256). lia.
Qed.

Lemma fold_zeros k acc bs :
  fold_left (fun a b => a * 256 + b)%N (repeat 0%N k ++ bs)%list acc =
  fold_left (fun a b => a * 256 + b)%N bs (acc * 256 ^ N.of_nat k)%N.
Proof.
  revert acc. induction k as [|k IH]; intros acc.
  - simpl. f_equal. lia.
  - cbn [repeat app fold_left]. rewrite IH. f_equal.
    rewrite Nat2N.inj_succ, N.pow_succ_r'. lia.
Qed.

Lemma u32_be_at_28_value v :
  Sha256.be_value (u32_be_at_28 v) = (v mod 2 ^ 32)%N.
Proof.
  unfold Sha256.be_value, u32_be_at_28.
  rewrite fold_zeros, fold_be_bytes. reflexivity.
Qed.

Lemma u32_be_at_28_length v : length (u32_be_at_28 v) = 32%nat.
Proof.
  unfold u32_be_at_28. rewrite length_app, repeat_length, be_bytes_length.
  reflexivity.
Qed.

Lemma writeUInt32BE_in_range v :
  (v < 2 ^ 32)%N -> writeUInt32BE_at_28 v = inl (u32_be_at_28 v).
Proof.
  intros Hv. unfold writeUInt32BE_at_28.
  apply N.ltb_lt in Hv. rewrite Hv. reflexivity.
Qed.

Lemma writeUInt32BE_out_of_range v :
  (2 ^ 32 <= v)%N -> writeUInt32BE_at_28 v = inr v.
Proof.
  intros Hv. unfold writeUInt32BE_at_28.
  apply N.ltb_ge in Hv. rewrite Hv. reflexivity.
Qed.

(** The public inputs of a position and a value that fit 32 bits. *)
Lemma generateMockPublicInputs_in_range position deckCommitment revealedValue :
  (position < 2 ^ 32)%N -> (revealedValue < 2 ^ 32)%N ->
  generateMockPublicInputs position deckCommitment revealedValue =
  inl [u32_be_at_28 position; hexToBuffer deckCommitment;
       u32_be_at_28 revealedValue].
Proof.
  intros Hp Hv. unfold generateMockPublicInputs.
  rewrite (writeUInt32BE_in_range _ Hp), (writeUInt32BE_in_range _ Hv).
  reflexivity.
Qed.

(** X11.  The public inputs made for a flip, for a commitment of a deck of
    safe integers.  For a position and a value that fit 32 bits they are three
    buffers of 32 octets: the first and the third read back, big-endian, as the
    position and the value, and the second is the digest behind the
    commitment.  For a position or a value above 2^32 - 1 there are none:
    [writeUInt32BE] throws a [RangeError] for the first such number. *)
Theorem mock_public_inputs_layout position revealedValue deck salt :
  safe_integers deck ->
  ((position < 2 ^ 32)%N -> (revealedValue < 2 ^ 32)%N ->
   exists p c v,
     generateMockPublicInputs position (generateCommitment deck salt)
       revealedValue = inl [p; c; v] /\
     length p = 32%nat /\ length c = 32%nat /\ length v = 32%nat /\
     Sha256.be_value p = position /\
     Sha256.be_value v = revealedValue /\
     c = Sha256.sha256 (encode (committed_text deck salt))) /\
  ((2 ^ 32 <= position)%N ->
   generateMockPublicInputs position (generateCommitment deck salt)
     revealedValue = inr position) /\
  ((position < 2 ^ 32)%N -> (2 ^ 32 <= revealedValue)%N ->
   generateMockPublicInputs position (generateCommitment deck salt)
     revealedValue = inr revealedValue).
Proof.
  intros _. split; [| split].
  - intros Hp Hv.
    rewrite (generateMockPublicInputs_in_range _ _ _ Hp Hv).
    rewrite commitment_buffer.
    do 3 eexists. split; [reflexivity |].
    rewrite !u32_be_at_28_length, sha256_length, !u32_be_at_28_value.
    rewrite !N.mod_small by assumption. auto 10.
  - intros Hp. unfold generateMockPublicInputs.
    rewrite (writeUInt32BE_out_of_range _ Hp). reflexivity.
  - intros Hp Hv. unfold generateMockPublicInputs.
    rewrite (writeUInt32BE_in_range _ Hp), (writeUInt32BE_out_of_range _ Hv).
    reflexivity.
Qed.

Lemma mock_public_inputs_layout_witness :
  exists p c v,
    generateMockPublicInputs 3 (generateCommitment deck0 salt0) 1 =
      inl [p; c; v] /\
    length p = 32%nat /\ length c = 32%nat /\ length v = 32%nat /\
    Sha256.be_value p = 3%N /\
    Sha256.be_value v = 1%N /\
    c = Sha256.sha256 (encode (committed_text deck0 salt0)).
Proof.
  apply (proj1 (mock_public_inputs_layout 3 1 deck0 salt0 deck0_safe));
    reflexivity.
Defined.

(** ** The shuffle *)

Definition transpose (i j k : nat) : nat :=
  if decide (k = i) then j else if decide (k = j) then i else k.

Lemma transpose_inj i j : Inj (=) (=) (transpose i j).
Proof.
  intros a b. unfold transpose.
  repeat destruct (decide _); congruence.
Qed.

Lemma swap_lookup (l : list N) i j x y k :
  l !! i = Some x -> l !! j = Some y ->
  <[j := x]> (<[i := y]> l) !! k = l !! transpose i j k.
Proof.
  intros Hi Hj. unfold transpose.
  pose proof (lookup_lt_Some _ _ _ Hi) as Li.
  pose proof (lookup_lt_Some _ _ _ Hj) as Lj.
  destruct (decide (k = j)) as [-> | Hkj].
  - rewrite list_lookup_insert_eq by (rewrite length_insert; exact Lj).
    destruct (decide (j = i)) as [-> | _]; congruence.
  - rewrite list_lookup_insert_ne by congruence.
    destruct (decide (k = i)) as [-> | Hki].
    + rewrite list_lookup_insert_eq by exact Li. congruence.
    + rewrite list_lookup_insert_ne by congruence. reflexivity.
Qed.

Lemma swap_Permutation l i j : Permutation (swap l i j) l.
Proof.
  unfold swap.
  destruct (l !! i) as [x|] eqn:Hi; [| reflexivity].
  destruct (l !! j) as [y|] eqn:Hj; [| reflexivity].
  apply Permutation_inj. split; [rewrite !length_insert; reflexivity |].
  exists (transpose i j). split; [apply transpose_inj |].
  intros k. apply swap_lookup; assumption.
Qed.

Lemma shuffle_from_Permutation i draws deck :
  Permutation (shuffle_from i draws deck) deck.
Proof.
  revert draws deck. induction i as [|i IH]; intros draws deck;
    [destruct draws; reflexivity |].
  destruct draws as [|j draws]; [reflexivity |].
  cbn [shuffle_from]. rewrite IH. apply swap_Permutation.
Qed.

Definition total (l : list N) : N := fold_right N.add 0%N l.

Lemma total_Permutation l l' : Permutation l l' -> total l = total l'.
Proof. induction 1; simpl in *; lia. Qed.

(** X12.  Whatever the random draws, [shuffleDeck] returns an arrangement of
    the two pairs [0, 0, 1, 1]; and every such arrangement is returned for some
    draws [j] in [0, i], [i = 3, 2, 1], as [Math.floor(Math.random() * (i + 1))]
    gives them. *)
Theorem shuffleDeck_deals_two_pairs :
  (forall draws, Permutation (shuffleDeck draws) [0; 0; 1; 1]%N) /\
  (forall d, Permutation d [0; 0; 1; 1]%N ->
     exists j3 j2 j1 : nat,
       (j3 <= 3)%nat /\ (j2 <= 2)%nat /\ (j1 <= 1)%nat /\
       shuffleDeck [j3; j2; j1] = d).
Proof.
  split.
  - intros draws. unfold shuffleDeck. cbv zeta.
    rewrite shuffle_from_Permutation.
    apply Permutation_inj. split; [reflexivity |].
    exists (transpose 1 2). split; [apply transpose_inj |].
    intros [|[|[|[|k]]]]; reflexivity.
  - intros d Hd.
    pose proof (Permutation_length Hd) as Hl.
    pose proof (total_Permutation _ _ Hd) as Ht.
    assert (Hin : forall x, In x d -> x = 0%N \/ x = 1%N).
    { intros x Hx. apply (Permutation_in _ Hd) in Hx.
      destruct Hx as [<- | [<- | [<- | [<- | []]]]]; auto. }
    destruct d as [|a [|b [|c [|e [|? ?]]]]]; try discriminate Hl.
    clear Hd Hl.
    destruct (Hin a) as [-> | ->]; [simpl; auto | |];
    (destruct (Hin b) as [-> | ->]; [simpl; auto | |]);
    (destruct (Hin c) as [-> | ->]; [simpl; auto | |]);
    (destruct (Hin e) as [-> | ->]; [simpl; auto 6 | |]);
    try discriminate Ht; clear Hin Ht.
    + exists 1%nat, 1%nat, 0%nat. repeat split; lia.
    + exists 1%nat, 0%nat, 1%nat. repeat split; lia.
    + exists 0%nat, 0%nat, 1%nat. repeat split; lia.
    + exists 1%nat, 0%nat, 0%nat. repeat split; lia.
    + exists 0%nat, 0%nat, 0%nat. repeat split; lia.
    + exists 0%nat, 2%nat, 0%nat. repeat split; lia.
Qed.

Lemma shuffleDeck_deals_two_pairs_witness :
  exists j3 j2 j1 : nat,
    (j3 <= 3)%nat /\ (j2 <= 2)%nat /\ (j1 <= 1)%nat /\
    shuffleDeck [j3; j2; j1] = [1; 1; 0; 0]%N.
Proof.
  apply (proj2 shuffleDeck_deals_two_pairs [1; 1; 0; 0]%N).
  exact (proj1 shuffleDeck_deals_two_pairs [0; 2; 0]%nat).
Defined.

(** ** The salt handed to the circuit *)

Lemma parseInt16_hex_text bs rest acc :
  Forall (fun b => (b < 256)%N) bs ->
  parseInt16_from acc (hex_text bs ++ rest) =
  parseInt16_from (fold_left (fun a b => a * 256 + b)%N bs acc) rest.
Proof.
  intros Hb. revert acc. induction Hb as [|b bs Hb _ IH]; intros acc;
    [reflexivity |].
  rewrite hex_text_cons.
  change (String ?a (String ?b ?s) ++ rest) with (String a (String b (s ++ rest))).
  cbn [parseInt16_from].
  rewrite !hex_value_digit.
  - rewrite IH. cbn [fold_left]. do 2 f_equal.
    pose proof (N.div_mod b 16 ltac:(discriminate)) as E. lia.
  - apply N.mod_lt. discriminate.
  - apply N.Div0.div_lt_upper_bound. lia.
Qed.

Lemma append_empty_r s : s ++ "" = s.
Proof.
  induction s as [|c s IH]; [reflexivity |].
  change (String c (s ++ "") = String c s). rewrite IH. reflexivity.
Qed.

Lemma be_value_bound bs acc :
  Forall (fun b => (b < 256)%N) bs ->
  (fold_left (fun a b => a * 256 + b) bs acc <
   (acc + 1) * 256 ^ N.of_nat (length bs))%N.
Proof.
  intros Hb. revert acc. induction Hb as [|b bs Hb _ IH]; intros acc.
  - simpl. lia.
  - cbn [fold_left length]. rewrite Nat2N.inj_succ, N.pow_succ_r'.
    eapply N.lt_le_trans; [apply IH |].
    set (p := (256 ^ N.of_nat (length bs))%N). nia.
Qed.

(** X13.  The salt the circuit receives is a canonical field element for
    every salt string: [0x] and 62 hex digits whose value is below 2^248, and
    2^248 is below the modulus of the BN254 scalar field. *)
Theorem salt_field_is_canonical salt :
  startsWith "0x" (saltField_of salt) = true /\
  String.length (saltField_of salt) = 64%nat /\
  (parseInt16_from 0 (slice_from 2 (saltField_of salt)) < 2 ^ 248)%N /\
  (2 ^ 248 < BN254_FR)%N.
Proof.
  unfold saltField_of. cbv zeta.
  generalize (encode salt). intros msg.
  pose proof (sha256_octets msg) as Ho.
  pose proof (sha256_length msg) as Hl.
  set (bs := firstn 31 (Sha256.sha256 msg)).
  assert (Hbo : Forall (fun b => (b < 256)%N) bs)
    by (apply Forall_take; exact Ho).
  assert (Hbl : length bs = 31%nat)
    by (unfold bs; rewrite length_take, Hl; reflexivity).
  rewrite (hex_of_octets bs Hbo). fold (hex_text bs).
  split; [apply ComponentFacts.prefix_append |].
  split.
  { change ("0x" ++ hex_text bs) with (String "0" (String "x" (hex_text bs))).
    cbn [String.length]. rewrite hex_text_length, Hbl. reflexivity. }
  split; [| reflexivity].
  rewrite slice_from_0x.
  rewrite <- (append_empty_r (hex_text bs)).
  rewrite (parseInt16_hex_text bs "" 0%N Hbo). cbn [parseInt16_from].
  pose proof (be_value_bound bs 0%N Hbo) as Hlt.
  rewrite Hbl in Hlt. exact Hlt.
Qed.

(** ** The public inputs of a generated proof *)

Lemma substring_hex_text bs i b :
  bs !! i = Some b ->
  String.substring (i * 2) 2 (hex_text bs) = hex2 b.
Proof.
  revert bs. induction i as [|i IH]; intros [|b' bs] Hi; try discriminate Hi.
  - injection Hi as ->. rewrite hex_text_cons.
    cbn [Nat.mul String.substring]. destruct (hex_text bs); reflexivity.
  - rewrite hex_text_cons.
    change (S i * 2)%nat with (S (S (i * 2))).
    cbn [String.substring]. apply IH. exact Hi.
Qed.

Lemma slice_hex_text bs i b :
  bs !! i = Some b ->
  slice (i * 2) (i * 2 + 2) (hex_text bs) = hex2 b.
Proof.
  intros Hi. unfold slice. rewrite hex_text_length.
  pose proof (lookup_lt_Some _ _ _ Hi) as Li.
  replace (Nat.min (i * 2 + 2) (2 * length bs) - i * 2)%nat with 2%nat by lia.
  apply substring_hex_text. exact Hi.
Qed.

Lemma parseInt16_u8_hex2 b : (b < 256)%N -> parseInt16_u8 (hex2 b) = b.
Proof.
  intros Hb. unfold parseInt16_u8, hex2. cbn [parseInt16_from].
  rewrite !hex_value_digit.
  - pose proof (N.div_mod b 16 ltac:(discriminate)) as E.
    rewrite N.mod_small; lia.
  - apply N.mod_lt. discriminate.
  - apply N.Div0.div_lt_upper_bound. lia.
Qed.

Lemma bytes_of_hex_text bs :
  Forall (fun b => (b < 256)%N) bs ->
  map (fun i => parseInt16_u8 (slice (i * 2) (i * 2 + 2) (hex_text bs)))
      (seq 0 (length bs)) = bs.
Proof.
  intros Hb. apply list_eq. intros i.
  change (map ?f ?l) with (f <$> l). rewrite list_lookup_fmap.
  destruct (bs !! i) as [b|] eqn:Hi.
  - pose proof (lookup_lt_Some _ _ _ Hi) as Li.
    rewrite lookup_seq_lt by exact Li. cbn [fmap option_fmap option_map Nat.add].
    rewrite (slice_hex_text bs i b Hi). f_equal.
    apply parseInt16_u8_hex2.
    rewrite Forall_lookup in Hb. exact (Hb i b Hi).
  - apply lookup_ge_None in Hi.
    rewrite lookup_seq_ge by exact Hi. reflexivity.
Qed.

Lemma padStart_full n c s :
  (n <= String.length s)%nat -> padStart n c s = s.
Proof.
  intros Hn. unfold padStart.
  replace (n - String.length s)%nat with 0%nat by lia. reflexivity.
Qed.

(** What [computePedersenCommitment] returns is the 64 hex digits of the
    third public input of the first proof. *)
Lemma computePedersenCommitment_hex
    (Witness : Type) (execute : CircuitInputs -> option Witness)
    (generateProof : Witness -> option (Bytes * list Fr))
    deck saltField h :
  computePedersenCommitment Witness execute generateProof deck saltField
    = Some h ->
  exists c : Fr, h = hex_text (Sha256.be_bytes 32 (fr_val c)).
Proof.
  unfold computePedersenCommitment.
  destruct (deck !! 0%nat) as [first|]; [| discriminate].
  match goal with
  | |- context [execute ?i] => destruct (execute i) as [w|]; [| discriminate]
  end.
  destruct (generateProof w) as [[pr pis]|]; [| discriminate].
  destruct (pis !! 2%nat) as [c|]; [| discriminate].
  intros [= <-]. exists c. unfold fr_to_hex.
  rewrite (hex_of_octets _ (be_bytes_octets 32 (fr_val c))).
  fold (hex_text (Sha256.be_bytes 32 (fr_val c))).
  unfold startsWith. rewrite ComponentFacts.prefix_append, slice_from_0x.
  apply padStart_full. rewrite hex_text_length, be_bytes_length. lia.
Qed.

(** The commitment text and the public inputs [generateNoirProof] returns,
    in terms of the field element read back from the circuit. *)
Lemma generateNoirProof_inputs
    (Witness : Type) (execute : CircuitInputs -> option Witness)
    (generateProof : Witness -> option (Bytes * list Fr))
    deck salt position revealedValue r :
  generateNoirProof Witness execute generateProof deck salt
    position revealedValue = Some r ->
  exists c : Fr,
    np_commitment r = hex_text (Sha256.be_bytes 32 (fr_val c)) /\
    np_publicInputs r =
      [u32_be_at_28 position; Sha256.be_bytes 32 (fr_val c);
       u32_be_at_28 revealedValue].
Proof.
  unfold generateNoirProof. cbv zeta.
  generalize (saltField_of salt). intros saltField.
  destruct (computePedersenCommitment _ _ _ deck saltField)
    as [commitmentHex|] eqn:Ec; [| discriminate].
  match goal with
  | |- context [execute ?i] => destruct (execute i) as [w|]; [| discriminate]
  end.
  destruct (generateProof w) as [[pr pis]|]; [| discriminate].
  intros [= <-]. cbn [np_publicInputs np_commitment].
  apply computePedersenCommitment_hex in Ec as (c & ->).
  exists c. split; [reflexivity |].
  pose proof (bytes_of_hex_text _ (be_bytes_octets 32 (fr_val c))) as Hm.
  rewrite be_bytes_length in Hm.
  refine (f_equal (fun x => [_; x; _]) _). exact Hm.
Qed.

Lemma hexToBuffer_hex_text bs :
  Forall (fun b => (b < 256)%N) bs -> hexToBuffer (hex_text bs) = bs.
Proof.
  intros Hb. unfold hexToBuffer. rewrite hex_text_no_prefix.
  apply buffer_from_hex_text, Hb.
Qed.

(** X14.  When [generateNoirProof] returns, its three public inputs are 32
    octets each, in the order position, commitment, value; the commitment
    octets are the ones its commitment text spells ([hexToBuffer] of the text
    gives the same octets), and they hold a canonical field element. *)
Theorem noir_public_inputs_layout
    (Witness : Type) (execute : CircuitInputs -> option Witness)
    (generateProof : Witness -> option (Bytes * list Fr))
    deck salt position revealedValue r :
  generateNoirProof Witness execute generateProof deck salt
    position revealedValue = Some r ->
  exists c,
    np_publicInputs r =
      [u32_be_at_28 position; c; u32_be_at_28 revealedValue] /\
    length c = 32%nat /\
    c = hexToBuffer (np_commitment r) /\
    np_commitment r = hex_of_bytes c /\
    (Sha256.be_value c < BN254_FR)%N.
Proof.
  intros E.
  apply generateNoirProof_inputs in E as (c & -> & ->).
  pose proof (be_bytes_octets 32 (fr_val c)) as Ho.
  exists (Sha256.be_bytes 32 (fr_val c)).
  split; [reflexivity |].
  split; [apply be_bytes_length |].
  split; [symmetry; apply hexToBuffer_hex_text, Ho |].
  split; [rewrite (hex_of_octets _ Ho); reflexivity |].
  unfold Sha256.be_value. rewrite fold_be_bytes.
  pose proof (fr_canonical c) as Hc. apply N.ltb_lt in Hc.
  eapply N.le_lt_trans; [| exact Hc].
  rewrite N.mul_0_l, N.add_0_l. apply N.Div0.mod_le.
Qed.

Lemma noir_public_inputs_layout_witness :
  exists c,
    np_publicInputs
      {| np_proof := [];
         np_publicInputs :=
           [u32_be_at_28 2; Sha256.be_bytes 32 5; u32_be_at_28 0];
         np_commitment := hex_of_bytes (Sha256.be_bytes 32 5) |} =
      [u32_be_at_28 2; c; u32_be_at_28 0] /\
    length c = 32%nat /\
    c = hexToBuffer (hex_of_bytes (Sha256.be_bytes 32 5)) /\
    hex_of_bytes (Sha256.be_bytes 32 5) = hex_of_bytes c /\
    (Sha256.be_value c < BN254_FR)%N.
Proof.
  apply (noir_public_inputs_layout unit (fun _ => Some tt)
           (fun _ => Some ([], [five; five; five])) [0; 1; 0; 1]%N "s" 2 0).
  vm_compute. reflexivity.
Defined.

(** X25.  The two ways of making public inputs.  When [generateNoirProof]
    returns for a position and a value that fit 32 bits, its public inputs
    are the ones [generateMockPublicInputs] makes of the same position, the
    returned commitment text and the same value.  For a position or a value
    above 2^32 - 1 the two part: [generateNoirProof] writes the number modulo
    2^32 ([DataView.setUint32]), [generateMockPublicInputs] throws a
    [RangeError] ([writeUInt32BE]). *)
Theorem mock_inputs_agree_with_noir
    (Witness : Type) (execute : CircuitInputs -> option Witness)
    (generateProof : Witness -> option (Bytes * list Fr))
    deck salt position revealedValue r :
  generateNoirProof Witness execute generateProof deck salt
    position revealedValue = Some r ->
  ((position < 2 ^ 32)%N -> (revealedValue < 2 ^ 32)%N ->
   generateMockPublicInputs position (np_commitment r) revealedValue =
   inl (np_publicInputs r)) /\
  ((2 ^ 32 <= position)%N \/ (2 ^ 32 <= revealedValue)%N ->
   exists v,
     (2 ^ 32 <= v)%N /\
     generateMockPublicInputs position (np_commitment r) revealedValue =
     inr v) /\
  (exists p c v,
     np_publicInputs r = [p; c; v] /\
     Sha256.be_value p = (position mod 2 ^ 32)%N /\
     Sha256.be_value v = (revealedValue mod 2 ^ 32)%N).
Proof.
  intros E.
  apply generateNoirProof_inputs in E as (c & -> & ->).
  split; [| split];
    [| | do 3 eexists; split; [reflexivity |];
         rewrite !u32_be_at_28_value; auto].
  - intros Hp Hv.
    rewrite (generateMockPublicInputs_in_range _ _ _ Hp Hv).
    rewrite (hexToBuffer_hex_text _ (be_bytes_octets 32 (fr_val c))).
    reflexivity.
  - intros H. unfold generateMockPublicInputs.
    destruct (N.lt_ge_cases position (2 ^ 32)) as [Hp | Hp].
    + destruct H as [H | Hv]; [lia |].
      rewrite (writeUInt32BE_in_range _ Hp), (writeUInt32BE_out_of_range _ Hv).
      eauto.
    + rewrite (writeUInt32BE_out_of_range _ Hp). eauto.
Qed.

Lemma mock_inputs_agree_with_noir_witness :
  generateMockPublicInputs 2
    (hex_of_bytes (Sha256.be_bytes 32 5)) 0 =
  inl [u32_be_at_28 2; Sha256.be_bytes 32 5; u32_be_at_28 0].
Proof.
  refine (proj1
    (mock_inputs_agree_with_noir unit (fun _ => Some tt)
       (fun _ => Some ([], [five; five; five])) [0; 1; 0; 1]%N "s" 2 0
       {| np_proof := [];
          np_publicInputs :=
            [u32_be_at_28 2; Sha256.be_bytes 32 5; u32_be_at_28 0];
          np_commitment := hex_of_bytes (Sha256.be_bytes 32 5) |} _) _ _).
  - vm_compute. reflexivity.
  - reflexivity.
  - reflexivity.
Defined.

End ClientMore.

(** * Further properties of the game component *)

Module ComponentMore.
Import JS Client Component ComponentView ComponentFacts.
Open Scope string_scope.

(** ** Traces only grow, and what is thrown *)

(** A thrown value that is an [Error] object. *)
Definition is_error (e : Thrown) : Prop := exists msg, e = ErrorObj msg.

(** [e] is one of the values the wallet or the service rejects with. *)
Definition rejection (w : World) (e : Thrown) : Prop :=
  w_getContractSigner w = Some e \/
  (exists sid p1 p2 a b buf, w_prepareStartGame w sid p1 p2 a b buf = inr e) \/
  (exists n, w_flipCard w n = Some e) \/
  (exists n, w_getGame w n = inr e).

(** The wallet and the service reject with [Error] objects only. *)
Definition rejects_with_errors (w : World) : Prop :=
  forall e, rejection w e -> is_error e.

(** [m] appends to the trace, and what it throws is an [Error] object or a
    rejection of the wallet or the service. *)
Definition tidy {A} (w : World) (m : C A) : Prop :=
  forall r r' res, m r = (r', res) ->
    (exists added, events r' = (events r ++ added)%list) /\
    (forall e, res = Throw e -> is_error e \/ rejection w e).

Lemma tidy_ret {A} w (a : A) : tidy w (ret a).
Proof.
  intros r r' res [= <- <-]. split; [exists []; rewrite app_nil_r; reflexivity |].
  discriminate.
Qed.

Lemma tidy_throw {A} w msg : tidy w (@throw A (ErrorObj msg)).
Proof.
  intros r r' res [= <- <-]. split; [exists []; rewrite app_nil_r; reflexivity |].
  intros e [= <-]. left. exists msg. reflexivity.
Qed.

Lemma tidy_rethrow {A} w e :
  is_error e \/ rejection w e -> tidy w (@throw A e).
Proof.
  intros He r r' res [= <- <-].
  split; [exists []; rewrite app_nil_r; reflexivity |].
  intros e' [= <-]. exact He.
Qed.

Lemma tidy_emit w e : tidy w (emit e).
Proof.
  intros r r' res [= <- <-]. split; [exists [e]; reflexivity | discriminate].
Qed.

Lemma tidy_getGame w sid : tidy w (getGame w sid).
Proof.
  intros r r' res. unfold getGame.
  destruct (w_getGame w (get_calls r)) as [g | e0] eqn:Eg; intros [= <- <-];
    (split; [eexists; reflexivity |]); [discriminate |].
  intros e [= <-]. right. right. right. right. eauto.
Qed.

Lemma tidy_flipCard w sid pl pos rv pr pis :
  tidy w (flipCard w sid pl pos rv pr pis).
Proof.
  intros r r' res. unfold flipCard.
  destruct (w_flipCard w (flip_calls r)) as [e0|] eqn:Ef; intros [= <- <-];
    (split; [eexists; reflexivity |]); [| discriminate].
  intros e [= <-]. right. right. right. left. eauto.
Qed.

Lemma tidy_getContractSigner w : tidy w (getContractSigner w).
Proof.
  unfold getContractSigner.
  destruct (w_getContractSigner w) as [e0|] eqn:Es; [| apply tidy_ret].
  apply tidy_rethrow. right. left. exact Es.
Qed.

Lemma tidy_bind {A B} w (m : C A) (k : A -> C B) :
  tidy w m -> (forall a, tidy w (k a)) -> tidy w (bind m k).
Proof.
  intros Hm Hk r r' res. unfold bind.
  destruct (m r) as [r1 [a|e]] eqn:Em; intros E.
  - destruct (Hm _ _ _ Em) as ((ad1 & E1) & _).
    destruct (Hk a _ _ _ E) as ((ad2 & E2) & Ht).
    split; [| exact Ht].
    exists (ad1 ++ ad2)%list. rewrite E2, E1, app_assoc. reflexivity.
  - injection E as <- <-. destruct (Hm _ _ _ Em) as (Hg & Ht).
    split; [exact Hg |]. intros e' [= <-]. apply Ht. reflexivity.
Qed.

Lemma tidy_try_catch {A} w (m : C A) (h : Thrown -> C A) :
  tidy w m -> (forall e, tidy w (h e)) -> tidy w (try_catch m h).
Proof.
  intros Hm Hh r r' res. unfold try_catch.
  destruct (m r) as [r1 [a|e]] eqn:Em; intros E.
  - injection E as <- <-. destruct (Hm _ _ _ Em) as (Hg & _).
    split; [exact Hg | discriminate].
  - destruct (Hm _ _ _ Em) as ((ad1 & E1) & _).
    destruct (Hh e _ _ _ E) as ((ad2 & E2) & Ht2).
    split; [| exact Ht2].
    exists (ad1 ++ ad2)%list. rewrite E2, E1, app_assoc. reflexivity.
Qed.

Lemma tidy_bind_throw {A B} w msg (k : A -> C B) :
  tidy w (bind (throw (ErrorObj msg)) k).
Proof.
  intros r r' res [= <- <-].
  split; [exists []; rewrite app_nil_r; reflexivity |].
  intros e [= <-]. left. exists msg. reflexivity.
Qed.

Lemma tidy_message_or w e fallback : tidy w (message_or e fallback).
Proof. destruct e; [apply tidy_ret | apply tidy_throw ..]. Qed.

Lemma tidy_prepareStartGame w sid p1 p2 a b c :
  tidy w (prepareStartGame w sid p1 p2 a b c).
Proof.
  unfold prepareStartGame.
  apply tidy_bind; [apply tidy_emit | intros _].
  destruct (w_prepareStartGame w sid p1 p2 a b c) as [xdr | e0] eqn:Ep;
    [apply tidy_ret |].
  apply tidy_rethrow. right. right. left. eauto 10.
Qed.

Create HintDb tidy_db.

#[local] Hint Resolve tidy_ret tidy_throw tidy_emit tidy_getGame tidy_flipCard
  tidy_getContractSigner tidy_prepareStartGame tidy_message_or : tidy_db.

(** Splits [tidy] along the structure of a computation. *)
Ltac tidy_step :=
  first
    [ solve [auto with tidy_db]
    | apply tidy_bind; [| intros ?]
    | match goal with
      | |- tidy _ (if ?c then _ else _) => destruct c
      | |- tidy _ (match ?o with Some _ => _ | None => _ end) => destruct o
      | |- tidy _ (when ?c _) => destruct c; unfold when
      end ].

Lemma tidy_refresh w p n i g : tidy w (refresh w p n i g).
Proof.
  revert i g. induction n as [|n IH]; intros i g; cbn [refresh].
  - apply tidy_ret.
  - apply tidy_bind; [apply tidy_getGame | intros [g'|]]; [| apply IH].
    destruct (_ && _); [apply tidy_ret |].
    apply tidy_bind; [| intros _; apply IH].
    unfold when. destruct (i <? 2)%N; auto with tidy_db.
Qed.

Lemma tidy_after_submit w (p : Props) (game : option GameState) :
  tidy w (match game with
          | Some g =>
              emit (SetGameState g) >>
              if (Contract.pairs_found g =? 2)%N then
                emit SetGamePhaseComplete >>
                emit (SetSuccess (Some ("Game complete! Winner: " ++ winner_text g)))
              else
                emit (SetSuccess (Some ("Card flipped! " ++
                  (if String.eqb (Contract.current_turn g) (userAddress p)
                   then "Still your turn!" else "Opponent's turn now."))))
          | None => ret tt
          end).
Proof. repeat tidy_step. Qed.

Lemma tidy_submit_once w p pos rv pr pis :
  tidy w (submit_once w p pos rv pr pis).
Proof.
  unfold submit_once.
  apply tidy_bind; [apply tidy_flipCard | intros _].
  apply tidy_bind; [apply tidy_emit | intros _].
  apply tidy_bind; [apply tidy_emit | intros _].
  apply tidy_bind; [apply tidy_refresh | intros g].
  apply (tidy_after_submit w p g).
Qed.

(** The [throw lastError] behind the loop is reached only when the loop is
    entered with no retries left; the handler enters it with three. *)
Lemma tidy_retry_loop w p n last pos rv pr pis :
  (n = 0%nat -> is_error last) ->
  tidy w (retry_loop w p n last pos rv pr pis).
Proof.
  revert last. induction n as [|n IH]; intros last Hl.
  - apply tidy_rethrow. left. apply Hl. reflexivity.
  - cbn [retry_loop]. apply tidy_try_catch; [apply tidy_submit_once |].
    intros [msg | |]; cbn [message_or]; [| apply tidy_bind_throw ..].
    apply tidy_bind; [apply tidy_ret | intros errorMsg].
    destruct (is_transient errorMsg && _).
    + apply tidy_bind; [apply tidy_emit | intros _].
      apply IH. intros _. exists msg. reflexivity.
    + repeat tidy_step.
Qed.

(** ** The handlers settle *)

Definition push (r : Run) (evs : list Event) : Run :=
  mkRun (flip_calls r) (get_calls r) (events r ++ evs).

Lemma emit_bind {A} e (k : C A) r : (emit e >> k) r = k (push r [e]).
Proof. reflexivity. Qed.

Lemma push_push r a b : push (push r a) b = push r (a ++ b).
Proof. unfold push. cbn [flip_calls get_calls events]. rewrite app_assoc. reflexivity. Qed.

(** The message of the [TypeError] thrown on reading [err.message] of a
    rejection that is [null] or [undefined]. *)
Definition cannot_read_message (e : Thrown) : string :=
  match e with
  | ErrorObj _ => ""
  | NullValue => "Cannot read properties of null (reading 'message')"
  | UndefinedValue =>
      "Cannot read properties of undefined (reading 'message')"
  end.

(** How a handler ends when the body of its [try] ends with [res]. *)
Definition settled (res : result unit) : result unit :=
  match res with
  | Throw NullValue => Throw (ErrorObj (cannot_read_message NullValue))
  | Throw UndefinedValue =>
      Throw (ErrorObj (cannot_read_message UndefinedValue))
  | _ => Done tt
  end.

(** What the [catch] block shows when the body ends with [res]. *)
Definition shown (fallback : string) (f : string -> string)
    (res : result unit) : list Event :=
  match res with
  | Throw (ErrorObj msg) =>
      [SetError (Some (f (if String.eqb msg "" then fallback else msg)))]
  | _ => []
  end.

(** [try { m } catch (err) { setError(f(err.message || fallback)) }
     finally { setLoading(false); actionLock.current = false }] *)
Lemma guarded_run (m : C unit) fallback (f : string -> string) r :
  finally
    (try_catch m
       (fun err =>
          do msg <- message_or err fallback;
          emit (SetError (Some (f msg)))))
    (emit (SetLoading false) >> emit (SetActionLock false)) r =
  (push (fst (m r))
     (shown fallback f (snd (m r)) ++ [SetLoading false; SetActionLock false]),
   settled (snd (m r))).
Proof.
  unfold finally, try_catch, push.
  destruct (m r) as [r1 [[]|[msg | |]]];
    unfold bind, emit, message_or, ret, throw;
    cbn [flip_calls get_calls events fst snd shown settled app];
    rewrite <- ?app_assoc; reflexivity.
Qed.

Lemma shown_cases fallback f res :
  shown fallback f res = [] \/
  exists msg, shown fallback f res = [SetError (Some msg)].
Proof. destruct res as [[]|[msg | |]]; cbn [shown]; eauto. Qed.

(** A handler throws out of its [catch] only for a rejection that is no
    [Error] object. *)
Lemma settled_cases w (m : C unit) r :
  tidy w m ->
  settled (snd (m r)) = Done tt \/
  exists e,
    rejection w e /\ ~ is_error e /\
    settled (snd (m r)) = Throw (ErrorObj (cannot_read_message e)).
Proof.
  intros Hm. destruct (m r) as [r1 res] eqn:Em. cbn [snd].
  destruct (Hm _ _ _ Em) as (_ & Ht).
  destruct res as [[]|[msg | |]]; cbn [settled]; [left; reflexivity .. | |].
  - right. exists NullValue.
    destruct (Ht _ eq_refl) as [(m0 & [=]) | Hr].
    split; [exact Hr |]. split; [intros (m0 & [=]) | reflexivity].
  - right. exists UndefinedValue.
    destruct (Ht _ eq_refl) as [(m0 & [=]) | Hr].
    split; [exact Hr |]. split; [intros (m0 & [=]) | reflexivity].
Qed.

(** The body of [handleFlipCard] inside its [try]. *)
Definition flip_body (w : World) (p : Props) (position : N) : C unit :=
  let revealedValue := deck p !! N.to_nat position in
  match
    generateMockPublicInputs position (commitment p)
      (default 0%N revealedValue)
  with
  | inr v => throw (ErrorObj (w_rangeErrorMessage w v))
  | inl publicInputs =>
      getContractSigner w >>
      retry_loop w p 3 NullValue position revealedValue generateMockProof
        publicInputs
  end.

Lemma tidy_flip_body w p pos : tidy w (flip_body w p pos).
Proof.
  unfold flip_body. cbv zeta.
  destruct (generateMockPublicInputs _ _ _) as [pis | v]; [| apply tidy_throw].
  apply tidy_bind; [apply tidy_getContractSigner | intros _].
  apply tidy_retry_loop. discriminate.
Qed.

(** The body of [handleCreateGame] inside its [try]. *)
Definition create_body (w : World) (p : Props) : C unit :=
  let cd := w_createCommittedDeck w in
  emit (SetDeck (cd_deck cd)) >>
  emit (SetSalt (cd_salt cd)) >>
  emit (SetCommitment (cd_commitment cd)) >>
  match parsePoints (player1Points p), parsePoints (player2Points p) with
  | Some p1, Some p2 =>
      if falsy_points (parsePoints (player1Points p)) ||
         falsy_points (parsePoints (player2Points p))
      then throw (ErrorObj "Invalid points amount")
      else if String.eqb (player2Address p) ""
      then throw (ErrorObj "Player 2 address is required")
      else
        getContractSigner w >>
        do authEntryXDR <-
          prepareStartGame w (sessionId p) (player1Address p)
            (player2Address p) p1 p2 (hexToBuffer (cd_commitment cd));
        emit (SetExportedAuthEntryXDR authEntryXDR) >>
        emit (SetExportedDeckData
                (stringify_deck_data (cd_deck cd) (cd_salt cd)
                   (cd_commitment cd))) >>
        emit (SetSuccess (Some
          "Game prepared! Player 1 (you) will go first. Share both the auth entry AND deck data with Player 2."))
  | _, _ => throw (ErrorObj "Invalid points amount")
  end.

Lemma tidy_create_body w p : tidy w (create_body w p).
Proof.
  unfold create_body. cbv zeta.
  do 3 (apply tidy_bind; [apply tidy_emit | intros _]).
  destruct (parsePoints (player1Points p)) as [p1|];
    destruct (parsePoints (player2Points p)) as [p2|];
    try apply tidy_throw.
  repeat tidy_step.
Qed.



(** A wallet that rejects with [null]. *)
Definition null_wallet_world : World :=
  {| w_createCommittedDeck := deal1;
     w_getContractSigner := Some NullValue;
     w_prepareStartGame := fun _ _ _ _ _ _ => inl "AAAAAQ==";
     w_flipCard := fun _ => None;
     w_getGame := fun _ => inl None;
     w_rangeErrorMessage := fun _ => "RangeError" |}.

(** With such a wallet both handlers throw the [TypeError] of their [catch]
    block, and release the lock. *)
Example null_rejection_is_thrown :
  snd (handleCreateGame null_wallet_world dealer_props start) =
    Throw (ErrorObj "Cannot read properties of null (reading 'message')") /\
  last (events (fst (handleCreateGame null_wallet_world dealer_props start))) =
    Some (SetActionLock false) /\
  snd (handleFlipCard null_wallet_world player_props 1 start) =
    Throw (ErrorObj "Cannot read properties of null (reading 'message')") /\
  last (events (fst (handleFlipCard null_wallet_world player_props 1 start))) =
    Some (SetActionLock false).
Proof. repeat split; vm_compute; reflexivity. Qed.

(** ** What a use of [handleFlipCard] submits *)

Lemma bind_Done {A B} (m : C A) (k : A -> C B) r r1 a :
  m r = (r1, Done a) -> bind m k r = k a r1.
Proof. intros E. unfold bind. rewrite E. reflexivity. Qed.

Lemma bind_Throw {A B} (m : C A) (k : A -> C B) r r1 e :
  m r = (r1, Throw e) -> bind m k r = (r1, Throw e).
Proof. intros E. unfold bind. rewrite E. reflexivity. Qed.

(** The [catch] block inside the retry loop, entered with [retries' + 1]
    retries left. *)
Definition retry_handler (w : World) (p : Props) (retries' : nat)
    (position : N) (revealedValue : option N) (proof : Bytes)
    (publicInputs : list Bytes) (err : Thrown) : C unit :=
  do errorMsg <- message_or err "Error";
  if is_transient errorMsg && (1 <? N.of_nat (S retries'))%N then
    emit (Wait (1000 * (4 - N.of_nat retries'))) >>
    retry_loop w p retries' err position revealedValue proof publicInputs
  else if is_not_your_turn errorMsg then
    do game <- getGame w (sessionId p);
    match game with
    | Some g => emit (SetGameState g)
    | None => ret tt
    end >>
    throw (ErrorObj
      "Game state was stale. Please try again - it should be your turn now.")
  else throw err.

Lemma retry_loop_S w p n last pos rv pr pis :
  retry_loop w p (S n) last pos rv pr pis =
  try_catch (submit_once w p pos rv pr pis) (retry_handler w p n pos rv pr pis).
Proof. reflexivity. Qed.

Lemma tidy_retry_handler w p n pos rv pr pis e :
  tidy w (retry_handler w p n pos rv pr pis e).
Proof.
  unfold retry_handler. destruct e as [msg | |]; cbn [message_or];
    [| apply tidy_bind_throw ..].
  apply tidy_bind; [apply tidy_ret | intros errorMsg].
  destruct (is_transient errorMsg && _).
  - apply tidy_bind; [apply tidy_emit | intros _].
    apply tidy_retry_loop. intros _. exists msg. reflexivity.
  - repeat tidy_step.
Qed.

(** What follows the submission inside [submit_once]. *)
Definition confirm (w : World) (p : Props) : C unit :=
  emit (SetSuccess (Some "Card flipped! Waiting for blockchain confirmation...")) >>
  emit (Wait 1500) >>
  do game <- refresh w p 3 0%N None;
  match game with
  | Some g =>
      emit (SetGameState g) >>
      if (Contract.pairs_found g =? 2)%N then
        emit SetGamePhaseComplete >>
        emit (SetSuccess (Some ("Game complete! Winner: " ++ winner_text g)))
      else
        emit (SetSuccess (Some ("Card flipped! " ++
          (if String.eqb (Contract.current_turn g) (userAddress p)
           then "Still your turn!" else "Opponent's turn now."))))
  | None => ret tt
  end.

Lemma submit_once_confirm w p pos rv pr pis :
  submit_once w p pos rv pr pis =
  (flipCard w (sessionId p) (userAddress p) pos rv pr pis >> confirm w p).
Proof. reflexivity. Qed.

Lemma tidy_confirm w p : tidy w (confirm w p).
Proof.
  unfold confirm.
  apply tidy_bind; [apply tidy_emit | intros _].
  apply tidy_bind; [apply tidy_emit | intros _].
  apply tidy_bind; [apply tidy_refresh | intros g].
  apply (tidy_after_submit w p g).
Qed.

Definition submitted (r : Run) (call : Event) : Run :=
  mkRun (S (flip_calls r)) (get_calls r) (events r ++ [call]).

Lemma flipCard_run w sid pl pos rv pr pis r :
  flipCard w sid pl pos rv pr pis r =
  (submitted r (CallFlipCard sid pl pos rv pr pis),
   match w_flipCard w (flip_calls r) with
   | None => Done tt
   | Some e => Throw e
   end).
Proof. unfold flipCard. destruct (w_flipCard w (flip_calls r)); reflexivity. Qed.

Lemma submit_once_events w p pos rv pr pis r r' res :
  submit_once w p pos rv pr pis r = (r', res) ->
  exists added,
    events r' =
    (events r ++
     CallFlipCard (sessionId p) (userAddress p) pos rv pr pis :: added)%list.
Proof.
  rewrite submit_once_confirm. unfold bind. rewrite flipCard_run.
  destruct (w_flipCard w (flip_calls r)).
  - intros [= <- _]. exists []. reflexivity.
  - intros E. destruct (tidy_confirm w p _ _ _ E) as ((ad & Ead) & _).
    exists ad. rewrite Ead. cbn [submitted events].
    rewrite <- app_assoc. reflexivity.
Qed.

(** A loop entered with a retry left submits the flip. *)
Lemma retry_loop_submits w p n last pos rv pr pis r r' res :
  retry_loop w p (S n) last pos rv pr pis r = (r', res) ->
  exists added,
    events r' =
    (events r ++
     CallFlipCard (sessionId p) (userAddress p) pos rv pr pis :: added)%list.
Proof.
  rewrite retry_loop_S. unfold try_catch.
  destruct (submit_once w p pos rv pr pis r) as [r1 [[]|e]] eqn:Es;
    destruct (submit_once_events _ _ _ _ _ _ _ _ _ Es) as (ad & Ead).
  - intros [= <- _]. eauto.
  - intros E.
    destruct (tidy_retry_handler w p n pos rv pr pis e _ _ _ E)
      as ((ad2 & Ead2) & _).
    exists (ad ++ ad2)%list. rewrite Ead2, Ead, <- app_assoc. reflexivity.
Qed.

(** A refused submission ends the attempt with the one call. *)
Lemma submit_refused w p pos rv pr pis r e :
  w_flipCard w (flip_calls r) = Some e ->
  submit_once w p pos rv pr pis r =
  (submitted r (CallFlipCard (sessionId p) (userAddress p) pos rv pr pis),
   Throw e).
Proof.
  intros Hf. rewrite submit_once_confirm. unfold bind.
  rewrite flipCard_run, Hf. reflexivity.
Qed.

Lemma retries_left n : (1 <? N.of_nat (S (S n)))%N = true.
Proof. apply N.ltb_lt. lia. Qed.

(** An attempt that fails with a transient error while a retry is left: the
    loop waits and goes round again. *)
Lemma attempt_retried w p n last pos rv pr pis r r1 msg :
  submit_once w p pos rv pr pis r = (r1, Throw (ErrorObj msg)) ->
  is_transient (inspected msg) = true ->
  retry_loop w p (S (S n)) last pos rv pr pis r =
  retry_loop w p (S n) (ErrorObj msg) pos rv pr pis
    (push r1 [Wait (1000 * (4 - N.of_nat (S n)))]).
Proof.
  intros Es Ht. rewrite retry_loop_S. unfold try_catch. rewrite Es.
  unfold retry_handler. cbn [message_or]. fold (inspected msg).
  unfold bind at 1, ret at 1. rewrite Ht, retries_left. cbn [andb].
  rewrite emit_bind. reflexivity.
Qed.

(** An attempt that fails with an error the loop does not retry, other than
    [NotYourTurn]: the error leaves the loop as it is. *)
Lemma attempt_surfaced w p n last pos rv pr pis r r1 msg :
  submit_once w p pos rv pr pis r = (r1, Throw (ErrorObj msg)) ->
  is_transient (inspected msg) = false \/ n = 0%nat ->
  is_not_your_turn (inspected msg) = false ->
  retry_loop w p (S n) last pos rv pr pis r = (r1, Throw (ErrorObj msg)).
Proof.
  intros Es Ht Hn. rewrite retry_loop_S. unfold try_catch. rewrite Es.
  unfold retry_handler. cbn [message_or]. fold (inspected msg).
  unfold bind at 1, ret at 1. rewrite Hn.
  replace (is_transient (inspected msg) && (1 <? N.of_nat (S n))%N) with false;
    [reflexivity |].
  destruct Ht as [-> | ->]; [reflexivity |].
  rewrite andb_false_r. reflexivity.
Qed.

(** An attempt that fails with [NotYourTurn]: the session is read once more
    and the stale-state error leaves the loop. *)
Lemma attempt_stale w p n last pos rv pr pis r r1 msg og :
  submit_once w p pos rv pr pis r = (r1, Throw (ErrorObj msg)) ->
  is_transient (inspected msg) = false \/ n = 0%nat ->
  is_not_your_turn (inspected msg) = true ->
  w_getGame w (get_calls r1) = inl og ->
  retry_loop w p (S n) last pos rv pr pis r =
  (mkRun (flip_calls r1) (S (get_calls r1))
     (events r1 ++ CallGetGame (sessionId p) ::
      match og with Some g => [SetGameState g] | None => [] end),
   Throw (ErrorObj
     "Game state was stale. Please try again - it should be your turn now.")).
Proof.
  intros Es Ht Hn Hg. rewrite retry_loop_S. unfold try_catch. rewrite Es.
  unfold retry_handler. cbn [message_or]. fold (inspected msg).
  unfold bind at 1, ret at 1. rewrite Hn.
  replace (is_transient (inspected msg) && (1 <? N.of_nat (S n))%N) with false
    by (destruct Ht as [-> | ->]; [reflexivity |];
        rewrite andb_false_r; reflexivity).
  unfold bind, getGame, emit, throw, ret. rewrite Hg.
  destruct og; cbn [push flip_calls get_calls events];
    rewrite <- ?app_assoc; reflexivity.
Qed.

(** The same three steps for a submission the service refuses. *)
Lemma refused_retried w p n last pos rv pr pis r msg :
  w_flipCard w (flip_calls r) = Some (ErrorObj msg) ->
  is_transient (inspected msg) = true ->
  retry_loop w p (S (S n)) last pos rv pr pis r =
  retry_loop w p (S n) (ErrorObj msg) pos rv pr pis
    (mkRun (S (flip_calls r)) (get_calls r)
       (events r ++
        [CallFlipCard (sessionId p) (userAddress p) pos rv pr pis;
         Wait (1000 * (4 - N.of_nat (S n)))])).
Proof.
  intros Ha Ht.
  rewrite (attempt_retried w p n last pos rv pr pis r _ msg
             (submit_refused w p pos rv pr pis r _ Ha) Ht).
  unfold push, submitted. cbn [flip_calls get_calls events].
  rewrite <- app_assoc. reflexivity.
Qed.

Lemma refused_surfaced w p n last pos rv pr pis r msg :
  w_flipCard w (flip_calls r) = Some (ErrorObj msg) ->
  is_transient (inspected msg) = false \/ n = 0%nat ->
  is_not_your_turn (inspected msg) = false ->
  retry_loop w p (S n) last pos rv pr pis r =
  (mkRun (S (flip_calls r)) (get_calls r)
     (events r ++ [CallFlipCard (sessionId p) (userAddress p) pos rv pr pis]),
   Throw (ErrorObj msg)).
Proof.
  intros Ha Ht Hn.
  exact (attempt_surfaced w p n last pos rv pr pis r _ msg
           (submit_refused w p pos rv pr pis r _ Ha) Ht Hn).
Qed.

Lemma refused_stale w p n last pos rv pr pis r msg og :
  w_flipCard w (flip_calls r) = Some (ErrorObj msg) ->
  is_transient (inspected msg) = false \/ n = 0%nat ->
  is_not_your_turn (inspected msg) = true ->
  w_getGame w (get_calls r) = inl og ->
  retry_loop w p (S n) last pos rv pr pis r =
  (mkRun (S (flip_calls r)) (S (get_calls r))
     (events r ++
      [CallFlipCard (sessionId p) (userAddress p) pos rv pr pis;
       CallGetGame (sessionId p)] ++
      match og with Some g => [SetGameState g] | None => [] end),
   Throw (ErrorObj
     "Game state was stale. Please try again - it should be your turn now.")).
Proof.
  intros Ha Ht Hn Hg.
  rewrite (attempt_stale w p n last pos rv pr pis r _ msg og
             (submit_refused w p pos rv pr pis r _ Ha) Ht Hn Hg).
  unfold submitted. cbn [flip_calls get_calls events].
  rewrite <- app_assoc. reflexivity.
Qed.

(** The flip [handleFlipCard] submits for a position whose card has the
    value [v], with a commitment that spells the octets [bs]. *)
Definition flip_call (p : Props) (position v : N) (bs : Bytes) : Event :=
  CallFlipCard (sessionId p) (userAddress p) position (Some v)
    generateMockProof [u32_be_at_28 position; bs; u32_be_at_28 v].

(** A commitment that spells the octets [bs] gives them back. *)
Lemma spelled_commitment p bs :
  commitment p = hex_of_bytes bs ->
  Forall (fun b => (b < 256)%N) bs ->
  hexToBuffer (commitment p) = bs.
Proof. intros -> Hb. apply (ClientMore.hexToBuffer_of_octets bs Hb). Qed.

(** The [catch] block of [handleFlipCard]: what it shows for a message. *)
Definition displayed (msg : string) : string :=
  let errorMsg := if String.eqb msg "" then "Failed to flip card" else msg in
  if includes "TRY_AGAIN_LATER" errorMsg
  then "Network is busy. Please try again in a moment."
  else errorMsg.

(** What the [catch] block of [handleFlipCard] shows when the body of the
    [try] ends with [res]. *)
Definition flip_shown (res : result unit) : list Event :=
  match res with
  | Throw (ErrorObj msg) => [SetError (Some (displayed msg))]
  | _ => []
  end.

(** Past its own guards, with public inputs and a signer at hand, the
    handler runs the retry loop between taking and releasing the lock. *)
Lemma handler_runs_loop w p pos gs card v r :
  actionLock p = false -> loading p = false ->
  gameState p = Some gs ->
  Contract.current_turn gs = userAddress p ->
  Contract.cards gs !! N.to_nat pos = Some card ->
  card <> Contract.Matched ->
  deck p !! N.to_nat pos = Some v ->
  (pos < 2 ^ 32)%N -> (v < 2 ^ 32)%N ->
  w_getContractSigner w = None ->
  let loop :=
    retry_loop w p 3 NullValue pos (Some v) generateMockProof
      [u32_be_at_28 pos; hexToBuffer (commitment p); u32_be_at_28 v]
      (push r [SetActionLock true; SetLoading true; SetError None]) in
  handleFlipCard w p pos r =
  (push (fst loop)
     (flip_shown (snd loop) ++ [SetLoading false; SetActionLock false]),
   settled (snd loop)).
Proof.
  intros Hl Hld Hgs Hturn Hcard Hm Hd Hp Hv Hs. cbv zeta.
  unfold handleFlipCard.
  rewrite Hl, Hld, Hgs, Hturn, String.eqb_refl, Hcard. cbn [orb negb].
  replace (Contract.CardState_eqb card Contract.Matched) with false
    by (destruct card; [reflexivity | congruence]).
  rewrite !emit_bind, !push_push. cbn [app].
  fold (flip_body w p pos).
  rewrite (guarded_run (flip_body w p pos) "Failed to flip card"
             (fun errorMsg =>
                if includes "TRY_AGAIN_LATER" errorMsg
                then "Network is busy. Please try again in a moment."
                else errorMsg)).
  unfold flip_body. cbv zeta.
  rewrite Hd. cbn [default].
  rewrite (ClientMore.generateMockPublicInputs_in_range _ _ _ Hp Hv).
  unfold getContractSigner. rewrite Hs.
  change (bind (ret tt) ?k ?r0) with (k tt r0). cbv beta.
  match goal with
  | |- context [retry_loop ?a ?b 3 ?c ?d ?e ?f ?g ?h] =>
      destruct (retry_loop a b 3 c d e f g h) as [r1 [[]|[msg | |]]]
  end; reflexivity.
Qed.

Lemma handler_submits w p pos gs card v bs r :
  actionLock p = false -> loading p = false ->
  gameState p = Some gs ->
  Contract.current_turn gs = userAddress p ->
  Contract.cards gs !! N.to_nat pos = Some card ->
  card <> Contract.Matched ->
  deck p !! N.to_nat pos = Some v ->
  (pos < 2 ^ 32)%N -> (v < 2 ^ 32)%N ->
  commitment p = hex_of_bytes bs ->
  Forall (fun b => (b < 256)%N) bs ->
  w_getContractSigner w = None ->
  exists added,
    events (fst (handleFlipCard w p pos r)) =
    (events r ++
     [SetActionLock true; SetLoading true; SetError None;
      flip_call p pos v bs] ++ added)%list.
Proof.
  intros Hl Hld Hgs Hturn Hcard Hm Hd Hp Hv Hc Hb Hs.
  rewrite (handler_runs_loop w p pos gs card v r
             Hl Hld Hgs Hturn Hcard Hm Hd Hp Hv Hs).
  rewrite (spelled_commitment p bs Hc Hb).
  match goal with
  | |- context [retry_loop ?a ?b 3 ?c ?d ?e ?f ?g ?h] =>
      destruct (retry_loop a b 3 c d e f g h) as [r1 res1] eqn:El
  end.
  apply retry_loop_submits in El as (ad & Ead).
  exists (ad ++ flip_shown res1 ++ [SetLoading false; SetActionLock false])%list.
  cbn [fst snd push events]. rewrite Ead.
  cbn [push events flip_call]. rewrite <- !app_assoc. reflexivity.
Qed.

Lemma submissions_app a b :
  submissions (a ++ b) = (submissions a + submissions b)%nat.
Proof. unfold submissions. rewrite List.filter_app, length_app. reflexivity. Qed.

(** X18.  The card's button and the handler.  Take the lock free, a signer
    at hand, a deck value for the card and a position that both fit 32 bits,
    and a commitment that spells octets.  Then a click on an enabled card
    submits the flip of that position; a click on a card disabled for loading,
    for being matched or for the turn submits nothing.  The handler has no
    guard of its own for the card of the pending first flip: only the disabled
    button keeps that card from being submitted a second time. *)
Theorem button_guards_the_handler w p pos gs card v bs r :
  actionLock p = false ->
  gameState p = Some gs ->
  Contract.cards gs !! N.to_nat pos = Some card ->
  deck p !! N.to_nat pos = Some v ->
  (pos < 2 ^ 32)%N -> (v < 2 ^ 32)%N ->
  commitment p = hex_of_bytes bs ->
  Forall (fun b => (b < 256)%N) bs ->
  w_getContractSigner w = None ->
  let evs := events (fst (handleFlipCard w p pos r)) in
  (isDisabled p pos card = false -> In (flip_call p pos v bs) evs) /\
  (isDisabled p pos card = true -> isFlipped p pos = false ->
   submissions evs = submissions (events r)) /\
  (isFlipped p pos = true -> loading p = false -> card <> Contract.Matched ->
   Contract.current_turn gs = userAddress p ->
   In (flip_call p pos v bs) evs).
Proof.
  intros Hl Hgs Hcard Hd Hp Hv Hc Hb Hs. cbv zeta.
  assert (Hsub : loading p = false ->
                 Contract.current_turn gs = userAddress p ->
                 card <> Contract.Matched ->
                 In (flip_call p pos v bs)
                    (events (fst (handleFlipCard w p pos r)))).
  { intros Hld Hturn Hm.
    destruct (handler_submits w p pos gs card v bs r
                Hl Hld Hgs Hturn Hcard Hm Hd Hp Hv Hc Hb Hs) as (ad & ->).
    apply in_or_app. right. simpl. auto. }
  split; [| split].
  - unfold isDisabled. rewrite Hgs. cbv zeta. intros Hdis.
    apply orb_false_elim in Hdis as (Hdis & _).
    apply orb_false_elim in Hdis as (Hdis & Hturn).
    apply orb_false_elim in Hdis as (Hld & Hm).
    apply negb_false_iff, String.eqb_eq in Hturn.
    apply Hsub; [exact Hld | exact Hturn |].
    intros ->. discriminate Hm.
  - unfold isDisabled. rewrite Hgs. cbv zeta. intros Hdis Hf.
    rewrite Hf in Hdis. rewrite orb_false_r in Hdis.
    unfold handleFlipCard. rewrite Hl, Hgs, Hcard. cbn [orb].
    destruct (loading p); [reflexivity |].
    destruct (String.eqb (Contract.current_turn gs) (userAddress p));
      cbn [negb].
    + destruct (Contract.CardState_eqb card Contract.Matched);
        [| discriminate Hdis].
      cbn [emit fst events]. rewrite submissions_app. cbn. lia.
    + cbn [emit fst events]. rewrite submissions_app. cbn. lia.
  - intros _ Hld Hm Hturn. apply Hsub; assumption.
Qed.

(** The octets the commitment of [player_props] spells. *)
Definition octets_of_player_commitment : Bytes :=
  hexToBuffer (commitment player_props).

Lemma player_commitment_spelled :
  commitment player_props = hex_of_bytes octets_of_player_commitment /\
  Forall (fun b => (b < 256)%N) octets_of_player_commitment.
Proof. split; [vm_compute; reflexivity | vm_compute; repeat constructor]. Qed.

Lemma button_guards_the_handler_witness :
  let evs :=
    events (fst (handleFlipCard (quiet_world deal1) player_props 1 start)) in
  (isDisabled player_props 1 Contract.FaceDown = false ->
   In (flip_call player_props 1 1 octets_of_player_commitment) evs) /\
  (isDisabled player_props 1 Contract.FaceDown = true ->
   isFlipped player_props 1 = false ->
   submissions evs = submissions (events start)) /\
  (isFlipped player_props 1 = true -> loading player_props = false ->
   Contract.FaceDown <> Contract.Matched ->
   Contract.current_turn board4 = userAddress player_props ->
   In (flip_call player_props 1 1 octets_of_player_commitment) evs).
Proof.
  apply (button_guards_the_handler (quiet_world deal1) player_props 1 board4
           Contract.FaceDown 1 octets_of_player_commitment start);
    try reflexivity.
  apply player_commitment_spelled.
Defined.

(** X19.  A flip the chain has accepted can be submitted again.  When the
    submission is accepted and the read of the session that follows it fails
    with a transient error ([TRY_AGAIN_LATER] or [txBadSeq]), the retry loop
    takes the failed read for a failed submission: it waits 2000 ms and
    submits the same flip a second time.  (For a handler past its guards, a
    deck value and a position that fit 32 bits, a commitment that spells
    octets, and a signer at hand.) *)
Theorem accepted_flip_is_resubmitted w p pos gs card v bs r msg :
  actionLock p = false -> loading p = false ->
  gameState p = Some gs ->
  Contract.current_turn gs = userAddress p ->
  Contract.cards gs !! N.to_nat pos = Some card ->
  card <> Contract.Matched ->
  deck p !! N.to_nat pos = Some v ->
  (pos < 2 ^ 32)%N -> (v < 2 ^ 32)%N ->
  commitment p = hex_of_bytes bs ->
  Forall (fun b => (b < 256)%N) bs ->
  w_getContractSigner w = None ->
  w_flipCard w (flip_calls r) = None ->
  w_getGame w (get_calls r) = inr (ErrorObj msg) ->
  is_transient msg = true ->
  exists added,
    events (fst (handleFlipCard w p pos r)) =
    (events r ++
     [SetActionLock true; SetLoading true; SetError None;
      flip_call p pos v bs;
      SetSuccess (Some "Card flipped! Waiting for blockchain confirmation...");
      Wait 1500;
      CallGetGame (sessionId p);
      Wait 2000;
      flip_call p pos v bs] ++ added)%list.
Proof.
  intros Hl Hld Hgs Hturn Hcard Hm Hd Hp Hv Hc Hb Hs Hflip Hget Htr.
  rewrite (handler_runs_loop w p pos gs card v r
             Hl Hld Hgs Hturn Hcard Hm Hd Hp Hv Hs).
  rewrite (spelled_commitment p bs Hc Hb).
  set (pis := [u32_be_at_28 pos; bs; u32_be_at_28 v]).
  set (r3 := push r [SetActionLock true; SetLoading true; SetError None]).
  assert (Hmsg : String.eqb msg "" = false).
  { destruct msg; [discriminate Htr | reflexivity]. }
  assert (Es : submit_once w p pos (Some v) generateMockProof pis r3 =
               (mkRun (S (flip_calls r)) (S (get_calls r))
                  (events r ++
                   [SetActionLock true; SetLoading true; SetError None;
                    flip_call p pos v bs;
                    SetSuccess (Some "Card flipped! Waiting for blockchain confirmation...");
                    Wait 1500; CallGetGame (sessionId p)]),
                Throw (ErrorObj msg))).
  { rewrite submit_once_confirm. unfold bind at 1. rewrite flipCard_run.
    unfold r3. cbn [push flip_calls]. rewrite Hflip.
    unfold confirm. rewrite !emit_bind.
    cbn [refresh]. unfold bind at 1 2, getGame.
    cbn [push submitted get_calls flip_calls events]. rewrite Hget.
    rewrite <- !app_assoc. reflexivity. }
  rewrite (attempt_retried w p 1 _ _ _ _ _ _ _ msg Es)
    by (unfold inspected; rewrite Hmsg; exact Htr).
  match goal with
  | |- context [retry_loop ?a ?b 2 ?c ?d ?e ?f ?g ?h] =>
      destruct (retry_loop a b 2 c d e f g h) as [r1 res1] eqn:El
  end.
  apply retry_loop_submits in El as (ad & Ead).
  exists (ad ++ flip_shown res1 ++ [SetLoading false; SetActionLock false])%list.
  cbn [fst snd push events]. rewrite Ead.
  cbn [push events]. rewrite <- !app_assoc.
  change (1000 * (4 - N.of_nat 2))%N with 2000%N.
  unfold flip_call, pis. reflexivity.
Qed.

(** Submissions are accepted; every read of the session fails with
    [txBadSeq]. *)
Definition unread_world : World :=
  {| w_createCommittedDeck := deal1;
     w_getContractSigner := None;
     w_prepareStartGame := fun _ _ _ _ _ _ => inl "AAAAAQ==";
     w_flipCard := fun _ => None;
     w_getGame := fun _ => inr (ErrorObj "txBadSeq");
     w_rangeErrorMessage := fun _ => "RangeError" |}.

Lemma accepted_flip_is_resubmitted_witness :
  exists added,
    events (fst (handleFlipCard unread_world player_props 1 start)) =
    (events start ++
     [SetActionLock true; SetLoading true; SetError None;
      flip_call player_props 1 1 octets_of_player_commitment;
      SetSuccess (Some "Card flipped! Waiting for blockchain confirmation...");
      Wait 1500;
      CallGetGame (sessionId player_props);
      Wait 2000;
      flip_call player_props 1 1 octets_of_player_commitment] ++ added)%list.
Proof.
  apply (accepted_flip_is_resubmitted unread_world player_props 1 board4
           Contract.FaceDown 1 octets_of_player_commitment start "txBadSeq");
    try reflexivity; [discriminate | apply player_commitment_spelled].
Defined.

(** ** Waiting *)

(** The milliseconds a trace spends in [setTimeout] waits. *)
Definition wait_of (e : Event) : N :=
  match e with
  | Wait ms => ms
  | _ => 0%N
  end.

Definition waited (evs : list Event) : N :=
  fold_right (fun e acc => (wait_of e + acc)%N) 0%N evs.

Lemma waited_app a b : waited (a ++ b) = (waited a + waited b)%N.
Proof.
  unfold waited. induction a as [|e a IH]; cbn [app fold_right];
    [reflexivity | rewrite IH; lia].
Qed.

(** [m] waits at most [n] ms. *)
Definition spends {A} (n : N) (m : C A) : Prop :=
  forall r r' res, m r = (r', res) ->
    (waited (events r') <= waited (events r) + n)%N.

Lemma spends_weaken {A} n n' (m : C A) :
  (n <= n')%N -> spends n m -> spends n' m.
Proof. intros Hn Hm r r' res E. specialize (Hm r r' res E). lia. Qed.

Lemma spends_ret {A} (a : A) : spends 0 (ret a).
Proof. intros r r' res [= <- _]. lia. Qed.

Lemma spends_throw {A} e : spends 0 (@throw A e).
Proof. intros r r' res [= <- _]. lia. Qed.

Lemma spends_emit e : spends (wait_of e) (emit e).
Proof.
  intros r r' res [= <- _]. cbn [events]. rewrite waited_app.
  cbn [waited fold_right]. lia.
Qed.

Lemma spends_getGame w sid : spends 0 (getGame w sid).
Proof.
  intros r r' res. unfold getGame.
  destruct (w_getGame w (get_calls r)); intros [= <- _]; cbn [events];
    rewrite waited_app; cbn; lia.
Qed.

Lemma spends_flipCard w sid pl pos rv pr pis :
  spends 0 (flipCard w sid pl pos rv pr pis).
Proof.
  intros r r' res. rewrite flipCard_run. intros [= <- _].
  cbn [submitted events]. rewrite waited_app. cbn. lia.
Qed.

Lemma spends_bind {A B} n1 n2 (m : C A) (k : A -> C B) :
  spends n1 m -> (forall a, spends n2 (k a)) -> spends (n1 + n2) (bind m k).
Proof.
  intros Hm Hk r r' res. unfold bind.
  destruct (m r) as [r1 [a|e]] eqn:Em; intros E.
  - specialize (Hm _ _ _ Em). specialize (Hk a _ _ _ E). lia.
  - injection E as <- _. specialize (Hm _ _ _ Em). lia.
Qed.

Lemma spends_try_catch {A} n1 n2 (m : C A) (h : Thrown -> C A) :
  spends n1 m -> (forall e, spends n2 (h e)) -> spends (n1 + n2) (try_catch m h).
Proof.
  intros Hm Hh r r' res. unfold try_catch.
  destruct (m r) as [r1 [a|e]] eqn:Em; intros E.
  - injection E as <- _. specialize (Hm _ _ _ Em). lia.
  - specialize (Hm _ _ _ Em). specialize (Hh e _ _ _ E). lia.
Qed.

Lemma spends_finally {A} n1 n2 (m : C A) (c : C unit) :
  spends n1 m -> spends n2 c -> spends (n1 + n2) (finally m c).
Proof.
  intros Hm Hc r r' res. unfold finally.
  destruct (m r) as [r1 res1] eqn:Em.
  destruct (c r1) as [r2 [[]|e]] eqn:Ec; intros [= <- _];
    specialize (Hm _ _ _ Em); specialize (Hc _ _ _ Ec); lia.
Qed.

Lemma spends_message_or e fallback : spends 0 (message_or e fallback).
Proof. destruct e; [apply spends_ret | apply spends_throw ..]. Qed.

Lemma spends_getContractSigner w : spends 0 (getContractSigner w).
Proof.
  unfold getContractSigner.
  destruct (w_getContractSigner w); [apply spends_throw | apply spends_ret].
Qed.

Lemma spends_quiet e : wait_of e = 0%N -> spends 0 (emit e).
Proof. intros H. rewrite <- H. apply spends_emit. Qed.

Create HintDb spends_db.

#[local] Hint Resolve spends_ret spends_throw spends_getGame spends_flipCard
  spends_message_or spends_getContractSigner : spends_db.
#[local] Hint Extern 1 (spends 0 (emit _)) =>
  apply spends_quiet; reflexivity : spends_db.

(** Splits a bound of no waiting along the structure of a computation. *)
Ltac quiet_step :=
  first
    [ solve [auto with spends_db]
    | apply (spends_bind 0 0); [| intros ?]
    | match goal with
      | |- spends _ (if ?c then _ else _) => destruct c
      | |- spends _ (match ?o with Some _ => _ | None => _ end) => destruct o
      end ].

(** The refresh loop waits 1000 ms after each of its first two reads. *)
Lemma spends_refresh w p n i g :
  spends (1000 * (2 - i)) (refresh w p n i g).
Proof.
  revert i g. induction n as [|n IH]; intros i g; cbn [refresh].
  - apply (spends_weaken 0); [lia | apply spends_ret].
  - apply (spends_bind 0 (1000 * (2 - i))); [apply spends_getGame |].
    intros [g'|].
    + destruct (_ && _); [apply (spends_weaken 0); [lia | apply spends_ret] |].
      unfold when. destruct (i <? 2)%N eqn:Ei.
      * apply N.ltb_lt in Ei.
        apply (spends_weaken (1000 + 1000 * (2 - (i + 1)))); [lia |].
        apply spends_bind; [apply (spends_emit (Wait 1000)) | intros _; apply IH].
      * apply N.ltb_ge in Ei.
        apply (spends_weaken (0 + 1000 * (2 - (i + 1)))); [lia |].
        apply spends_bind; [apply spends_ret | intros _; apply IH].
    + apply (spends_weaken (1000 * (2 - (i + 1)))); [lia | apply IH].
Qed.

Lemma spends_confirm w p : spends 3500 (confirm w p).
Proof.
  unfold confirm.
  apply (spends_bind 0 3500); [auto with spends_db | intros _].
  apply (spends_bind 1500 2000); [apply (spends_emit (Wait 1500)) | intros _].
  apply (spends_bind 2000 0); [apply (spends_refresh w p 3 0 None) | intros g].
  repeat quiet_step.
Qed.

Lemma spends_submit_once w p pos rv pr pis :
  spends 3500 (submit_once w p pos rv pr pis).
Proof.
  rewrite submit_once_confirm.
  apply (spends_bind 0 3500); [apply spends_flipCard | intros _].
  apply spends_confirm.
Qed.

(** One more retry: the attempt, the wait before the next one, and the
    rest of the loop. *)
Lemma spends_retry_S w p n b pos rv pr pis :
  (forall last, spends b (retry_loop w p n last pos rv pr pis)) ->
  forall last,
    spends (3500 + (1000 * (4 - N.of_nat n) + b))
      (retry_loop w p (S n) last pos rv pr pis).
Proof.
  intros IH last. rewrite retry_loop_S.
  apply spends_try_catch; [apply spends_submit_once | intros e].
  unfold retry_handler.
  apply (spends_bind 0 _); [apply spends_message_or | intros errorMsg].
  destruct (is_transient errorMsg && _).
  - apply spends_bind; [apply (spends_emit (Wait _)) | intros _; apply IH].
  - apply (spends_weaken 0); [lia |]. repeat quiet_step.
Qed.

(** The last attempt is not followed by a wait. *)
Lemma spends_retry_1 w p last pos rv pr pis :
  spends 3500 (retry_loop w p 1 last pos rv pr pis).
Proof.
  rewrite retry_loop_S.
  apply (spends_try_catch 3500 0); [apply spends_submit_once | intros e].
  unfold retry_handler.
  apply (spends_bind 0 0); [apply spends_message_or | intros errorMsg].
  change (1 <? N.of_nat 1)%N with false. rewrite andb_false_r.
  repeat quiet_step.
Qed.

Lemma spends_retry_3 w p last pos rv pr pis :
  spends 15500 (retry_loop w p 3 last pos rv pr pis).
Proof.
  revert last.
  apply (spends_retry_S w p 2 10000 pos rv pr pis).
  apply (spends_retry_S w p 1 3500 pos rv pr pis).
  intros last. apply spends_retry_1.
Qed.

(** Submissions are accepted; of the three reads that follow each, the
    third fails with [txBadSeq]. *)
Definition late_world : World :=
  {| w_createCommittedDeck := deal1;
     w_getContractSigner := None;
     w_prepareStartGame := fun _ _ _ _ _ _ => inl "AAAAAQ==";
     w_flipCard := fun _ => None;
     w_getGame := fun n =>
       if (n mod 3 =? 2)%nat then inr (ErrorObj "txBadSeq")
       else inl (Some board4);
     w_rangeErrorMessage := fun _ => "RangeError" |}.

(** X20.  One use of [handleFlipCard] waits at most 15500 ms in all,
    whatever the wallet and the service answer: three attempts of at most
    1500 + 2 * 1000 ms each, and the waits of 2000 and 3000 ms between them.
    The bound is met when each attempt fails at its third read. *)
Theorem flip_waiting_is_bounded :
  (forall w p pos r,
     (waited (events (fst (handleFlipCard w p pos r))) <=
      waited (events r) + 15500)%N) /\
  waited (events (fst (handleFlipCard late_world player_props 1 start))) =
    15500%N.
Proof.
  split; [| vm_compute; reflexivity].
  intros w p pos r.
  assert (Hs : spends 15500 (handleFlipCard w p pos)).
  { unfold handleFlipCard.
    destruct (actionLock p || loading p);
      [apply (spends_weaken 0); [lia | apply spends_ret] |].
    destruct (gameState p) as [gs|];
      [| apply (spends_weaken 0); [lia | apply spends_ret]].
    destruct (negb _);
      [apply (spends_weaken 0); [lia | auto with spends_db] |].
    destruct (Contract.cards gs !! N.to_nat pos) as [card|];
      [| apply (spends_weaken 0); [lia | apply spends_throw]].
    destruct (Contract.CardState_eqb card Contract.Matched);
      [apply (spends_weaken 0); [lia | auto with spends_db] |].
    do 3 (apply (spends_bind 0 15500); [auto with spends_db | intros _]).
    apply (spends_finally 15500 0).
    - apply (spends_try_catch 15500 0).
      + cbv zeta. destruct (generateMockPublicInputs _ _ _) as [pis | v].
        * apply (spends_bind 0 15500);
            [apply spends_getContractSigner | intros _].
          apply spends_retry_3.
        * apply (spends_weaken 0); [lia | apply spends_throw].
      + intros e. repeat quiet_step.
    - repeat quiet_step. }
  destruct (handleFlipCard w p pos r) as [r' res] eqn:E.
  exact (Hs _ _ _ E).
Qed.

(** ** Rejections by the contract *)

(** The message of a transaction the contract rejected with a typed error. *)
Definition contract_error_message (e : Contract.Error) : string :=
  "HostError: Error(Contract, #" ++
  toString10 (Contract.error_code e) ++ ")".

Definition reads_again (e : Contract.Error) : nat :=
  match e with
  | Contract.NotYourTurn => 1
  | _ => 0
  end.

Lemma contract_message_class e :
  is_transient (inspected (contract_error_message e)) = false /\
  is_not_your_turn (inspected (contract_error_message e)) =
    (reads_again e =? 1)%nat.
Proof. destruct e; split; vm_compute; reflexivity. Qed.

(** A submission refused with a message that is not transient: one
    submission, one more read when the message carries the code of
    [NotYourTurn], no wait. *)
Lemma refused_run w p n last pos rv pr pis r msg r' res :
  w_flipCard w (flip_calls r) = Some (ErrorObj msg) ->
  is_transient (inspected msg) = false ->
  retry_loop w p (S n) last pos rv pr pis r = (r', res) ->
  flip_calls r' = S (flip_calls r) /\
  get_calls r' =
    (get_calls r + if is_not_your_turn (inspected msg) then 1 else 0)%nat /\
  waited (events r') = waited (events r).
Proof.
  intros Hf Ht. cbn [retry_loop].
  unfold try_catch, submit_once, flipCard, message_or.
  unfold bind at 1. rewrite Hf. fold (inspected msg).
  unfold bind at 1, ret at 1. rewrite Ht. cbn [andb].
  destruct (is_not_your_turn (inspected msg)).
  - unfold bind, getGame, emit, throw, ret. cbn [flip_calls get_calls events].
    destruct (w_getGame w (get_calls r)) as [[g|]|m];
      intros [= <- <-]; cbn [flip_calls get_calls events];
      rewrite !waited_app; cbn [waited fold_right wait_of];
      (split; [reflexivity |]); split; lia.
  - unfold throw. intros [= <- <-]. cbn [flip_calls get_calls events].
    rewrite !waited_app. cbn [waited fold_right wait_of].
    split; [reflexivity |]. split; lia.
Qed.

(** X26.  A rejection by the contract is never retried.  When the flip a
    use of [handleFlipCard] submits is refused with an error whose message
    names one of the contract's typed errors, the handler submits once, does
    not wait, and reads the session again only for [NotYourTurn] (code 3).
    (For a handler past its guards, a deck value and a position that fit 32
    bits, and a signer at hand.) *)
Theorem contract_rejection_is_not_retried w p pos gs card v r e :
  actionLock p = false -> loading p = false ->
  gameState p = Some gs ->
  Contract.current_turn gs = userAddress p ->
  Contract.cards gs !! N.to_nat pos = Some card ->
  card <> Contract.Matched ->
  deck p !! N.to_nat pos = Some v ->
  (pos < 2 ^ 32)%N -> (v < 2 ^ 32)%N ->
  w_getContractSigner w = None ->
  w_flipCard w (flip_calls r) = Some (ErrorObj (contract_error_message e)) ->
  let out := fst (handleFlipCard w p pos r) in
  flip_calls out = S (flip_calls r) /\
  get_calls out = (get_calls r + reads_again e)%nat /\
  waited (events out) = waited (events r) /\
  last (events out) = Some (SetActionLock false).
Proof.
  intros Hl Hld Hgs Hturn Hcard Hm Hd Hp Hv Hs Hflip. cbv zeta.
  rewrite (handler_runs_loop w p pos gs card v r
             Hl Hld Hgs Hturn Hcard Hm Hd Hp Hv Hs).
  destruct (contract_message_class e) as (Ht & Hn).
  match goal with
  | |- context [retry_loop ?a ?b 3 ?c ?d ?e ?f ?g ?h] =>
      destruct (retry_loop a b 3 c d e f g h) as [r1 res1] eqn:El
  end.
  apply (refused_run w p 2 NullValue pos _ _ _
           (push r [SetActionLock true; SetLoading true; SetError None])
           (contract_error_message e) r1 res1 Hflip Ht) in El
    as (Hfc & Hgc & Hw).
  cbn [fst snd push flip_calls get_calls events] in *.
  rewrite Hn in Hgc.
  split; [exact Hfc |]. split.
  { rewrite Hgc. destruct e; reflexivity. }
  split.
  { rewrite waited_app, Hw, !waited_app.
    destruct res1 as [[]|[msg | |]];
      cbn [flip_shown app waited fold_right wait_of]; lia. }
  change [SetLoading false; SetActionLock false]
    with ([SetLoading false] ++ [SetActionLock false])%list.
  rewrite !app_assoc. apply last_snoc.
Qed.

Lemma contract_rejection_is_not_retried_witness :
  let out := fst (handleFlipCard stale_world player_props 1 start) in
  flip_calls out = S (flip_calls start) /\
  get_calls out = (get_calls start + reads_again Contract.NotYourTurn)%nat /\
  waited (events out) = waited (events start) /\
  last (events out) = Some (SetActionLock false).
Proof.
  apply (contract_rejection_is_not_retried stale_world player_props 1 board4
           Contract.FaceDown 1 start Contract.NotYourTurn);
    try reflexivity.
  discriminate.
Defined.

(** ** The retry policy of [handleFlipCard] *)

(** Brings the trace of a run to the form [events r ++ ...]. *)
Ltac trace_norm :=
  unfold push; cbn [flip_calls get_calls events];
  change (1000 * (4 - N.of_nat 2))%N with 2000%N;
  change (1000 * (4 - N.of_nat 1))%N with 3000%N;
  rewrite <- ?app_assoc.



(** ** Point amounts *)

Fixpoint digits_only (s : string) : bool :=
  match s with
  | EmptyString => true
  | String c rest => is_digit c && digits_only rest
  end.

Lemma append_cons c a b : String c a ++ b = String c (a ++ b).
Proof. reflexivity. Qed.

Lemma digit_is_no_dot c : is_digit c = true -> Ascii.eqb c "." = false.
Proof.
  intros Hd. destruct (Ascii.eqb_spec c "."%char) as [-> |]; [| reflexivity].
  discriminate Hd.
Qed.

Lemma keep_digits s : digits_only s = true -> keep_digits_and_dots s = s.
Proof.
  induction s as [|c s IH]; [reflexivity |]. cbn [digits_only].
  intros H. apply andb_prop in H as (Hc & Hs).
  cbn [keep_digits_and_dots]. rewrite Hc, (IH Hs). reflexivity.
Qed.

Lemma keep_append a b :
  keep_digits_and_dots (a ++ b) =
  keep_digits_and_dots a ++ keep_digits_and_dots b.
Proof.
  induction a as [|c a IH]; [reflexivity |].
  rewrite append_cons. cbn [keep_digits_and_dots].
  destruct (is_digit c || Ascii.eqb c "."); rewrite IH; reflexivity.
Qed.

Lemma keep_idempotent s :
  keep_digits_and_dots (keep_digits_and_dots s) = keep_digits_and_dots s.
Proof.
  induction s as [|c s IH]; [reflexivity |]. cbn [keep_digits_and_dots].
  destruct (is_digit c || Ascii.eqb c ".") eqn:Ec; [| exact IH].
  cbn [keep_digits_and_dots]. rewrite Ec, IH. reflexivity.
Qed.

Lemma until_dot_digits s : digits_only s = true -> until_dot s = (s, None).
Proof.
  induction s as [|c s IH]; [reflexivity |]. cbn [digits_only].
  intros H. apply andb_prop in H as (Hc & Hs).
  cbn [until_dot]. rewrite (digit_is_no_dot c Hc), (IH Hs). reflexivity.
Qed.

Lemma until_dot_append w rest :
  digits_only w = true -> until_dot (w ++ String "." rest) = (w, Some rest).
Proof.
  induction w as [|c w IH]; [reflexivity |]. cbn [digits_only].
  intros H. apply andb_prop in H as (Hc & Hw).
  rewrite append_cons. cbn [until_dot].
  rewrite (digit_is_no_dot c Hc), (IH Hw). reflexivity.
Qed.

Lemma digits_value_append acc a b :
  digits_value acc (a ++ b) = digits_value (digits_value acc a) b.
Proof.
  revert acc. induction a as [|c a IH]; intros acc; [reflexivity |].
  rewrite append_cons. cbn [digits_value]. apply IH.
Qed.

Lemma digits_value_zeros acc k :
  digits_value acc (replicate_char k "0") = (acc * 10 ^ Z.of_nat k)%Z.
Proof.
  revert acc. induction k as [|k IH]; intros acc.
  - cbn. lia.
  - cbn [replicate_char digits_value]. rewrite IH.
    change (Z.of_N (N_of_ascii "0" - 48)) with 0%Z.
    rewrite Nat2Z.inj_succ, Z.pow_succ_r by lia. lia.
Qed.

Lemma digits_value_shift acc s :
  digits_value acc s =
  (acc * 10 ^ Z.of_nat (String.length s) + digits_value 0 s)%Z.
Proof.
  revert acc. induction s as [|c s IH]; intros acc.
  - cbn. lia.
  - cbn [digits_value String.length].
    rewrite (IH (10 * acc + _)%Z), (IH (10 * 0 + _)%Z).
    rewrite Nat2Z.inj_succ, Z.pow_succ_r by lia. lia.
Qed.

Lemma digits_value_nonneg acc s : (0 <= acc)%Z -> (0 <= digits_value acc s)%Z.
Proof.
  revert acc. induction s as [|c s IH]; intros acc Ha; [exact Ha |].
  cbn [digits_value]. apply IH. lia.
Qed.

Lemma string_length_append a b :
  String.length (a ++ b) = (String.length a + String.length b)%nat.
Proof.
  induction a as [|c a IH]; [reflexivity |].
  rewrite append_cons. cbn [String.length]. rewrite IH. reflexivity.
Qed.

Lemma replicate_char_length k c : String.length (replicate_char k c) = k.
Proof. induction k as [|k IH]; [reflexivity |]. cbn. rewrite IH. reflexivity. Qed.

Lemma substring_prefix a b :
  String.substring 0 (String.length a) (a ++ b) = a.
Proof.
  induction a as [|c a IH]; [destruct b; reflexivity |].
  rewrite append_cons. cbn [String.length String.substring].
  rewrite IH. reflexivity.
Qed.

Lemma slice_prefix a b : slice 0 (String.length a) (a ++ b) = a.
Proof.
  unfold slice. rewrite string_length_append.
  replace (Nat.min (String.length a) (String.length a + String.length b) - 0)%nat
    with (String.length a) by lia.
  apply substring_prefix.
Qed.

Lemma nonempty_is_not_empty s : s <> "" -> String.eqb s "" = false.
Proof. destruct s; [congruence | reflexivity]. Qed.

(** The amount [parsePoints] makes of the digits before and after the dot. *)
Lemma parsePoints_cleaned whole fraction :
  digits_only whole = true -> digits_only fraction = true ->
  whole <> "" \/ fraction <> "" ->
  parsePoints (whole ++ "." ++ fraction) =
  Some (digits_value 0
          (whole ++ slice 0 POINTS_DECIMALS (padEnd POINTS_DECIMALS "0" fraction))).
Proof.
  intros Hw Hf Hne. unfold parsePoints. cbv zeta.
  rewrite keep_append, (keep_digits whole Hw).
  change ("." ++ fraction) with (String "." fraction).
  cbn [keep_digits_and_dots]. change (is_digit "." || Ascii.eqb "." ".") with true.
  cbv iota. rewrite (keep_digits fraction Hf).
  assert (E1 : String.eqb (whole ++ String "." fraction) "" = false)
    by (destruct whole; reflexivity).
  assert (E2 : String.eqb (whole ++ String "." fraction) "." = false).
  { destruct whole as [|c whole].
    - destruct fraction; [destruct Hne; congruence | reflexivity].
    - rewrite append_cons. cbn [digits_only] in Hw.
      apply andb_prop in Hw as (Hc & _). apply digit_is_no_dot in Hc.
      cbn [String.eqb]. rewrite Hc. reflexivity. }
  rewrite E1, E2. cbn [orb].
  rewrite (until_dot_append whole fraction Hw), (until_dot_digits fraction Hf).
  reflexivity.
Qed.

(** X21.  [parsePoints] reads an amount in fixed point with seven decimals.
    For digits [whole] and [fraction], not both empty: with at most seven
    fraction digits the amount is [whole * 10^7 + fraction * 10^(7 - length)];
    fraction digits past the seventh are dropped, not rounded; and without a
    dot a non-empty [whole] gives [whole * 10^7]. *)
Theorem parsePoints_is_fixed_point whole fraction extra :
  digits_only whole = true ->
  digits_only fraction = true ->
  digits_only extra = true ->
  whole <> "" \/ fraction <> "" ->
  ((String.length fraction <= 7)%nat ->
   parsePoints (whole ++ "." ++ fraction) =
   Some (digits_value 0 whole * 10 ^ 7 +
         digits_value 0 fraction *
           10 ^ (7 - Z.of_nat (String.length fraction)))%Z) /\
  (String.length fraction = 7%nat ->
   parsePoints (whole ++ "." ++ fraction ++ extra) =
   parsePoints (whole ++ "." ++ fraction)) /\
  (whole <> "" ->
   parsePoints whole = Some (digits_value 0 whole * 10 ^ 7)%Z).
Proof.
  intros Hw Hf He Hne. split; [| split].
  - intros Hlen. rewrite (parsePoints_cleaned whole fraction Hw Hf Hne).
    f_equal. unfold padEnd, POINTS_DECIMALS.
    set (k := (7 - String.length fraction)%nat).
    assert (Hk : String.length (fraction ++ replicate_char k "0") = 7%nat).
    { rewrite string_length_append, replicate_char_length. unfold k. lia. }
    rewrite <- Hk at 1.
    rewrite <- (ClientMore.append_empty_r (fraction ++ replicate_char k "0")) at 2.
    rewrite slice_prefix.
    rewrite !digits_value_append, digits_value_zeros.
    rewrite (digits_value_shift (digits_value 0 whole) fraction).
    replace (7 - Z.of_nat (String.length fraction))%Z with (Z.of_nat k)
      by (unfold k; lia).
    replace (10 ^ 7)%Z
      with (10 ^ Z.of_nat (String.length fraction) * 10 ^ Z.of_nat k)%Z.
    + ring.
    + rewrite <- Z.pow_add_r by lia. f_equal. unfold k. lia.
  - intros Hlen.
    assert (Hfe : digits_only (fraction ++ extra) = true).
    { clear -Hf He. induction fraction as [|c f IH]; [exact He |].
      rewrite append_cons. cbn [digits_only] in *.
      apply andb_prop in Hf as (-> & Hf). cbn [andb]. apply IH, Hf. }
    assert (Hne' : whole <> "" \/ fraction ++ extra <> "").
    { destruct Hne as [H | H]; [left; exact H |].
      right. destruct fraction; [congruence | discriminate]. }
    rewrite (parsePoints_cleaned whole (fraction ++ extra) Hw Hfe Hne').
    rewrite (parsePoints_cleaned whole fraction Hw Hf Hne).
    do 3 f_equal. unfold padEnd, POINTS_DECIMALS.
    rewrite string_length_append, Hlen.
    replace (7 - (7 + String.length extra))%nat with 0%nat by lia.
    cbn [Nat.sub replicate_char]. rewrite !ClientMore.append_empty_r.
    pose proof (slice_prefix fraction "") as Hs.
    rewrite ClientMore.append_empty_r in Hs.
    rewrite <- Hlen, Hs. apply slice_prefix.
  - intros Hwn. unfold parsePoints. cbv zeta.
    rewrite (keep_digits whole Hw), (nonempty_is_not_empty whole Hwn).
    assert (E2 : String.eqb whole "." = false).
    { destruct whole as [|c whole]; [reflexivity |].
      cbn [digits_only] in Hw. apply andb_prop in Hw as (Hc & _).
      apply digit_is_no_dot in Hc. cbn [String.eqb]. rewrite Hc. reflexivity. }
    rewrite E2. cbn [orb]. rewrite (until_dot_digits whole Hw).
    f_equal. rewrite digits_value_append.
    change (slice 0 POINTS_DECIMALS (padEnd POINTS_DECIMALS "0" ""))
      with "0000000".
    apply (digits_value_zeros (digits_value 0 whole) 7).
Qed.

Lemma parsePoints_is_fixed_point_witness :
  ((String.length "5" <= 7)%nat ->
   parsePoints ("12" ++ "." ++ "5") =
   Some (digits_value 0 "12" * 10 ^ 7 +
         digits_value 0 "5" * 10 ^ (7 - Z.of_nat (String.length "5")))%Z) /\
  (String.length "5" = 7%nat ->
   parsePoints ("12" ++ "." ++ "5" ++ "99") = parsePoints ("12" ++ "." ++ "5")) /\
  ("12" <> "" -> parsePoints "12" = Some (digits_value 0 "12" * 10 ^ 7)%Z).
Proof.
  apply (parsePoints_is_fixed_point "12" "5" "99");
    [reflexivity | reflexivity | reflexivity | left; discriminate].
Defined.

(** X22.  [parsePoints] looks at digits and dots only, so a sign or a unit
    in the text changes nothing, and the amount it returns is never
    negative. *)
Theorem parsePoints_is_never_negative value :
  parsePoints (keep_digits_and_dots value) = parsePoints value /\
  (forall amount, parsePoints value = Some amount -> (0 <= amount)%Z) /\
  parsePoints ("-" ++ value) = parsePoints value.
Proof.
  split; [| split].
  - unfold parsePoints. rewrite keep_idempotent. reflexivity.
  - intros amount. unfold parsePoints. cbv zeta.
    destruct (_ || _); [discriminate |].
    destruct (until_dot (keep_digits_and_dots value)) as [whole after].
    intros [= <-]. apply digits_value_nonneg. lia.
  - unfold parsePoints. rewrite keep_append. reflexivity.
Qed.

Lemma parsePoints_nonneg value amount :
  parsePoints value = Some amount -> (0 <= amount)%Z.
Proof.
  unfold parsePoints. cbv zeta.
  destruct (_ || _); [discriminate |].
  destruct (until_dot (keep_digits_and_dots value)) as [whole after].
  intros [= <-]. apply digits_value_nonneg. lia.
Qed.

(** ** What [handleCreateGame] asks of the service *)

(** X23.  Every [prepareStartGame] request [handleCreateGame] makes carries
    the component's session id and its two player addresses, the second not
    empty, the two parsed amounts, both positive, and the octets of the dealt
    commitment; it is made only with the lock free and a signer at hand.  For
    a deal of [createCommittedDeck] the octets are the 32 of the SHA-256
    digest.  So an amount of zero, an unreadable amount or a missing second
    player never reaches the service. *)
Theorem prepared_session_arguments w p sid p1 p2 a b buf :
  In (CallPrepareStartGame sid p1 p2 a b buf) (create_events w p) ->
  sid = sessionId p /\ p1 = player1Address p /\ p2 = player2Address p /\
  p2 <> "" /\
  parsePoints (player1Points p) = Some a /\
  parsePoints (player2Points p) = Some b /\
  (0 < a)%Z /\ (0 < b)%Z /\
  buf = hexToBuffer (cd_commitment (w_createCommittedDeck w)) /\
  w_getContractSigner w = None /\
  actionLock p = false /\ loading p = false /\
  (forall draws uuid,
     w_createCommittedDeck w = createCommittedDeck draws uuid ->
     length buf = 32%nat /\
     buf = Sha256.sha256
             (encode (ClientMore.committed_text (shuffleDeck draws) uuid))).
Proof.
  unfold create_events, handleCreateGame.
  destruct (actionLock p || loading p) eqn:Elock; [intros [] |].
  apply orb_false_elim in Elock as (Hl & Hld).
  unfold prepareStartGame, getContractSigner.
  destruct (parsePoints (player1Points p)) as [a'|] eqn:E1;
    destruct (parsePoints (player2Points p)) as [b'|] eqn:E2;
    cbn [falsy_points];
    try destruct (a' =? 0)%Z eqn:Ea; try destruct (b' =? 0)%Z eqn:Eb;
    try destruct (String.eqb (player2Address p) "") eqn:E2a;
    try destruct (w_getContractSigner w) as [[m | |]|] eqn:Es;
    try destruct (w_prepareStartGame w (sessionId p) (player1Address p)
                    (player2Address p) a' b'
                    (hexToBuffer (cd_commitment (w_createCommittedDeck w))))
      as [xdr | [m | |]];
    intros Hin; cbn in Hin;
    repeat match type of Hin with
           | _ \/ _ => destruct Hin as [Hin | Hin]
           | False => destruct Hin
           | _ = _ => try discriminate Hin
           end;
    injection Hin as <- <- <- <- <- <-;
    apply Z.eqb_neq in Ea, Eb;
    pose proof (parsePoints_nonneg _ _ E1);
    pose proof (parsePoints_nonneg _ _ E2);
    (repeat (split; [first [reflexivity | assumption | lia
                           | intros Hp; rewrite Hp in E2a; discriminate E2a] |]));
    intros draws uuid ->; cbn [createCommittedDeck cd_commitment];
    rewrite ClientMore.commitment_buffer;
    (split; [apply ClientMore.sha256_length | reflexivity]).
Qed.

Lemma prepared_session_arguments_witness :
  1%N = sessionId dealer_props /\
  "GALICE" = player1Address dealer_props /\
  "GBOB" = player2Address dealer_props /\
  "GBOB" <> "" /\
  parsePoints (player1Points dealer_props) = Some 1000000%Z /\
  parsePoints (player2Points dealer_props) = Some 1000000%Z /\
  (0 < 1000000)%Z /\ (0 < 1000000)%Z /\
  hexToBuffer (cd_commitment deal1) =
    hexToBuffer (cd_commitment (w_createCommittedDeck (quiet_world deal1))) /\
  w_getContractSigner (quiet_world deal1) = None /\
  actionLock dealer_props = false /\ loading dealer_props = false /\
  (forall draws uuid,
     w_createCommittedDeck (quiet_world deal1) =
       createCommittedDeck draws uuid ->
     length (hexToBuffer (cd_commitment deal1)) = 32%nat /\
     hexToBuffer (cd_commitment deal1) =
       Sha256.sha256
         (encode (ClientMore.committed_text (shuffleDeck draws) uuid))).
Proof.
  apply (prepared_session_arguments (quiet_world deal1) dealer_props
           1 "GALICE" "GBOB" 1000000 1000000
           (hexToBuffer (cd_commitment deal1))).
  vm_compute. do 7 right. left. reflexivity.
Defined.

(** ** Session ids *)

(** X24.  [createRandomSessionId] never returns 0: what it returns is a
    value from 1 to 2^32 - 1.  Without [crypto.getRandomValues] it always
    returns; with it, it returns at the first draw that is not 0, and goes on
    drawing as long as the draws are 0. *)
Theorem session_id_is_never_zero hasCrypto draws scaled :
  (forall sid,
     createRandomSessionId hasCrypto draws scaled = Some sid ->
     (0 < sid < 2 ^ 32)%N) /\
  (createRandomSessionId hasCrypto draws scaled = None <->
   hasCrypto = true /\ Forall (fun d => (d mod 2 ^ 32 = 0)%N) draws).
Proof.
  assert (Hmod : forall d, (d mod 2 ^ 32 < 2 ^ 32)%N)
    by (intros d; apply N.mod_lt; discriminate).
  unfold createRandomSessionId. destruct hasCrypto.
  - split.
    + intros sid. induction draws as [|d draws IH]; [discriminate |].
      cbn [first_nonzero_draw]. cbv zeta.
      destruct (d mod 2 ^ 32 =? 0)%N eqn:Ed; [exact IH |].
      intros [= <-]. apply N.eqb_neq in Ed.
      split; [apply N.neq_0_lt_0, Ed | apply Hmod].
    + induction draws as [|d draws IH].
      * split; [intros _; split; [reflexivity | constructor] | reflexivity].
      * cbn [first_nonzero_draw]. cbv zeta.
        destruct (d mod 2 ^ 32 =? 0)%N eqn:Ed.
        -- apply N.eqb_eq in Ed. rewrite IH. split.
           ++ intros (_ & Hf). split; [reflexivity | constructor; assumption].
           ++ intros (_ & Hf). split; [reflexivity |].
              inversion Hf; assumption.
        -- apply N.eqb_neq in Ed. split; [discriminate |].
           intros (_ & Hf). inversion Hf; subst. contradiction.
  - split.
    + intros sid [= <-]. cbv zeta.
      destruct (scaled mod 2 ^ 32 =? 0)%N eqn:Es.
      * split; reflexivity.
      * apply N.eqb_neq in Es.
        split; [apply N.neq_0_lt_0, Es | apply Hmod].
    + split; [discriminate | intros (H & _); discriminate H].
Qed.

End ComponentMore.

(** * The encoding behind the commitment *)

Module EncodingFacts.
Import JS Client CommitmentFacts ComponentFacts ClientMore.
Open Scope string_scope.

(** ** The text behind a commitment determines the deal *)

Lemma append_cancel_l (a x y : string) : a ++ x = a ++ y -> x = y.
Proof.
  induction a as [|c a IH]; [trivial |].
  change (String c (a ++ x) = String c (a ++ y) -> x = y).
  intros [= E]. apply IH, E.
Qed.

Fixpoint has_char (c : ascii) (s : string) : bool :=
  match s with
  | EmptyString => false
  | String x rest => Ascii.eqb x c || has_char c rest
  end.

(** Two texts cut at the first occurrence of a character. *)
Lemma split_at_first c a a' x x' :
  has_char c a = false -> has_char c a' = false ->
  a ++ String c x = a' ++ String c x' -> a = a' /\ x = x'.
Proof.
  revert a'. induction a as [|h a IH]; intros [|h' a'] Ha Ha'.
  - intros [= E]. auto.
  - change (String c x = String h' (a' ++ String c x') -> "" = String h' a' /\ x = x').
    intros [= <- _]. cbn [has_char] in Ha'.
    rewrite Ascii.eqb_refl in Ha'. discriminate Ha'.
  - change (String h (a ++ String c x) = String c x' -> String h a = "" /\ x = x').
    intros [= -> _]. cbn [has_char] in Ha.
    rewrite Ascii.eqb_refl in Ha. discriminate Ha.
  - change (String h (a ++ String c x) = String h' (a' ++ String c x') ->
            String h a = String h' a' /\ x = x').
    intros [= <- E]. cbn [has_char] in Ha, Ha'.
    apply orb_false_elim in Ha as (_ & Ha).
    apply orb_false_elim in Ha' as (_ & Ha').
    destruct (IH a' Ha Ha' E) as (-> & ->). auto.
Qed.

(** *** Numbers *)

Definition digit_char (c : ascii) : bool := Component.is_digit c.

Lemma string_of_uint_digits d c :
  has_char c (NilEmpty.string_of_uint d) = true -> digit_char c = true.
Proof.
  induction d; cbn [NilEmpty.string_of_uint has_char];
    try discriminate;
    intros H; apply orb_prop in H as [H | H]; try (apply IHd, H);
    apply Ascii.eqb_eq in H; subst c; reflexivity.
Qed.

Lemma toString10_no_char c n :
  digit_char c = false -> has_char c (toString10 n) = false.
Proof.
  intros Hc. destruct (has_char c (toString10 n)) eqn:E; [| reflexivity].
  apply string_of_uint_digits in E. congruence.
Qed.

Lemma toString10_nonempty n : toString10 n <> "".
Proof.
  unfold toString10. destruct n as [|p]; [discriminate |].
  intros E.
  assert (Hu : N.to_uint (N.pos p) = Decimal.Nil).
  { destruct (N.to_uint (N.pos p)); try discriminate E. reflexivity. }
  pose proof (DecimalN.Unsigned.of_to (N.pos p)) as Hp.
  rewrite Hu in Hp. discriminate Hp.
Qed.

Lemma toString10_inj n n' : toString10 n = toString10 n' -> n = n'.
Proof.
  unfold toString10. intros E.
  apply DecimalN.Unsigned.to_uint_inj.
  apply (f_equal NilEmpty.uint_of_string) in E.
  rewrite !NilEmpty.usu in E. injection E as E. exact E.
Qed.

Lemma has_char_append c a b :
  has_char c (a ++ b) = has_char c a || has_char c b.
Proof.
  induction a as [|h a IH]; [reflexivity |].
  change (has_char c (String h (a ++ b)) =
          has_char c (String h a) || has_char c b).
  cbn [has_char]. rewrite IH, orb_assoc. reflexivity.
Qed.

Lemma concat_cons sep x y l :
  String.concat sep (x :: y :: l) = x ++ sep ++ String.concat sep (y :: l).
Proof. reflexivity. Qed.

Lemma numbers_no_char c l :
  digit_char c = false -> Ascii.eqb "," c = false ->
  has_char c (String.concat "," (map toString10 l)) = false.
Proof.
  intros Hc Hcomma. induction l as [|n [|m l] IH]; [reflexivity | |].
  - apply toString10_no_char, Hc.
  - change (map toString10 (n :: m :: l))
      with (toString10 n :: toString10 m :: map toString10 l).
    rewrite concat_cons, !has_char_append.
    rewrite (toString10_no_char c n Hc). cbn [has_char orb].
    rewrite Hcomma. exact IH.
Qed.

Lemma numbers_inj l l' :
  String.concat "," (map toString10 l) = String.concat "," (map toString10 l') ->
  l = l'.
Proof.
  assert (Hdigit : digit_char "," = false) by reflexivity.
  assert (Hsplit : forall n x n' x',
             toString10 n ++ String "," x = toString10 n' ++ String "," x' ->
             n = n' /\ x = x').
  { intros n x n' x' E.
    apply split_at_first in E as (E & ->);
      [| apply toString10_no_char, Hdigit ..].
    split; [apply toString10_inj, E | reflexivity]. }
  revert l'. induction l as [|n l IH]; intros [|n' l'].
  - reflexivity.
  - destruct l'; cbn [map String.concat]; intros E; symmetry in E.
    + exfalso. exact (toString10_nonempty _ E).
    + exfalso. destruct (toString10 n'); discriminate E.
  - destruct l; cbn [map String.concat]; intros E.
    + exfalso. exact (toString10_nonempty _ E).
    + exfalso. destruct (toString10 n); discriminate E.
  - destruct l as [|m l], l' as [|m' l'].
    + cbn [map String.concat]. intros E. f_equal. apply toString10_inj, E.
    + change (map toString10 (n' :: m' :: l'))
        with (toString10 n' :: toString10 m' :: map toString10 l').
      rewrite concat_cons. cbn [map String.concat]. intros E. exfalso.
      assert (Hc : has_char "," (toString10 n) = false)
        by (apply toString10_no_char, Hdigit).
      rewrite E, has_char_append in Hc.
      change ("," ++ ?s) with (String "," s) in Hc. cbn [has_char] in Hc.
      rewrite orb_true_r in Hc. discriminate Hc.
    + change (map toString10 (n :: m :: l))
        with (toString10 n :: toString10 m :: map toString10 l).
      rewrite concat_cons. cbn [map String.concat]. intros E. exfalso.
      assert (Hc : has_char "," (toString10 n') = false)
        by (apply toString10_no_char, Hdigit).
      rewrite <- E, has_char_append in Hc.
      change ("," ++ ?s) with (String "," s) in Hc. cbn [has_char] in Hc.
      rewrite orb_true_r in Hc. discriminate Hc.
    + change (map toString10 (n :: m :: l))
        with (toString10 n :: toString10 m :: map toString10 l).
      change (map toString10 (n' :: m' :: l'))
        with (toString10 n' :: toString10 m' :: map toString10 l').
      rewrite !concat_cons. intros E.
      apply Hsplit in E as (-> & E).
      f_equal. apply IH. exact E.
Qed.

(** *** Escaped text *)

Definition all_ascii : list ascii := map ascii_of_nat (seq 0 256).

Lemma all_ascii_complete c : In c all_ascii.
Proof.
  rewrite <- (ascii_nat_embedding c). apply in_map, in_seq.
  pose proof (nat_ascii_bounded c). lia.
Qed.

(** No escape is the beginning of the escape of another character, and none
    begins with a double quote. *)
Lemma escape_prefix_free c c' :
  String.prefix (json_escape_char c) (json_escape_char c') = true -> c = c'.
Proof.
  assert (Hall : forallb (fun a =>
            forallb (fun b =>
              Ascii.eqb a b ||
              negb (String.prefix (json_escape_char a) (json_escape_char b)))
              all_ascii) all_ascii = true) by (vm_compute; reflexivity).
  rewrite forallb_forall in Hall.
  specialize (Hall c (all_ascii_complete c)).
  rewrite forallb_forall in Hall.
  specialize (Hall c' (all_ascii_complete c')).
  intros Hp. rewrite Hp in Hall. cbn [negb] in Hall.
  rewrite orb_false_r in Hall. apply Ascii.eqb_eq, Hall.
Qed.

Lemma escape_head c :
  exists h rest, json_escape_char c = String h rest /\ h <> dquote.
Proof.
  assert (Hall : forallb (fun a =>
            match json_escape_char a with
            | String h _ => negb (Ascii.eqb h dquote)
            | EmptyString => false
            end) all_ascii = true) by (vm_compute; reflexivity).
  rewrite forallb_forall in Hall.
  specialize (Hall c (all_ascii_complete c)).
  destruct (json_escape_char c) as [|h rest]; [discriminate Hall |].
  exists h, rest. split; [reflexivity |].
  apply negb_true_iff, Ascii.eqb_neq in Hall. exact Hall.
Qed.

Lemma prefix_of_equal_appends a a' x x' :
  a ++ x = a' ++ x' ->
  String.prefix a a' = true \/ String.prefix a' a = true.
Proof.
  revert a'. induction a as [|h a IH]; intros a' E.
  - left. destruct a'; reflexivity.
  - destruct a' as [|h' a']; [right; reflexivity |].
    change (String h (a ++ x) = String h' (a' ++ x')) in E.
    injection E as <- E. cbn [String.prefix].
    destruct (ascii_dec h h); [| congruence]. apply IH, E.
Qed.

Lemma escaped_then_quote s s' t t' :
  json_escape s ++ String dquote t = json_escape s' ++ String dquote t' ->
  s = s' /\ t = t'.
Proof.
  revert s'. induction s as [|c s IH]; intros [|c' s'].
  - intros [= E]. auto.
  - cbn [json_escape]. rewrite append_assoc_string.
    destruct (escape_head c') as (h & rest & -> & Hh).
    intros [= E _]. congruence.
  - cbn [json_escape]. rewrite append_assoc_string.
    destruct (escape_head c) as (h & rest & -> & Hh).
    intros [= E _]. congruence.
  - cbn [json_escape]. rewrite !append_assoc_string. intros E.
    assert (Hc : c = c').
    { destruct (prefix_of_equal_appends _ _ _ _ E) as [Hp | Hp];
        [| symmetry]; apply escape_prefix_free, Hp. }
    subst c'. apply append_cancel_l in E.
    destruct (IH s' E) as (-> & ->). auto.
Qed.

(** *** The hashed text *)

Lemma append_nil_l (s : string) : "" ++ s = s.
Proof. reflexivity. Qed.

Lemma append_String c (a b : string) : String c a ++ b = String c (a ++ b).
Proof. reflexivity. Qed.

(** Brings nested appends to the right. *)
Ltac flatten_appends :=
  repeat first
    [ rewrite append_assoc_string
    | rewrite append_String
    | rewrite append_nil_l ].

Definition text_head : string := "{" ++ json_string "deck" ++ ":[".
Definition text_middle : string :=
  "," ++ json_string "salt" ++ ":" ++ String dquote "".

Lemma committed_text_shape deck salt :
  committed_text deck salt =
  text_head ++ String.concat "," (map toString10 deck) ++
  String "]" (text_middle ++ json_escape salt ++ String dquote "}").
Proof.
  unfold committed_text, json_object, json_member, json_numbers, json_string,
    text_head, text_middle.
  cbn [String.concat].
  change (json_escape "deck") with "deck".
  change (json_escape "salt") with "salt".
  flatten_appends. reflexivity.
Qed.

(** X27.  The text [generateCommitment] hashes determines the deal: two
    decks of safe integers (card values below 2^53, which JavaScript holds
    exactly and prints digit by digit) with their salts give the same JSON
    text only when the decks are equal and the salts are equal.  Two different
    deals can share a commitment only through a collision of SHA-256. *)
Theorem committed_text_determines_deal deck salt deck' salt' :
  safe_integers deck ->
  safe_integers deck' ->
  committed_text deck salt = committed_text deck' salt' ->
  deck = deck' /\ salt = salt'.
Proof.
  intros _ _. rewrite !committed_text_shape. intros E.
  apply append_cancel_l in E.
  apply split_at_first in E as (En & E);
    [| apply numbers_no_char; reflexivity ..].
  apply append_cancel_l in E.
  apply escaped_then_quote in E as (Es & _).
  split; [apply numbers_inj, En | exact Es].
Qed.

Lemma committed_text_determines_deal_witness :
  [0; 1; 0; 1]%N = [0; 1; 0; 1]%N /\ "salt" = "salt".
Proof.
  apply (committed_text_determines_deal [0; 1; 0; 1]%N "salt"
           [0; 1; 0; 1]%N "salt").
  - unfold safe_integers. repeat constructor.
  - unfold safe_integers. repeat constructor.
  - reflexivity.
Defined.

End EncodingFacts.
